(** * DAF: taxonomy validation, classification records, per-IP fusion

    A shallow embedding of the fusion core of the Device Annotation
    Framework: [taxonomy_checker.py], [annotation.py], [ip.py] and the
    annotator loop of [daf.py].

    Conventions of the embedding.
    - A Python value that is "a str or None" is an [option string]; raw
      labels handed to a constructor are [pyval]s.
    - Text is ASCII: [lower] is Python's [str.lower] on the ASCII range.
    - A Python [dict] whose iteration order is observable (the candidate
      map of an IP, a [Counter]) is an association list in insertion
      order; a [dict] that is only looked up (a taxonomy, an exported
      record) is a [gmap].
    - Methods that mutate [self] take the object and return the new one;
      log output is not part of the state. *)

From stdpp Require Import gmap strings list fin_maps.
From stdpp Require Import sorting.
From Stdlib Require Import ZArith Ascii Sorted.

Local Open Scope string_scope.
Set Warnings "-clear-no-such-hyp".

(** ** Python values *)

Inductive pyval : Type :=
| PNone
| PNaN                  (* float('nan'), as pandas reads a missing cell *)
| PStr (s : string)
| PInt (z : Z).         (* any other scalar *)

#[global] Instance pyval_eq_dec : EqDecision pyval.
Proof. solve_decision. Defined.

(** [pandas.isna] on a scalar. *)
Definition isna (v : pyval) : bool :=
  match v with
  | PNone | PNaN => true
  | _ => false
  end.

(** Truthiness of a value that is a str or None: [if tag], [if hand_value]. *)
Definition truthy (v : option string) : bool :=
  match v with
  | Some s => negb (bool_decide (s = ""))
  | None => false
  end.

(** A str-or-None seen as a Python value again. *)
Definition py_of (v : option string) : pyval :=
  match v with
  | Some s => PStr s
  | None => PNone
  end.

(** [str.lower] on ASCII text: the letters A to Z are folded, every other
    character is left as it is. A [string] holds bytes, and a byte above
    127 is left as it is too, which is not what [str.lower] does to a
    cased letter outside ASCII: where a statement depends on the
    lower-case form being the one [str.lower] gives, it is made of ASCII
    text ([ascii_text]). *)
Definition lower_ascii (c : ascii) : ascii :=
  let n := N_of_ascii c in
  if ((65 <=? n) && (n <=? 90))%N then ascii_of_N (n + 32) else c.

Fixpoint lower (s : string) : string :=
  match s with
  | EmptyString => EmptyString
  | String c s' => String (lower_ascii c) (lower s')
  end.

(** Text whose characters are all ASCII, as [str.isascii] tests. *)
Fixpoint ascii_text (s : string) : bool :=
  match s with
  | EmptyString => true
  | String c s' => (N_of_ascii c <? 128)%N && ascii_text s'
  end.

(** ** taxonomy_checker.py *)

Record Taxonomy_checker : Type := {
  os_tax : gmap string (list string);
  dev_tax : gmap string (list string)
}.

(** [key in d] for a key that is a str or None: the keys of a taxonomy
    are JSON object keys, hence strings, so [None in d] is [False]. *)
Definition key_in (k : option string) (d : gmap string (list string)) : bool :=
  match k with
  | Some s => bool_decide (is_Some (d !! s))
  | None => false
  end.

(** [x in d[k]], evaluated only after [k in d] held. *)
Definition in_entry (x k : option string) (d : gmap string (list string)) : bool :=
  match x, k with
  | Some t, Some s => bool_decide (t ∈ default [] (d !! s))
  | _, _ => false
  end.

Definition is_None_b (v : option string) : bool :=
  match v with
  | None => true
  | Some _ => false
  end.

Definition check_os (self : Taxonomy_checker)
    (os_family os_type os_version : option string) : bool :=
  if key_in os_family (os_tax self)
     && (is_None_b os_type || in_entry os_type os_family (os_tax self))
  then true
  else false.

Definition check_device (self : Taxonomy_checker)
    (group _class : option string) : bool :=
  if key_in group (dev_tax self)
     && (is_None_b _class || in_entry _class group (dev_tax self))
  then true
  else false.

(** ** annotation.py *)

Record Annotation : Type := mkAnnotation {
  group : option string;
  _class : option string;
  os_family : option string;
  os_type : option string;
  os_version : option string
}.

#[global] Instance Annotation_eq_dec : EqDecision Annotation.
Proof. solve_decision. Defined.

(** The object as [__init__] leaves it before it calls [set_annotation]. *)
Definition blank : Annotation := mkAnnotation None None None None None.

Definition _validate_label (label : pyval) : option string :=
  if isna label then None
  else match label with
       | PStr s => if (String.length s =? 0)%nat then None else Some (lower s)
       | _ => None      (* wrong type: a warning is logged *)
       end.

Section WithTaxonomy.

(** The shared checker, after [Annotation.initialize_taxonomy_checker]. *)
Variable tax_checker : Taxonomy_checker.

Definition set_annotation (self : Annotation)
    (group_label _class_label os_family_label os_type_label os_version_label : pyval)
    : Annotation :=
  let os_family' := _validate_label os_family_label in
  let os_type' := _validate_label os_type_label in
  let os_version' := _validate_label os_version_label in
  let group' := _validate_label group_label in
  let _class' := _validate_label _class_label in
  let self :=
    if check_os tax_checker os_family' os_type' os_version'
    then mkAnnotation (group self) (_class self) os_family' os_type' os_version'
    else self in
  if check_device tax_checker group' _class'
  then mkAnnotation group' _class' (os_family self) (os_type self) (os_version self)
  else self.

(** [Annotation(group, _class, os_family, os_type, os_version)]. *)
Definition Annotation_init (g c f t v : pyval) : Annotation :=
  set_annotation blank g c f t v.

Definition ret_annotation (self : Annotation) : list (option string) :=
  [group self; _class self; os_family self; os_type self; os_version self].

Definition is_empty (self : Annotation) : bool :=
  forallb (fun x => match x with
                    | None => true
                    | Some s => (String.length s =? 0)%nat
                    end)
          (ret_annotation self).

(** [export]: a dict with the five fixed keys. *)
Definition Annotation_export (self : Annotation) : gmap string pyval :=
  <["os_version" := py_of (os_version self)]>
  (<["os_type" := py_of (os_type self)]>
  (<["os_family" := py_of (os_family self)]>
  (<["class" := py_of (_class self)]>
  (<["group" := py_of (group self)]> ∅)))).

(** [data.get(key)]: None when the key is missing. *)
Definition dict_get_default (d : gmap string pyval) (k : string) : pyval :=
  default PNone (d !! k).

Definition Annotation_load (d : gmap string pyval) : Annotation :=
  Annotation_init (dict_get_default d "group") (dict_get_default d "class")
                  (dict_get_default d "os_family") (dict_get_default d "os_type")
                  (dict_get_default d "os_version").

(** ** ip.py *)

(** [ipaddress.IPv4Address] / [ipaddress.IPv6Address]: the integer value
    and, for IPv6, the scope id. Their [__eq__] compares version, integer
    and scope id, that is, the constructors and their arguments. *)
Inductive ip_address : Type :=
| IPv4Address (_ip : N)
| IPv6Address (_ip : N) (_scope_id : option string).

#[global] Instance ip_address_eq_dec : EqDecision ip_address.
Proof. solve_decision. Defined.

(** The payload of a [multi_device] entry: the value list of a failed
    merge, or whatever a detector attached. *)
Inductive multi_device_payload : Type :=
| MergeTags (tags : list string)
| DetectorData (payload : pyval).

#[global] Instance multi_device_payload_eq_dec : EqDecision multi_device_payload.
Proof. solve_decision. Defined.

Record IP : Type := mkIP {
  ip_addr : ip_address;
  final_annotation : Annotation;
  annotations : list (string * Annotation);       (* dict, insertion order *)
  data : list (string * pyval);                   (* dict, insertion order *)
  hand_miss : list (string * string * option string);
  one_miss : list (list (string * nat));
  multi_device : list (string * multi_device_payload)
}.

#[global] Instance IP_eq_dec : EqDecision IP.
Proof. solve_decision. Defined.

(** *** Python dicts in insertion order *)

Fixpoint dict_lookup {V : Type} (k : string) (d : list (string * V)) : option V :=
  match d with
  | [] => None
  | (k', v) :: d' => if decide (k = k') then Some v else dict_lookup k d'
  end.

(** [d[k] = v]: an existing key keeps its position, a new key goes last. *)
Fixpoint dict_set {V : Type} (k : string) (v : V) (d : list (string * V))
    : list (string * V) :=
  match d with
  | [] => [(k, v)]
  | (k', v') :: d' =>
      if decide (k = k') then (k, v) :: d' else (k', v') :: dict_set k v d'
  end.

Definition dict_values {V : Type} (d : list (string * V)) : list V := d.*2.

(** [d.update(other)]. *)
Definition dict_update {V : Type} (d other : list (string * V)) : list (string * V) :=
  foldl (fun acc kv => dict_set kv.1 kv.2 acc) d other.

(** *** collections.Counter *)

(** One more occurrence of [x]: the count of an existing key is bumped in
    place, a new key is appended with count 1. *)
Fixpoint counter_add (x : string) (c : list (string * nat)) : list (string * nat) :=
  match c with
  | [] => [(x, 1)]
  | (y, n) :: c' =>
      if decide (x = y) then (y, S n) :: c' else (y, n) :: counter_add x c'
  end.

Definition Counter (tags : list string) : list (string * nat) :=
  foldl (fun c x => counter_add x c) [] tags.

(** [sorted(items, key=itemgetter(1), reverse=True)] is stable: [p] moves
    past the entries with a strictly larger count only. *)
Fixpoint insert_by_count (p : string * nat) (l : list (string * nat))
    : list (string * nat) :=
  match l with
  | [] => [p]
  | q :: l' => if (p.2 <? q.2)%nat then q :: insert_by_count p l' else p :: q :: l'
  end.

Definition most_common (c : list (string * nat)) : list (string * nat) :=
  foldr insert_by_count [] c.

(** [count[0]] and [count[-1]]; the source indexes only a non-empty list. *)
Definition first_entry (count : list (string * nat)) : string * nat :=
  hd ("", 0) count.

Definition last_entry (count : list (string * nat)) : string * nat :=
  List.last count ("", 0).

(** [[tag for tag in tags if tag]]. *)
Definition drop_absent (tags : list (option string)) : list string :=
  omap (fun tag => if truthy tag then tag else None) tags.

Definition merge_annotation (self : IP) (tags : list (option string))
    (min_annotators_count : Z) (nat_check : bool) : string * IP :=
  let tags := drop_absent tags in
  let count := most_common (Counter tags) in
  if (length count =? 0)%nat then ("", self)
  else if (length count =? 1)%nat
          && (min_annotators_count <=? Z.of_nat (first_entry count).2)%Z
  then ((first_entry count).1, self)
  else if (length count =? 2)%nat
          && (min_annotators_count <=? Z.of_nat (first_entry count).2)%Z
          && ((last_entry count).2 =? 1)%nat
  then ("", mkIP (ip_addr self) (final_annotation self) (annotations self)
                 (data self) (hand_miss self) (one_miss self ++ [count])
                 (multi_device self))
  else if nat_check && (1 <? length count)%nat
  then ("", mkIP (ip_addr self) (final_annotation self) (annotations self)
                 (data self) (hand_miss self) (one_miss self)
                 (multi_device self
                    ++ [("IP:merge_annotation_fail", MergeTags tags)]))
  else ("", self).

(** [getattr(obj, attr_name, None)] and [setattr(obj, attr_name, value)]
    on the five attributes. *)
Definition getattr (a : Annotation) (attr_name : string) : option string :=
  if decide (attr_name = "group") then group a
  else if decide (attr_name = "_class") then _class a
  else if decide (attr_name = "os_family") then os_family a
  else if decide (attr_name = "os_type") then os_type a
  else if decide (attr_name = "os_version") then os_version a
  else None.

Definition setattr (a : Annotation) (attr_name : string) (v : option string)
    : Annotation :=
  if decide (attr_name = "group")
  then mkAnnotation v (_class a) (os_family a) (os_type a) (os_version a)
  else if decide (attr_name = "_class")
  then mkAnnotation (group a) v (os_family a) (os_type a) (os_version a)
  else if decide (attr_name = "os_family")
  then mkAnnotation (group a) (_class a) v (os_type a) (os_version a)
  else if decide (attr_name = "os_type")
  then mkAnnotation (group a) (_class a) (os_family a) v (os_version a)
  else if decide (attr_name = "os_version")
  then mkAnnotation (group a) (_class a) (os_family a) (os_type a) v
  else a.

Definition attr_names : list string :=
  ["group"; "_class"; "os_family"; "os_type"; "os_version"].

Definition with_final (self : IP) (a : Annotation) : IP :=
  mkIP (ip_addr self) a (annotations self) (data self)
       (hand_miss self) (one_miss self) (multi_device self).

(** The first half of [perform_annotation]: the five merges, then
    [self.final_annotation.set_annotation(...)]. *)
Definition fuse (self : IP) (min_annotators_count : Z) : IP :=
  let '(group', self) :=
    merge_annotation self (group <$> dict_values (annotations self))
                     min_annotators_count true in
  let '(_class', self) :=
    merge_annotation self (_class <$> dict_values (annotations self))
                     min_annotators_count false in
  let '(os_family', self) :=
    merge_annotation self (os_family <$> dict_values (annotations self))
                     min_annotators_count true in
  let '(os_type', self) :=
    merge_annotation self (os_type <$> dict_values (annotations self))
                     min_annotators_count true in
  let '(os_version', self) :=
    merge_annotation self (os_version <$> dict_values (annotations self))
                     min_annotators_count false in
  with_final self
    (set_annotation (final_annotation self) (PStr group') (PStr _class')
                    (PStr os_family') (PStr os_type') (PStr os_version')).

(** One turn of the loop over the attribute names. *)
Definition hand_step (hand : Annotation) (self : IP) (attr_name : string) : IP :=
  let hand_value := getattr hand attr_name in
  let final_value := getattr (final_annotation self) attr_name in
  if truthy hand_value && negb (bool_decide (hand_value = final_value))
  then mkIP (ip_addr self)
            (setattr (final_annotation self) attr_name hand_value)
            (annotations self) (data self)
            (hand_miss self ++ [(attr_name, default "" hand_value, final_value)])
            (one_miss self) (multi_device self)
  else self.

(** The second half: [if "hand_annotator" in self.annotations: ...]. *)
Definition hand_override (self : IP) : IP :=
  match dict_lookup "hand_annotator" (annotations self) with
  | Some hand => foldl (hand_step hand) self attr_names
  | None => self
  end.

Definition perform_annotation (self : IP) (min_annotators_count : Z) : IP :=
  hand_override (fuse self min_annotators_count).

Definition add_annotation (self : IP) (annotator_name : string)
    (annotation : Annotation) : IP :=
  mkIP (ip_addr self) (final_annotation self)
       (dict_set annotator_name annotation (annotations self))
       (data self) (hand_miss self) (one_miss self) (multi_device self).

Definition add_data (self : IP) (annotator_name : string) (d : pyval) : IP :=
  mkIP (ip_addr self) (final_annotation self) (annotations self)
       (dict_set annotator_name d (data self))
       (hand_miss self) (one_miss self) (multi_device self).

(** [self += other]. *)
Definition IP_iadd (self other : IP) : IP :=
  mkIP (ip_addr self) (final_annotation self)
       (dict_update (annotations self) (annotations other))
       (dict_update (data self) (data other))
       (hand_miss self ++ hand_miss other)
       (one_miss self ++ one_miss other)
       (multi_device self ++ multi_device other).

(** *** Equality *)

(** What [other] can be in [self == other]. *)
Inductive pyobj : Type :=
| ObjIP (x : IP)
| ObjAddress (a : ip_address)
| ObjValue (v : pyval).

(** [address == other] for an [ipaddress] object on the left: equal
    addresses compare equal; for an [IP] on the right Python falls back
    on the reflected [IP.__eq__]; for anything else both sides answer
    NotImplemented and the result is [False]. *)
Definition address_eq (a : ip_address) (other : pyobj) : bool :=
  match other with
  | ObjAddress b => bool_decide (a = b)
  | ObjIP x => bool_decide (ip_addr x = a)
  | ObjValue _ => false
  end.

Definition IP_eq (self : IP) (other : pyobj) : bool :=
  match other with
  | ObjIP o => bool_decide (ip_addr self = ip_addr o)
  | _ => address_eq (ip_addr self) other
  end.

(** *** Export and load *)

(** The dict of [IP.export]; a field is [None] when the key is missing. *)
Record IP_dict : Type := mkIP_dict {
  d_ip_addr : option string;
  d_final_annotation : option (gmap string pyval);
  d_annotations : option (list (string * gmap string pyval));
  d_data : option (list (string * pyval));
  d_hand_miss : option (list (string * string * option string));
  d_one_miss : option (list (list (string * nat)));
  d_multi_device : option (list (string * multi_device_payload))
}.

(** The attribute [multi_device] of a loaded object: the list stored
    under the key, or, when the key is missing, the default of
    [data.get("multi_device", {})], an empty dict, which has neither
    [append] nor [extend]. *)
Inductive multi_device_attr : Type :=
| MultiDeviceList (entries : list (string * multi_device_payload))
| MultiDeviceEmptyDict.

(** The object [IP.load] returns, attribute by attribute. *)
Record loaded_IP : Type := mkLoadedIP {
  l_ip_addr : ip_address;
  l_final_annotation : Annotation;
  l_annotations : list (string * Annotation);
  l_data : list (string * pyval);
  l_hand_miss : list (string * string * option string);
  l_one_miss : list (list (string * nat));
  l_multi_device : multi_device_attr
}.

(** An entry seen as a loaded object, and a loaded object seen as an
    entry, which it is when its [multi_device] is a list. *)
Definition loaded_of (e : IP) : loaded_IP :=
  mkLoadedIP (ip_addr e) (final_annotation e) (annotations e) (data e)
             (hand_miss e) (one_miss e) (MultiDeviceList (multi_device e)).

Definition as_IP (l : loaded_IP) : option IP :=
  match l_multi_device l with
  | MultiDeviceList entries =>
      Some (mkIP (l_ip_addr l) (l_final_annotation l) (l_annotations l) (l_data l)
                 (l_hand_miss l) (l_one_miss l) entries)
  | MultiDeviceEmptyDict => None
  end.

Section WithIpaddress.

(** The standard [ipaddress] module: [str(address)], and
    [ipaddress.ip_address(text)], which raises ValueError ([None]) on
    text that is no address. *)
Variable ip_str : ip_address -> string.
Variable ip_parse : string -> option ip_address.

(** [IP(ip_addr)]; [None] stands for the exception. *)
Definition IP_init (text : string) : option IP :=
  a ← ip_parse text;
  Some (mkIP a (Annotation_init PNone PNone PNone PNone PNone) [] [] [] [] []).

Definition IP_export (self : IP) : IP_dict :=
  mkIP_dict (Some (ip_str (ip_addr self)))
            (Some (Annotation_export (final_annotation self)))
            (Some (prod_map id Annotation_export <$> annotations self))
            (Some (data self))
            (Some (hand_miss self))
            (Some (one_miss self))
            (Some (multi_device self)).

(** [IP.load]; [None] stands for KeyError or ValueError. A missing
    "annotations" or "data" key gives an empty dict and a missing
    "hand_miss" or "one_miss" key an empty list, as the attribute holds
    elsewhere; a missing "multi_device" key gives an empty dict too, where
    the attribute is a list elsewhere. *)
Definition IP_load (d : IP_dict) : option loaded_IP :=
  text ← d_ip_addr d;
  loaded_ip ← IP_init text;
  final ← d_final_annotation d;
  Some (mkLoadedIP (ip_addr loaded_ip)
                   (Annotation_load final)
                   (prod_map id Annotation_load <$> default [] (d_annotations d))
                   (default [] (d_data d))
                   (default [] (d_hand_miss d))
                   (default [] (d_one_miss d))
                   (match d_multi_device d with
                    | Some entries => MultiDeviceList entries
                    | None => MultiDeviceEmptyDict
                    end)).

End WithIpaddress.

(** ** daf.py: the annotator loop of [process_in_memory] *)

(** What a call [module.annotate(ip_addresses, config, flows_ip_dict)]
    does to the shared list of IPs: it returns; it raises an [Exception];
    it raises [SystemExit], as [sys.exit] does in the loaders of the
    useragent annotator, which is a [BaseException] and no [Exception];
    or it performs one atomic update of the list and goes on, depending
    on what it read. The read-only [config] and flows are part of the
    closure. *)
Inductive annotate_run : Type :=
| Return
| Raise (trace : string)
| SysExit (status : Z)
| Atomic (write : list IP -> list IP) (next : list IP -> annotate_run).

(** What leaves a plain call that does not return: an [Exception] with
    its trace, or [SystemExit] with its status. *)
Inductive raised : Type :=
| AnException (trace : string)
| ASystemExit (status : Z).

Record module : Type := mkModule {
  __name__ : string;
  annotate : annotate_run
}.

(** A plain call, as in the sequential branch: the IPs as the call left
    them and what it raised, if anything. *)
Fixpoint call_annotate (p : annotate_run) (ip_addresses : list IP)
    : list IP * option raised :=
  match p with
  | Return => (ip_addresses, None)
  | Raise trace => (ip_addresses, Some (AnException trace))
  | SysExit status => (ip_addresses, Some (ASystemExit status))
  | Atomic write next => call_annotate (next ip_addresses) (write ip_addresses)
  end.

(** [for module in annotators: module.annotate(...)] without threads:
    whatever a call raises leaves the loop at once. *)
Fixpoint run_sequential (annotators : list module) (ip_addresses : list IP)
    : list IP * option raised :=
  match annotators with
  | [] => (ip_addresses, None)
  | m :: rest =>
      match call_annotate (annotate m) ip_addresses with
      | (ip_addresses, None) => run_sequential rest ip_addresses
      | (ip_addresses, Some exn) => (ip_addresses, Some exn)
      end
  end.

(** A thread running [start_thread]: still inside [module.annotate], or
    over, with the trace its [except Exception] clause caught, if it
    caught one. *)
Inductive thread_state : Type :=
| Running (p : annotate_run)
| Exited (caught : option string).

Record pool : Type := mkPool {
  threads : list (string * thread_state);
  thread_errors : list (string * string);
  ip_addresses : list IP
}.

(** Thread [i] is scheduled for one step. At [Raise] the clause
    [except Exception] of [start_thread] appends to [thread_errors];
    [SystemExit] is no [Exception] and passes the clause: the thread is
    over, nothing is appended, and the threading module lets a thread end
    on [SystemExit] without a word. No step touches another thread.
    Scheduling a thread that is over does nothing. *)
Definition thread_step (st : pool) (i : nat) : pool :=
  match threads st !! i with
  | Some (name, Running Return) =>
      mkPool (<[i := (name, Exited None)]> (threads st))
             (thread_errors st) (ip_addresses st)
  | Some (name, Running (Raise trace)) =>
      mkPool (<[i := (name, Exited (Some trace))]> (threads st))
             (thread_errors st ++ [(name, trace)]) (ip_addresses st)
  | Some (name, Running (SysExit status)) =>
      mkPool (<[i := (name, Exited None)]> (threads st))
             (thread_errors st) (ip_addresses st)
  | Some (name, Running (Atomic write next)) =>
      mkPool (<[i := (name, Running (next (ip_addresses st)))]> (threads st))
             (thread_errors st) (write (ip_addresses st))
  | _ => st
  end.

Definition run_schedule (schedule : list nat) (st : pool) : pool :=
  foldl thread_step st schedule.

Definition start_threads (annotators : list module) (ip_addresses : list IP) : pool :=
  mkPool ((fun m => (__name__ m, Running (annotate m))) <$> annotators)
         [] ip_addresses.

Definition is_exited (t : string * thread_state) : bool :=
  match t.2 with
  | Exited _ => true
  | Running _ => false
  end.

(** [for thread in threads: thread.join()] gets through. *)
Definition joined (st : pool) : bool := forallb is_exited (threads st).

Inductive outcome : Type :=
| Fused (ip_addresses : list IP)
    (* fusion ran on every IP; export and statistics follow *)
| ModulesFailed (thread_errors : list (string * string)) (ip_addresses : list IP)
    (* the logged errors, then RuntimeError("Some modules failed. ...") *)
| Propagated (trace : string) (ip_addresses : list IP)
    (* an annotator's own exception leaves [process_in_memory] *)
| SystemExited (status : Z) (ip_addresses : list IP).
    (* [SystemExit] leaves [process_in_memory], and the program ends *)

(** [process_in_memory] from the annotator loop to the fusion loop.
    [use_threads] is [config["daf"]["threads"]]; [schedule] is the order
    in which the threads get to run. [None]: under this schedule some
    thread is not over yet, [join] is still waiting. *)
Definition process_in_memory (use_threads : bool) (schedule : list nat)
    (annotators : list module) (ip_addresses0 : list IP)
    (min_annotators_count : Z) : option outcome :=
  if use_threads then
    let st := run_schedule schedule (start_threads annotators ip_addresses0) in
    if joined st then
      match thread_errors st with
      | [] => Some (Fused ((fun ip => perform_annotation ip min_annotators_count)
                             <$> ip_addresses st))
      | _ :: _ => Some (ModulesFailed (thread_errors st) (ip_addresses st))
      end
    else None
  else
    match run_sequential annotators ip_addresses0 with
    | (ips, Some (AnException trace)) => Some (Propagated trace ips)
    | (ips, Some (ASystemExit status)) => Some (SystemExited status ips)
    | (ips, None) =>
        Some (Fused ((fun ip => perform_annotation ip min_annotators_count) <$> ips))
    end.

End WithTaxonomy.

(** * Notions used in the statements *)

Local Open Scope list_scope.

Implicit Types (tc : Taxonomy_checker) (a r hand : Annotation) (e self : IP).
Implicit Types (f t v g c : option string) (m : Z).

(** The rule as the specification words it: an absent family is valid. *)
Definition spec_check_os tc f t : Prop :=
  f = None
  ∨ ∃ k l, f = Some k ∧ os_tax tc !! k = Some l
           ∧ (t = None ∨ ∃ x, t = Some x ∧ x ∈ l).

(** The rule the code implements: the family has to be a known key. *)
Definition known_pair (d : gmap string (list string)) (k x : option string) : Prop :=
  ∃ s l, k = Some s ∧ d !! s = Some l ∧ (x = None ∨ ∃ y, x = Some y ∧ y ∈ l).

(** How often [x] occurs in [l], and how many distinct values [l] has. *)
Definition occurrences (x : string) (l : list string) : nat :=
  length (filter (λ y, y = x) l).

Definition distinct (l : list string) : nat := length (remove_dups l).

(** Descending by count. *)
Definition by_count_desc (p q : string * nat) : Prop := (q.2 ≤ p.2)%nat.

(** [self] with more audit entries, nothing else changed. *)
Definition add_audit (self : IP) (om : list (list (string * nat)))
    (md : list (string * multi_device_payload)) : IP :=
  mkIP (ip_addr self) (final_annotation self) (annotations self) (data self)
       (hand_miss self) (one_miss self ++ om) (multi_device self ++ md).

(** The merge reads [self] only to append to its audit lists: its value
    and the entries it appends are those it yields on an entry without
    history. *)
Definition probe : IP := mkIP (IPv4Address 0) blank [] [] [] [] [].

Definition merged_value (tags : list (option string)) (m : Z) : string :=
  (merge_annotation probe tags m true).1.

Definition one_miss_of (tags : list (option string)) (m : Z)
    : list (list (string * nat)) :=
  one_miss (merge_annotation probe tags m true).2.

Definition multi_device_of (tags : list (option string)) (m : Z) (nat_check : bool)
    : list (string * multi_device_payload) :=
  multi_device (merge_annotation probe tags m nat_check).2.

(** The five value lists [fuse] merges. *)
Definition field_tags (proj : Annotation → option string) e : list (option string) :=
  proj <$> dict_values (annotations e).

(** The escalation case in the words of the specification: more than two
    distinct values, or a majority below the threshold. *)
Definition escalation (l : list string) (m : Z) : Prop :=
  (2 < distinct l)%nat
  ∨ (l ≠ [] ∧ ∀ x, x ∈ l → (Z.of_nat (occurrences x l) < m)%Z).

(** What the specification promises there for a field with the NAT check
    on: an absent result and one [multi_device] entry. *)
Definition spec_escalation_flagged self (tags : list (option string)) m : Prop :=
  merge_annotation self tags m true
  = ("", add_audit self []
           [("IP:merge_annotation_fail", MergeTags (drop_absent tags))]).

(** The hand value is present and differs from the value in the record. *)
Definition overrides (hand final : Annotation) (attr_name : string) : bool :=
  truthy (getattr hand attr_name)
  && negb (bool_decide (getattr hand attr_name = getattr final attr_name)).

(** One field after the override, and the [hand_miss] entry it costs. *)
Definition pick (h x : option string) : option string :=
  if truthy h && negb (bool_decide (h = x)) then h else x.

Definition miss (attr_name : string) (h x : option string)
    : list (string * string * option string) :=
  if truthy h && negb (bool_decide (h = x)) then [(attr_name, default "" h, x)] else [].

(** The [hand_miss] entries for one attribute. *)
Definition entries_for (attr_name : string)
    (l : list (string * string * option string)) :=
  filter (λ en, en.1.1 = attr_name) l.

(** The value list of a field without the hand candidate, as the
    specification describes the vote. *)
Definition non_hand_tags (proj : Annotation → option string) e
    : list (option string) :=
  proj <$> dict_values (filter (λ kv, kv.1 ≠ "hand_annotator") (annotations e)).

(** No field is the empty string, so a field is present exactly when it
    is not [None]. *)
Definition normalized r : Prop :=
  group r ≠ Some "" ∧ _class r ≠ Some "" ∧ os_family r ≠ Some ""
  ∧ os_type r ≠ Some "" ∧ os_version r ≠ Some "".

Definition dependency_invariant r : Prop :=
  (is_Some (_class r) → is_Some (group r))
  ∧ (is_Some (os_type r) ∨ is_Some (os_version r) → is_Some (os_family r)).

Definition well_formed r : Prop := normalized r ∧ dependency_invariant r.

(** A field value that validation leaves as it is: [None], or a
    non-empty lower-case string. *)
Definition canonical (x : option string) : Prop := _validate_label (py_of x) = x.

(** The invariant of a classification record: canonical fields, and each
    half either passes its taxonomy check or is absent altogether. *)
Definition valid_record tc r : Prop :=
  (canonical (group r) ∧ canonical (_class r) ∧ canonical (os_family r)
   ∧ canonical (os_type r) ∧ canonical (os_version r))
  ∧ (check_device tc (group r) (_class r) = true
     ∨ (group r = None ∧ _class r = None))
  ∧ (check_os tc (os_family r) (os_type r) (os_version r) = true
     ∨ (os_family r = None ∧ os_type r = None ∧ os_version r = None)).

Definition valid_entry tc e : Prop :=
  valid_record tc (final_annotation e)
  ∧ Forall (λ kv, valid_record tc kv.2) (annotations e).

(** A hand key field and the key field of the final record do not
    contradict each other. *)
Definition key_compatible (hk pk : option string) : Prop :=
  hk = None ∨ pk = None ∨ pk = hk.

(** A valid entry whose final record does not contradict the hand
    candidate on group or os_family: what fusion establishes and keeps. *)
Definition coherent tc e : Prop :=
  valid_entry tc e
  ∧ ∀ hand, dict_lookup "hand_annotator" (annotations e) = Some hand →
      key_compatible (group hand) (group (final_annotation e))
      ∧ key_compatible (os_family hand) (os_family (final_annotation e)).

(** The errors the threads of a pool caught, in thread order. *)
Definition caught (ts : list (string * thread_state)) : list (string * string) :=
  omap (λ th, match th.2 with
              | Exited (Some trace) => Some (th.1, trace)
              | _ => None
              end) ts.





(** * More of the pipeline *)

(** ** taxonomy_checker.py: the full check *)

(** [Taxonomy_checker.check_annotation]; unpacking [ret_annotation] into
    five names raises on any other number of values. *)
Definition check_annotation tc (annotation : Annotation) : bool :=
  match ret_annotation annotation with
  | [group; _class; os_family; os_type; os_version] =>
      if check_os tc os_family os_type os_version && check_device tc group _class
      then true
      else false
  | _ => false
  end.

(** ** The annotators' [get_most_common] (sni_annotator.py,
    useragent_annotator.py) *)

(** [None] on the empty list, else [Counter(lst).most_common()[0][0]]. *)
Definition get_most_common (lst : list string) : option string :=
  if (length lst =? 0)%nat then None
  else Some (first_entry (most_common (Counter lst))).1.

(** ** stats.py *)

Definition count_annotator_hits (ip : IP) (count : list (string * nat))
    : list (string * nat) :=
  foldl (λ count kv,
           if is_empty kv.2 then count
           else dict_set kv.1 (default 0%nat (dict_lookup kv.1 count) + 1)%nat count)
        count (annotations ip).

(** The counters and lists of [print_annotation_stats]. *)
Record annotation_stats : Type := mkStats {
  total_one_miss : nat;
  total_hand_miss : nat;
  no_annotation : nat;
  failed_annotation : nat;
  success_annotation : nat;
  multi_device_count : nat;        (* the local variable [multi_device] *)
  annotators_dict : list (string * nat);
  one_miss_list : list (string * list (list (string * nat)));
  hand_miss_list : list (string * list (string * string * option string));
  multi_device_list : list (string * list (string * multi_device_payload))
}.

(** One turn of [for ip in ip_addresses] in [print_annotation_stats];
    [ip_str] is [str] on addresses. *)
Definition stats_step (ip_str : ip_address → string) (st : annotation_stats)
    (ip : IP) : annotation_stats :=
  let miss1 := (0 <? length (one_miss ip))%nat in
  let missh := (0 <? length (hand_miss ip))%nat in
  let success := negb (is_empty (final_annotation ip)) in
  let nothing := negb success && (length (annotations ip) =? 0)%nat in
  let failed := negb success && negb (length (annotations ip) =? 0)%nat in
  let nat_suspect := (0 <? length (multi_device ip))%nat in
  mkStats
    (if miss1 then total_one_miss st + 1 else total_one_miss st)%nat
    (if missh then total_hand_miss st + 1 else total_hand_miss st)%nat
    (if nothing then no_annotation st + 1 else no_annotation st)%nat
    (if failed then failed_annotation st + 1 else failed_annotation st)%nat
    (if success then success_annotation st + 1 else success_annotation st)%nat
    (if nat_suspect then multi_device_count st + 1 else multi_device_count st)%nat
    (count_annotator_hits ip (annotators_dict st))
    (if miss1 then one_miss_list st ++ [(ip_str (ip_addr ip), one_miss ip)]
     else one_miss_list st)
    (if missh then hand_miss_list st ++ [(ip_str (ip_addr ip), hand_miss ip)]
     else hand_miss_list st)
    (if nat_suspect
     then multi_device_list st ++ [(ip_str (ip_addr ip), multi_device ip)]
     else multi_device_list st).

(** The counting loop of [print_annotation_stats], from the zeroed
    counters and the [annotators_dict] built from the configuration. *)
Definition annotation_stats_of (ip_str : ip_address → string)
    (annotators_dict0 : list (string * nat)) (ip_addresses : list IP)
    : annotation_stats :=
  foldl (stats_step ip_str)
        (mkStats 0 0 0 0 0 0 annotators_dict0 [] [] []) ip_addresses.

(** How many non-empty candidates an entry holds under the name [k]. *)
Definition hits (k : string) (ip : IP) : nat :=
  length (filter (λ kv, kv.1 = k ∧ is_empty kv.2 = false) (annotations ip)).

(** ** annotators/hand_annotator/hand_annotator.py *)

(** The value [load_annotation] stores per rule: [(row[1], ..., row[5])]. *)
Definition rule_labels : Type := string * string * string * string * string.

(** The record [annotate] builds from a rule: [Annotation] called on the
    five labels, unpacked. *)
Definition Annotation_of_labels tc (labels : rule_labels) : Annotation :=
  match labels with
  | (group, _class, os_family, os_type, os_version) =>
      Annotation_init tc (PStr group) (PStr _class) (PStr os_family)
                      (PStr os_type) (PStr os_version)
  end.

(** [text in device_hand_annotation] for a [str] probe: the keys of the
    dict are the [ipaddress] objects [load_annotation] built, and a key
    counts when it compares equal to the probe. *)
Definition str_in_address_keys (text : string)
    (device_hand_annotation : list (ip_address * rule_labels)) : bool :=
  existsb (λ kv, address_eq kv.1 (ObjValue (PStr text))) device_hand_annotation.

(** [device_hand_annotation[address]]; [None] stands for KeyError. *)
Fixpoint address_lookup (addr : ip_address)
    (device_hand_annotation : list (ip_address * rule_labels)) : option rule_labels :=
  match device_hand_annotation with
  | [] => None
  | (k, labels) :: rest =>
      if decide (addr = k) then Some labels else address_lookup addr rest
  end.

Section HandAnnotator.

(** [ipaddress] networks: the objects [ipaddress.ip_network] returns and
    the test [address in network]. *)
Variable ip_network_t : Type.
Variable in_network : ip_address → ip_network_t → bool.
Variable ip_str : ip_address → string.

(** The body of [for cnt_ip, ip in enumerate(ip_addresses, start=1)] in
    [annotate], without the progress log; [None] stands for KeyError. *)
Definition hand_annotate_ip tc
    (device_hand_annotation : list (ip_address * rule_labels))
    (network_hand_annotation : list (ip_network_t * rule_labels))
    (ip : IP) : option IP :=
  if str_in_address_keys (ip_str (ip_addr ip)) device_hand_annotation then
    labels ← address_lookup (ip_addr ip) device_hand_annotation;
    Some (add_annotation ip "hand_annotator" (Annotation_of_labels tc labels))
  else
    Some (match find (λ kv, in_network (ip_addr ip) kv.1) network_hand_annotation with
          | Some (_, labels) =>
              add_annotation ip "hand_annotator" (Annotation_of_labels tc labels)
          | None => ip
          end).

(** The annotation loop of [annotate] over the loaded rule tables. *)
Definition hand_annotate tc
    (device_hand_annotation : list (ip_address * rule_labels))
    (network_hand_annotation : list (ip_network_t * rule_labels))
    (ip_addresses : list IP) : option (list IP) :=
  mapM (hand_annotate_ip tc device_hand_annotation network_hand_annotation)
       ip_addresses.

End HandAnnotator.

(** ** ip_ranges.py *)

(** [Series.unique()]: the values in the order of their first occurrence. *)
Definition unique (values : list string) : list string :=
  foldl (λ seen x, if decide (x ∈ seen) then seen else seen ++ [x]) [] values.

Section IpRanges.

(** [ipaddress.ip_network(text)], raising ValueError ([None]) on text that
    is no network, and [address in network]. *)
Variable ip_network_t : Type.
Variable ip_network : string → option ip_network_t.
Variable in_network : ip_address → ip_network_t → bool.
Variable ip_parse : string → option ip_address.

(** One row of the ranges file in [load_ip_ranges], the two lists being
    [(protected_networks, protected_ip_addrs)]; [None] stands for
    IndexError on a short row or ValueError from [ip_network]. *)
Definition load_ip_ranges_row (acc : list ip_network_t * list string)
    (row : list string) : option (list ip_network_t * list string) :=
  row0 ← row !! 0%nat;
  if decide (row0 = "ip") then Some acc
  else
    row1 ← row !! 1%nat;
    if decide (row1 = "addr") then Some (acc.1, acc.2 ++ [row0])
    else if decide (row1 = "network") then
      net ← ip_network row0; Some (acc.1 ++ [net], acc.2)
    else Some acc.

(** What [config["daf"]["ip_ranges"]] names: the word ALL, or a file,
    given by the rows [csv.reader] yields. *)
Inductive ip_ranges_source : Type :=
| ALL
| RangesFile (rows : list (list string)).

(** [load_ip_ranges] on an existing file; the inner [None] is the pair
    [(None, None)] returned for ALL. *)
Definition load_ip_ranges (filename : ip_ranges_source)
    : option (option (list ip_network_t * list string)) :=
  match filename with
  | ALL => Some None
  | RangesFile rows =>
      acc ← foldl (λ acc row, acc ≫= λ acc, load_ip_ranges_row acc row)
                  (Some ([], [])) rows;
      Some (Some acc)
  end.

(** The body of [for ip in ips] in [select_protected_ips]; [None] stands
    for ValueError. *)
Definition select_step tc (ranges : option (list ip_network_t * list string))
    (ip_addresses : list IP) (ip : string) : option (list IP) :=
  match ranges with
  | None => new ← IP_init tc ip_parse ip; Some (ip_addresses ++ [new])
  | Some (protected_networks, protected_ip_addrs) =>
      ip_addresses ← (if decide (ip ∈ protected_ip_addrs)
                      then new ← IP_init tc ip_parse ip; Some (ip_addresses ++ [new])
                      else Some ip_addresses);
      ip_addr ← ip_parse ip;
      if existsb (in_network ip_addr) protected_networks
      then new ← IP_init tc ip_parse ip; Some (ip_addresses ++ [new])
      else Some ip_addresses
  end.

(** [select_protected_ips]: [flows] maps a column name to the column's
    values, [src_ip_field] and [dst_ip_field] are the two entries of
    [config["daf"]]; [None] stands for KeyError or ValueError. *)
Definition select_protected_ips tc (src_ip_field : string)
    (dst_ip_field : option string) (ip_ranges : ip_ranges_source)
    (flows : list (string * list string)) : option (list IP) :=
  src ← dict_lookup src_ip_field flows;
  dst ← match dst_ip_field with
        | None => Some []
        | Some field => unique <$> dict_lookup field flows
        end;
  let ips := unique src ++ dst in
  ranges ← load_ip_ranges ip_ranges;
  foldl (λ acc ip, acc ≫= λ acc, select_step tc ranges acc ip) (Some []) ips.

End IpRanges.

(** The entry [IP(text)] builds for an address. *)
Definition fresh_IP tc (addr : ip_address) : IP :=
  mkIP addr (Annotation_init tc PNone PNone PNone PNone PNone) [] [] [] [] [].

(** How often the ranges select an address: once under ALL; else once for
    being listed and once for lying in a listed network. *)
Definition selected_times {N : Type} (in_network : ip_address → N → bool)
    (ranges : option (list N * list string)) (ip : string) (addr : ip_address) : nat :=
  match ranges with
  | None => 1
  | Some (protected_networks, protected_ip_addrs) =>
      (if decide (ip ∈ protected_ip_addrs) then 1 else 0)
      + (if existsb (in_network addr) protected_networks then 1 else 0)
  end.

(** The rows of a ranges file that list an address, and those that list a
    network. *)
Definition addr_rows (rows : list (list string)) : list string :=
  omap (λ row, match row with
               | row0 :: row1 :: _ =>
                   if decide (row0 ≠ "ip" ∧ row1 = "addr") then Some row0 else None
               | _ => None
               end) rows.

Definition network_rows (rows : list (list string)) : list string :=
  omap (λ row, match row with
               | row0 :: row1 :: _ =>
                   if decide (row0 ≠ "ip" ∧ row1 = "network") then Some row0 else None
               | _ => None
               end) rows.

(** ** daf.py: the search for unseen addresses in [process_reannotation] *)

(** [address in ip_addresses] for a list of [IP] objects: some element
    compares equal to the address. *)
Definition address_in (addr : ip_address) (ip_addresses : list IP) : bool :=
  existsb (λ x, address_eq addr (ObjIP x)) ip_addresses.

Section Reannotation.

(** [ipaddress.ip_address] on text, and [str(x)] for an [IP] object [x]:
    [IP] defines neither [__str__] nor [__repr__]. *)
Variable ip_parse : string → option ip_address.
Variable IP_str : IP → string.

(** [IP(x)] called with an [IP] object: [ipaddress.ip_address] reads the
    text [str(x)] of an argument that is neither an integer nor bytes. *)
Definition IP_init_of_object tc (x : IP) : option IP :=
  IP_init tc ip_parse (IP_str x).

(** The body of [for ip in ip_addresses_dataset]; the state is [new_ips],
    [None] at first, and the outer [None] stands for ValueError. *)
Definition new_ips_step tc (ip_addresses_loaded : list IP)
    (new_ips : option (list IP)) (ip : IP) : option (option (list IP)) :=
  if negb (address_in (ip_addr ip) ip_addresses_loaded) then
    new ← IP_init_of_object tc ip;
    Some (Some (default [] new_ips ++ [new]))
  else Some new_ips.

(** [new_ips] after the search; [ip_addresses_dataset] is [None] when
    [arg.dataset] is. *)
Definition find_new_ips tc (ip_addresses_loaded : list IP)
    (ip_addresses_dataset : option (list IP)) : option (option (list IP)) :=
  match ip_addresses_dataset with
  | None => Some None
  | Some dataset =>
      foldl (λ acc ip, acc ≫= λ new_ips, new_ips_step tc ip_addresses_loaded new_ips ip)
            (Some None) dataset
  end.

End Reannotation.

(** ** output.py *)

(** What the tests [value["enabled"] is False] of the export and
    [value["enabled"] is True] of the statistics can tell about a
    configured value. *)
Inductive enabled_flag : Type :=
| EnabledTrue
| EnabledFalse
| EnabledOther.

Definition is_False (x : enabled_flag) : bool :=
  match x with
  | EnabledFalse => true
  | _ => false
  end.

Definition is_True (x : enabled_flag) : bool :=
  match x with
  | EnabledTrue => true
  | _ => false
  end.

(** An entry of [sni_annotator]'s [fields]: a string or a list. *)
Inductive sni_field : Type :=
| FieldStr (x : string)
| FieldList (x : list string).

(** A section of the configuration, as far as the export reads it. *)
Record annotator_config : Type := mkAnnotatorConfig {
  enabled : enabled_flag;
  fields : list sni_field
}.

(** [s.split(' ')[-1]]: what follows the last space; [cur] is the piece
    read so far. *)
Fixpoint last_piece_from (cur s : string) : string :=
  match s with
  | EmptyString => cur
  | String ch rest =>
      if decide (ch = " "%char) then last_piece_from "" rest
      else last_piece_from (cur +:+ String ch "") rest
  end.

Definition last_piece (s : string) : string := last_piece_from "" s.

(** The column name of an sni field; [None] stands for IndexError on an
    empty list. *)
Definition sni_column (x : sni_field) : option string :=
  match x with
  | FieldList l => x0 ← l !! 0%nat; Some ("sni_annotator_" +:+ last_piece x0)
  | FieldStr s => Some ("sni_annotator_" +:+ last_piece s)
  end.

(** The list [tmp] of [export_ip_annotation_list]; [config] holds the
    sections in the order of [config.items()]. *)
Definition export_columns (export_full_annotation : bool)
    (config : list (string * annotator_config)) : option (list string) :=
  if export_full_annotation then
    foldl (λ acc kv,
             acc ≫= λ tmp,
               if decide (kv.1 = "daf") then Some tmp
               else if is_False (enabled kv.2) then Some tmp
               else if decide (kv.1 = "sni_annotator") then
                 columns ← mapM sni_column (fields kv.2); Some (tmp ++ columns)
               else Some (tmp ++ [kv.1]))
          (Some ["final_annotation"]) config
  else Some ["final_annotation"].

Definition export_header (tmp : list string) : list string :=
  foldl (λ header x,
           header ++ [x +:+ "_group"; x +:+ "_class"; x +:+ "_os_family";
                      x +:+ "_os_type"; x +:+ "_os_version"])
        ["ip_address"; "possible_NAT"] tmp.

(** A cell handed to [csv.writer]. *)
Inductive csv_cell : Type :=
| CellStr (s : string)
| CellBool (b : bool)
| CellNone.

Definition label_cell (label : option string) : csv_cell :=
  match label with
  | Some s => CellStr s
  | None => CellNone
  end.

(** The row written for one IP. *)
Definition export_row (ip_str : ip_address → string) (export_full_annotation : bool)
    (tmp : list string) (ip : IP) : list csv_cell :=
  let nat := (0 <? length (multi_device ip))%nat in
  let row := [CellStr (ip_str (ip_addr ip))] ++ [CellBool nat]
             ++ (label_cell <$> ret_annotation (final_annotation ip)) in
  if export_full_annotation then
    foldl (λ row annotator,
             if decide (annotator = "final_annotation") then row
             else match dict_lookup annotator (annotations ip) with
                  | Some candidate => row ++ (label_cell <$> ret_annotation candidate)
                  | None => row ++ [CellNone; CellNone; CellNone; CellNone; CellNone]
                  end)
          row tmp
  else row.

(** [annotation_map] of [annotate_dataset]: the five labels of the final
    record under [str(ip.ip_addr)]. *)
Definition annotation_map (ip_str : ip_address → string) (ip_addresses : list IP)
    : list (string * gmap string (option string)) :=
  foldl (λ annotation_map ip,
           match ret_annotation (final_annotation ip) with
           | [group; _class; os_family; os_type; os_version] =>
               dict_set (ip_str (ip_addr ip))
                        ({["group" := group; "_class" := _class;
                           "os_family" := os_family; "os_type" := os_type;
                           "os_version" := os_version]} : gmap string (option string))
                        annotation_map
           | _ => annotation_map
           end)
        [] ip_addresses.

(** [annotation_map.get(ip, {}).get(column)], the value a flow with the
    source [ip] gets in [column]. *)
Definition flow_label (annotation_map : list (string * gmap string (option string)))
    (column ip : string) : option string :=
  default None (default ∅ (dict_lookup ip annotation_map) !! column).

(** ** stats.py: the initial table of annotators *)

(** [annotators_dict] as [print_annotation_stats] builds it from the
    configuration before the counting loop; [None] stands for IndexError. *)
Definition annotators_dict_init (config : list (string * annotator_config))
    : option (list (string * nat)) :=
  foldl (λ acc kv,
           acc ≫= λ annotators_dict,
             if decide (kv.1 = "daf") then Some annotators_dict
             else if is_True (enabled kv.2) then
               if decide (kv.1 = "sni_annotator") then
                 foldl (λ acc x,
                          acc ≫= λ annotators_dict,
                            column ← sni_column x;
                            Some (dict_set column 0%nat annotators_dict))
                       (Some annotators_dict) (fields kv.2)
               else Some (dict_set kv.1 0%nat annotators_dict)
             else Some annotators_dict)
        (Some []) config.

(** ** detectors/nat_detector/nat_detector.py *)

(** A numeric column of the flows of one address; [None] is NaN. *)
Definition series : Type := list (option Z).

(** [s[s != 0]]: NaN differs from 0 and stays. *)
Definition nonzero (s : series) : series := filter (λ x, x ≠ Some 0%Z) s.

(** [s.value_counts()]: every value other than NaN with the number of its
    occurrences (pandas lists them by falling count; the detector reads
    the counts only). *)
Definition value_counts (s : series) : list (Z * nat) :=
  (λ x, (x, length (filter (λ y, y = Some x) s))) <$> remove_dups (omap id s).

(** [s.nunique()]: the number of distinct values other than NaN. *)
Definition nunique (s : series) : nat := length (remove_dups (omap id s)).

(** [nunique] of a table of counts: the number of distinct counts. *)
Definition nunique_counts (counts : list (Z * nat)) : nat :=
  length (remove_dups counts.*2).

(** Whether [annotate] appends a NAT_detector entry to [ip.multi_device],
    given the two columns of the address's flows. *)
Definition nat_suspected (ttl src_port : series) : bool :=
  let ttl_values := nonzero ttl in
  let src_ports := nonzero src_port in
  let ttl_counts := value_counts ttl_values in
  let unique_ttl_values := nunique_counts ttl_counts in
  let unique_src_ports := nunique src_ports in
  if (unique_ttl_values <? 5)%nat then false
  else if (unique_src_ports <? 500)%nat then false
  else true.

(** ** The counts of a table *)

(** The counts of the table [most_common (Counter l)], in its order. *)
Definition counts (l : list string) : list nat := (most_common (Counter l)).*2.

(** * Properties *)

(** ** Taxonomy validator *)

Lemma key_entry_known d k x :
  key_in k d && (is_None_b x || in_entry x k d) = true ↔ known_pair d k x.
Proof.
  unfold known_pair. split.
  - intros H. apply andb_true_iff in H as [Hk Hx].
    destruct k as [s|]; [|discriminate]. simpl in Hk.
    apply bool_decide_eq_true in Hk as [l Hl].
    exists s, l. split_and!; [done..|].
    destruct x as [y|]; [right|by left]. simpl in Hx.
    apply bool_decide_eq_true in Hx. rewrite Hl in Hx. eauto.
  - intros (s & l & -> & Hl & Hx). apply andb_true_iff. split.
    + simpl. apply bool_decide_eq_true. eauto.
    + destruct Hx as [->|(y & -> & Hy)]; [done|]. simpl.
      apply bool_decide_eq_true. by rewrite Hl.
Qed.

Lemma check_os_known tc f t v :
  check_os tc f t v = true ↔ known_pair (os_tax tc) f t.
Proof.
  rewrite <- key_entry_known. unfold check_os.
  destruct (key_in f (os_tax tc) && _); intuition congruence.
Qed.

Lemma check_device_known tc g c :
  check_device tc g c = true ↔ known_pair (dev_tax tc) g c.
Proof.
  rewrite <- key_entry_known. unfold check_device.
  destruct (key_in g (dev_tax tc) && _); intuition congruence.
Qed.

Lemma known_pair_present d k x : known_pair d k x → is_Some k.
Proof. intros (s & l & -> & _). eauto. Qed.

(** C3, the claim as stated fails: with an absent family [check_os]
    answers false, whatever the taxonomy. *)
Lemma check_os_absent_family_rejected :
  ¬ (check_os {| os_tax := ∅; dev_tax := ∅ |} None None None = true
     ↔ spec_check_os {| os_tax := ∅; dev_tax := ∅ |} None None).
Proof.
  intros [_ H]. assert (Hs : spec_check_os {| os_tax := ∅; dev_tax := ∅ |} None None)
    by (by left).
  apply H in Hs. discriminate.
Qed.

(** C3, amended: [check_os] is true exactly when the family is a known
    key of the OS taxonomy and the type is absent or listed under that
    key; an absent family is rejected; the version never matters; and
    [check_device] follows the same rule on group and class. *)
Theorem check_os_check_device_rule tc f t v g c :
  (check_os tc f t v = true
   ↔ ∃ k l, f = Some k ∧ os_tax tc !! k = Some l
            ∧ (t = None ∨ ∃ x, t = Some x ∧ x ∈ l))
  ∧ check_os tc None t v = false
  ∧ (∀ v', check_os tc f t v' = check_os tc f t v)
  ∧ (check_device tc g c = true
     ↔ ∃ k l, g = Some k ∧ dev_tax tc !! k = Some l
              ∧ (c = None ∨ ∃ x, c = Some x ∧ x ∈ l))
  ∧ check_device tc None c = false.
Proof.
  split_and!.
  - apply check_os_known.
  - done.
  - done.
  - apply check_device_known.
  - done.
Qed.

(** ** Equality of ledger entries *)

(** C10: two entries are equal exactly when their addresses are, whatever
    else they hold; against a value that is no entry the answer is that of
    comparing the address with the value. *)
Theorem IP_eq_only_address self :
  (∀ other : IP, IP_eq self (ObjIP other) = true ↔ ip_addr self = ip_addr other)
  ∧ (∀ final cands dat hm om md,
       IP_eq self (ObjIP (mkIP (ip_addr self) final cands dat hm om md)) = true)
  ∧ (∀ b : ip_address,
       IP_eq self (ObjAddress b) = address_eq (ip_addr self) (ObjAddress b)
       ∧ (IP_eq self (ObjAddress b) = true ↔ ip_addr self = b))
  ∧ (∀ x : pyval,
       IP_eq self (ObjValue x) = address_eq (ip_addr self) (ObjValue x)
       ∧ IP_eq self (ObjValue x) = false).
Proof.
  split_and!.
  - intros other. simpl. apply bool_decide_eq_true.
  - intros. simpl. by apply bool_decide_eq_true.
  - intros b. split; [done|]. simpl. apply bool_decide_eq_true.
  - intros x. done.
Qed.

(** ** Counting: [Counter] and [most_common] *)

Lemma occurrences_snoc x y l :
  occurrences x (l ++ [y])
  = (occurrences x l + if decide (y = x) then 1 else 0)%nat.
Proof.
  unfold occurrences. rewrite filter_app, length_app. f_equal.
  rewrite filter_cons, filter_nil. by case_decide.
Qed.

Lemma occurrences_pos x l : x ∈ l ↔ (0 < occurrences x l)%nat.
Proof.
  unfold occurrences. induction l as [|y l IH].
  - split; [by intros ?%elem_of_nil | simpl; lia].
  - rewrite filter_cons, elem_of_cons. case_decide; simpl; [split; [lia|auto]|].
    rewrite <- IH. split; [intros [?|?]; [congruence|done]|by right].
Qed.

Lemma Counter_snoc l x : Counter (l ++ [x]) = counter_add x (Counter l).
Proof. unfold Counter. by rewrite foldl_snoc. Qed.

Lemma counter_add_lookup x y cnt :
  dict_lookup y (counter_add x cnt)
  = if decide (y = x) then Some (S (default 0%nat (dict_lookup y cnt)))
    else dict_lookup y cnt.
Proof.
  induction cnt as [|[z n] cnt IH]; simpl.
  - repeat case_decide; naive_solver.
  - repeat (case_decide; simpl; subst); try done; try congruence.
Qed.

Lemma counter_add_keys x cnt :
  (counter_add x cnt).*1 = if decide (x ∈ cnt.*1) then cnt.*1 else cnt.*1 ++ [x].
Proof.
  induction cnt as [|[z n] cnt IH]; csimpl.
  - destruct (decide (x ∈ [])) as [H|H]; [by apply elem_of_nil in H|done].
  - destruct (decide (x = z)) as [->|Hne]; csimpl.
    + rewrite decide_True; [done|left].
    + rewrite IH. destruct (decide (x ∈ cnt.*1)) as [Hin|Hin].
      * rewrite decide_True; [done|by right].
      * rewrite decide_False; [done|]. intros [?|?]%elem_of_cons; done.
Qed.

Lemma Counter_lookup l x :
  dict_lookup x (Counter l)
  = if decide (occurrences x l = 0%nat) then None else Some (occurrences x l).
Proof.
  induction l as [|y l IH] using rev_ind; [done|].
  rewrite Counter_snoc, counter_add_lookup, occurrences_snoc, IH.
  repeat case_decide; subst; simpl; try done; try lia; f_equal; lia.
Qed.

Lemma Counter_keys_NoDup l : NoDup (Counter l).*1.
Proof.
  induction l as [|y l IH] using rev_ind; [constructor|].
  rewrite Counter_snoc, counter_add_keys. case_decide; [done|].
  apply NoDup_app. split_and!; [done| |apply NoDup_singleton].
  intros z Hz ->%list_elem_of_singleton. done.
Qed.

Lemma Counter_keys l x : x ∈ (Counter l).*1 ↔ x ∈ l.
Proof.
  induction l as [|y l IH] using rev_ind; [done|].
  rewrite Counter_snoc, counter_add_keys. case_decide; set_solver.
Qed.

Lemma dict_lookup_elem {V : Type} (d : list (string * V)) k x :
  NoDup d.*1 → (k, x) ∈ d ↔ dict_lookup k d = Some x.
Proof.
  induction d as [|[k' x'] d IH]; simpl; intros Hnd.
  - split; [by intros ?%elem_of_nil|done].
  - apply NoDup_cons in Hnd as [Hk Hnd]. rewrite elem_of_cons.
    case_decide; subst.
    + split; [|naive_solver]. intros [[= ->]|Hin]; [done|].
      exfalso. apply Hk. apply (list_elem_of_fmap_2 fst) in Hin. done.
    + rewrite <- IH by done. naive_solver.
Qed.

(** The table of [Counter]: one entry per distinct value, with the number
    of its occurrences. *)
Lemma Counter_entries l x n :
  (x, n) ∈ Counter l ↔ x ∈ l ∧ n = occurrences x l.
Proof.
  rewrite dict_lookup_elem by apply Counter_keys_NoDup.
  rewrite Counter_lookup, occurrences_pos. case_decide; naive_solver lia.
Qed.

Lemma Counter_length l : length (Counter l) = distinct l.
Proof.
  unfold distinct. rewrite <- (length_fmap fst). apply Permutation_length.
  apply NoDup_Permutation; [apply Counter_keys_NoDup|apply NoDup_remove_dups|].
  intros x. by rewrite Counter_keys, elem_of_remove_dups.
Qed.

Lemma insert_by_count_perm p l : insert_by_count p l ≡ₚ p :: l.
Proof.
  induction l as [|q l IH]; simpl; [done|].
  case_match; [|done]. rewrite IH. apply Permutation_swap.
Qed.

Lemma most_common_perm cnt : most_common cnt ≡ₚ cnt.
Proof.
  induction cnt as [|p cnt IH]; simpl; [done|].
  by rewrite insert_by_count_perm, IH.
Qed.

Lemma insert_by_count_sorted p l :
  StronglySorted by_count_desc l → StronglySorted by_count_desc (insert_by_count p l).
Proof.
  induction l as [|q l IH]; simpl; intros Hs.
  - repeat constructor.
  - apply StronglySorted_inv in Hs as [Hs Hq].
    destruct (p.2 <? q.2)%nat eqn:Hlt.
    + apply Nat.ltb_lt in Hlt. constructor; [auto|].
      apply Forall_forall. intros z Hz.
      apply (elem_of_Permutation_proper _ _ _ (insert_by_count_perm p l)) in Hz.
      apply elem_of_cons in Hz as [->|Hz]; [unfold by_count_desc; lia|].
      by apply (proj1 (Forall_forall _ _) Hq).
    + apply Nat.ltb_ge in Hlt. constructor; [by constructor|].
      constructor; [done|].
      eapply Forall_impl; [exact Hq|]. unfold by_count_desc. intros; simpl in *; lia.
Qed.

Lemma most_common_sorted cnt : StronglySorted by_count_desc (most_common cnt).
Proof.
  induction cnt as [|p cnt IH]; simpl; [constructor|].
  by apply insert_by_count_sorted.
Qed.

Lemma most_common_entries l x n :
  (x, n) ∈ most_common (Counter l) ↔ x ∈ l ∧ n = occurrences x l.
Proof. by rewrite most_common_perm, Counter_entries. Qed.

Lemma most_common_length l : length (most_common (Counter l)) = distinct l.
Proof. by rewrite most_common_perm, Counter_length. Qed.

(** ** The per-field merge *)

Lemma add_audit_nil self : add_audit self [] [] = self.
Proof. destruct self. unfold add_audit. simpl. by rewrite !app_nil_r. Qed.

Lemma distinct_nil l : distinct l = 0%nat → l = [].
Proof.
  unfold distinct. intros H%length_zero_iff_nil.
  destruct l as [|x l]; [done|].
  assert (Hx : x ∈ remove_dups (x :: l)) by (apply elem_of_remove_dups; left).
  rewrite H in Hx. by apply elem_of_nil in Hx.
Qed.

Lemma most_common_single l x :
  distinct l = 1%nat → x ∈ l →
  most_common (Counter l) = [(x, occurrences x l)].
Proof.
  intros Hd Hx. pose proof (most_common_length l) as Hlen. rewrite Hd in Hlen.
  assert (Hin : (x, occurrences x l) ∈ most_common (Counter l))
    by (by apply most_common_entries).
  destruct (most_common (Counter l)) as [|p [|q k]]; simplify_eq/=.
  by apply list_elem_of_singleton in Hin as ->.
Qed.

(** With two distinct values the table has the more frequent first. *)
Lemma most_common_pair l x y :
  distinct l = 2%nat → x ∈ l → y ∈ l → x ≠ y →
  (occurrences y l ≤ occurrences x l)%nat →
  ∃ p q, most_common (Counter l) = [p; q]
         ∧ p.2 = occurrences x l ∧ q.2 = occurrences y l
         ∧ [p; q] ≡ₚ [(x, occurrences x l); (y, occurrences y l)]
         ∧ ((occurrences y l < occurrences x l)%nat →
            p = (x, occurrences x l) ∧ q = (y, occurrences y l)).
Proof.
  intros Hd Hx Hy Hne Hle.
  pose proof (most_common_length l) as Hlen. rewrite Hd in Hlen.
  pose proof (most_common_sorted (Counter l)) as Hs.
  assert (Hinx : (x, occurrences x l) ∈ most_common (Counter l))
    by (by apply most_common_entries).
  assert (Hiny : (y, occurrences y l) ∈ most_common (Counter l))
    by (by apply most_common_entries).
  destruct (most_common (Counter l)) as [|p [|q [|? ?]]]; simplify_eq/=.
  exists p, q. split; [done|].
  apply StronglySorted_inv in Hs as [_ Hpq]. apply Forall_cons in Hpq as [Hpq _].
  unfold by_count_desc in Hpq.
  apply elem_of_cons in Hinx as [Hinx|Hinx%list_elem_of_singleton];
    apply elem_of_cons in Hiny as [Hiny|Hiny%list_elem_of_singleton];
    subst; simpl in *; try congruence.
  - split_and!; [done..|]. done.
  - split_and!; [lia|lia|apply Permutation_swap|lia].
Qed.

Lemma first_entry_occurs l :
  l ≠ [] →
  ∃ x, x ∈ l ∧ first_entry (most_common (Counter l)) = (x, occurrences x l).
Proof.
  intros Hl. destruct (most_common (Counter l)) as [|[x n] k] eqn:Hc.
  - destruct l as [|y l]; [done|].
    assert (Hin : (y, occurrences y (y :: l)) ∈ most_common (Counter (y :: l)))
      by (apply most_common_entries; split; [left|done]).
    rewrite Hc in Hin. by apply elem_of_nil in Hin.
  - assert (Hin : (x, n) ∈ most_common (Counter l)) by (rewrite Hc; left).
    apply most_common_entries in Hin as [Hx ->]. eauto.
Qed.

(** C4: the three settled cases of the merge. With no value left the
    result is absent and nothing is recorded; with one distinct value that
    reaches the threshold the result is that value and nothing is
    recorded; with two distinct values, the majority reaching the
    threshold and the minority occurring once, the result is absent and
    exactly one [one_miss] entry, the full count table, is appended, as in
    [(A,2),(B,1)] for the values A, A, B at threshold 2. *)
Theorem merge_annotation_settled_cases self tags m nat_check :
  let l := drop_absent tags in
  (distinct l = 0%nat → merge_annotation self tags m nat_check = ("", self))
  ∧ (∀ x, distinct l = 1%nat → x ∈ l → (m ≤ Z.of_nat (occurrences x l))%Z →
       merge_annotation self tags m nat_check = (x, self))
  ∧ (∀ x y, distinct l = 2%nat → x ∈ l → y ∈ l → x ≠ y →
       (m ≤ Z.of_nat (occurrences x l))%Z → occurrences y l = 1%nat →
       ∃ table,
         merge_annotation self tags m nat_check
         = ("", mkIP (ip_addr self) (final_annotation self) (annotations self)
                     (data self) (hand_miss self) (one_miss self ++ [table])
                     (multi_device self))
         ∧ table ≡ₚ [(x, occurrences x l); (y, 1%nat)]
         ∧ ((1 < occurrences x l)%nat → table = [(x, occurrences x l); (y, 1%nat)]))
  ∧ merge_annotation self [Some "A"; Some "A"; Some "B"] 2 nat_check
    = ("", mkIP (ip_addr self) (final_annotation self) (annotations self)
                (data self) (hand_miss self)
                (one_miss self ++ [[("A", 2%nat); ("B", 1%nat)]])
                (multi_device self)).
Proof.
  intros l. split_and!.
  - intros Hd%distinct_nil. unfold merge_annotation. fold l. by rewrite Hd.
  - intros x Hd Hx Hm. unfold merge_annotation. fold l.
    rewrite (most_common_single l x Hd Hx). simpl.
    by rewrite (proj2 (Z.leb_le _ _) Hm).
  - intros x y Hd Hx Hy Hne Hm Hy1.
    assert (Hle : (occurrences y l ≤ occurrences x l)%nat).
    { rewrite Hy1. by apply occurrences_pos. }
    destruct (most_common_pair l x y Hd Hx Hy Hne Hle)
      as (p & q & Hc & Hp & Hq & Hperm & Hstrict).
    exists [p; q]. unfold merge_annotation. fold l. rewrite Hc. simpl.
    unfold first_entry, last_entry. simpl. rewrite Hp, Hq, Hy1.
    rewrite (proj2 (Z.leb_le _ _) Hm). simpl. split_and!; [done| |].
    + by rewrite Hperm, Hy1.
    + intros Hgt. rewrite Hy1 in Hstrict. by destruct (Hstrict Hgt) as [-> ->].
  - done.
Qed.

Lemma merge_annotation_settled_cases_witness :
  merge_annotation (mkIP (IPv4Address 1) blank [] [] [] [] [])
                   [Some "linux"; None; Some "linux"] 2 true
  = ("linux", mkIP (IPv4Address 1) blank [] [] [] [] []).
Proof.
  apply (proj1 (proj2 (merge_annotation_settled_cases
           (mkIP (IPv4Address 1) blank [] [] [] [] [])
           [Some "linux"; None; Some "linux"] 2 true)) "linux").
  - reflexivity.
  - vm_compute. left.
  - vm_compute. discriminate.
Defined.

Lemma merge_annotation_frame self tags m nat_check :
  merge_annotation self tags m nat_check
  = (merged_value tags m,
     add_audit self (one_miss_of tags m) (multi_device_of tags m nat_check)).
Proof.
  unfold merged_value, one_miss_of, multi_device_of, merge_annotation, add_audit.
  destruct self as [ad fin cands dat hm om md]. simpl.
  repeat (case_match; simpl); rewrite ?app_nil_r; try done;
    destruct nat_check; simplify_eq/=.
Qed.

Lemma multi_device_of_unchecked tags m : multi_device_of tags m false = [].
Proof.
  unfold multi_device_of, merge_annotation. simpl. by repeat case_match.
Qed.

Lemma fuse_frame tc e m :
  fuse tc e m
  = with_final
      (add_audit e
         (one_miss_of (field_tags group e) m ++ one_miss_of (field_tags _class e) m
          ++ one_miss_of (field_tags os_family e) m
          ++ one_miss_of (field_tags os_type e) m
          ++ one_miss_of (field_tags os_version e) m)
         (multi_device_of (field_tags group e) m true
          ++ multi_device_of (field_tags os_family e) m true
          ++ multi_device_of (field_tags os_type e) m true))
      (set_annotation tc (final_annotation e)
         (PStr (merged_value (field_tags group e) m))
         (PStr (merged_value (field_tags _class e) m))
         (PStr (merged_value (field_tags os_family e) m))
         (PStr (merged_value (field_tags os_type e) m))
         (PStr (merged_value (field_tags os_version e) m))).
Proof.
  unfold fuse, field_tags.
  rewrite (merge_annotation_frame e). cbv zeta iota beta.
  rewrite (merge_annotation_frame (add_audit e _ _)). cbv zeta iota beta.
  rewrite (merge_annotation_frame (add_audit (add_audit e _ _) _ _)).
  cbv zeta iota beta.
  rewrite (merge_annotation_frame (add_audit (add_audit (add_audit e _ _) _ _) _ _)).
  cbv zeta iota beta.
  rewrite (merge_annotation_frame
             (add_audit (add_audit (add_audit (add_audit e _ _) _ _) _ _) _ _)).
  cbv zeta iota beta.
  rewrite !multi_device_of_unchecked.
  destruct e as [ad fin cands dat hm om md]. unfold with_final, add_audit. simpl.
  by rewrite !app_nil_r, <- !app_assoc.
Qed.

(** C2, the claim as stated fails: a single value seen once, below the
    threshold 2, is an escalation case, yet no [multi_device] entry is
    appended even with the NAT check on. *)
Lemma lone_vote_below_threshold_not_flagged :
  escalation (drop_absent [Some "A"]) 2
  ∧ merge_annotation probe [Some "A"] 2 true = ("", probe)
  ∧ ¬ spec_escalation_flagged probe [Some "A"] 2.
Proof.
  split_and!.
  - right. split; [done|]. intros x ->%list_elem_of_singleton. by vm_compute.
  - reflexivity.
  - unfold spec_escalation_flagged. vm_compute. discriminate.
Qed.

(** C2, amended: in the escalation case the result is absent, no
    [one_miss] entry is written, and one [multi_device] entry tagged with
    the value list is appended exactly when the NAT check is on and more
    than one distinct value remains; [fuse] runs the check for group,
    os_family and os_type and not for class and os_version. *)
Theorem merge_annotation_escalation tc self tags m nat_check :
  escalation (drop_absent tags) m →
  merge_annotation self tags m nat_check
  = ("", add_audit self []
           (if nat_check && (1 <? distinct (drop_absent tags))%nat
            then [("IP:merge_annotation_fail", MergeTags (drop_absent tags))]
            else []))
  ∧ multi_device_of tags m false = []
  ∧ multi_device (fuse tc self m)
    = multi_device self
      ++ multi_device_of (field_tags group self) m true
      ++ multi_device_of (field_tags os_family self) m true
      ++ multi_device_of (field_tags os_type self) m true.
Proof.
  intros Hesc.
  split; [|split; [apply multi_device_of_unchecked|by rewrite fuse_frame]].
  set (l := drop_absent tags) in *.
  assert (Hl : l ≠ []).
  { destruct Hesc as [Hd|[Hl _]]; [|done]. intros ->. vm_compute in Hd. lia. }
  destruct (first_entry_occurs l Hl) as (x & Hx & Hfirst).
  assert (Hlow : (distinct l ≤ 2)%nat → (m <=? Z.of_nat (occurrences x l))%Z = false).
  { intros Hd. apply Z.leb_gt. destruct Hesc as [?|[_ Hall]]; [lia|by apply Hall]. }
  pose proof (most_common_length l) as Hlen.
  unfold merge_annotation. fold l. rewrite Hfirst, Hlen. simpl.
  destruct (distinct l) as [|[|[|n]]] eqn:Hd.
  - exfalso. apply Hl. by apply distinct_nil.
  - simpl. rewrite Hlow by lia. simpl. rewrite andb_false_r.
    by rewrite add_audit_nil.
  - simpl. rewrite Hlow by lia. simpl.
    destruct nat_check; simpl; [|by rewrite add_audit_nil].
    unfold add_audit. by rewrite app_nil_r.
  - simpl. destruct nat_check; simpl; [|by rewrite add_audit_nil].
    unfold add_audit. by rewrite app_nil_r.
Qed.

Lemma merge_annotation_escalation_witness :
  merge_annotation probe [Some "A"; Some "B"; Some "C"] 2 true
  = ("", add_audit probe []
           [("IP:merge_annotation_fail", MergeTags ["A"; "B"; "C"])]).
Proof.
  apply (merge_annotation_escalation {| os_tax := ∅; dev_tax := ∅ |} probe
           [Some "A"; Some "B"; Some "C"] 2 true).
  left. vm_compute. lia.
Defined.

(** ** The hand override *)

Lemma setattr_getattr a attr_name : setattr a attr_name (getattr a attr_name) = a.
Proof.
  unfold setattr, getattr. destruct a.
  repeat (case_decide; [reflexivity|]). reflexivity.
Qed.

Lemma hand_step_pick hand self attr_name :
  hand_step hand self attr_name
  = mkIP (ip_addr self)
         (setattr (final_annotation self) attr_name
                  (pick (getattr hand attr_name)
                        (getattr (final_annotation self) attr_name)))
         (annotations self) (data self)
         (hand_miss self
          ++ miss attr_name (getattr hand attr_name)
                  (getattr (final_annotation self) attr_name))
         (one_miss self) (multi_device self).
Proof.
  unfold hand_step, pick, miss.
  destruct (truthy (getattr hand attr_name) && _); [reflexivity|].
  rewrite setattr_getattr, app_nil_r. by destruct self.
Qed.

Lemma hand_override_fields e hand :
  dict_lookup "hand_annotator" (annotations e) = Some hand →
  hand_override e
  = mkIP (ip_addr e)
         (mkAnnotation
            (pick (group hand) (group (final_annotation e)))
            (pick (_class hand) (_class (final_annotation e)))
            (pick (os_family hand) (os_family (final_annotation e)))
            (pick (os_type hand) (os_type (final_annotation e)))
            (pick (os_version hand) (os_version (final_annotation e))))
         (annotations e) (data e)
         (hand_miss e
          ++ miss "group" (group hand) (group (final_annotation e))
          ++ miss "_class" (_class hand) (_class (final_annotation e))
          ++ miss "os_family" (os_family hand) (os_family (final_annotation e))
          ++ miss "os_type" (os_type hand) (os_type (final_annotation e))
          ++ miss "os_version" (os_version hand) (os_version (final_annotation e)))
         (one_miss e) (multi_device e).
Proof.
  intros Hhand. unfold hand_override. rewrite Hhand.
  unfold attr_names. cbn [foldl].
  rewrite (hand_step_pick hand _ "os_version"), (hand_step_pick hand _ "os_type"),
    (hand_step_pick hand _ "os_family"), (hand_step_pick hand _ "_class"),
    (hand_step_pick hand _ "group").
  cbn [ip_addr final_annotation annotations data hand_miss one_miss multi_device].
  rewrite <- !app_assoc.
  destruct e as [ad [fg fc ff ft fv] cands dat hm om md].
  destruct hand as [hg hc hf ht hv].
  reflexivity.
Qed.

Lemma fuse_annotations tc e m : annotations (fuse tc e m) = annotations e.
Proof. by rewrite fuse_frame. Qed.

Lemma entries_for_app attr_name l k :
  entries_for attr_name (l ++ k) = entries_for attr_name l ++ entries_for attr_name k.
Proof. apply filter_app. Qed.

Lemma entries_for_miss attr_name n h x :
  entries_for attr_name (miss n h x)
  = if decide (n = attr_name) then miss n h x else [].
Proof.
  unfold entries_for, miss. destruct (truthy h && _).
  - rewrite filter_cons, filter_nil. simpl. destruct (decide (n = attr_name)); done. 
  - rewrite filter_nil. by destruct (decide _).
Qed.

(** C8: with a hand candidate on the entry, every field whose hand value
    is present and differs from the fused value ends up with the hand
    value and costs exactly one [hand_miss] entry (attribute, hand value,
    fused value); every other field keeps the fused value and costs
    none. *)
Theorem perform_annotation_hand_override tc e m hand :
  dict_lookup "hand_annotator" (annotations e) = Some hand →
  let fused := fuse tc e m in
  let r := perform_annotation tc e m in
  ∃ appended,
    hand_miss r = hand_miss fused ++ appended
    ∧ ∀ attr_name, attr_name ∈ attr_names →
        (overrides hand (final_annotation fused) attr_name = true →
           getattr (final_annotation r) attr_name = getattr hand attr_name
           ∧ entries_for attr_name appended
             = [(attr_name, default "" (getattr hand attr_name),
                 getattr (final_annotation fused) attr_name)])
        ∧ (overrides hand (final_annotation fused) attr_name = false →
             getattr (final_annotation r) attr_name
             = getattr (final_annotation fused) attr_name
             ∧ entries_for attr_name appended = []).
Proof.
  intros Hhand fused r. subst r. unfold perform_annotation. fold fused.
  assert (Hh : dict_lookup "hand_annotator" (annotations fused) = Some hand)
    by (subst fused; by rewrite fuse_annotations).
  rewrite (hand_override_fields fused hand Hh). cbn [hand_miss final_annotation].
  eexists. split; [reflexivity|].
  generalize (final_annotation fused). intros fin. clear.
  intros attr_name Hin. rewrite !entries_for_app, !entries_for_miss.
  unfold attr_names in Hin.
  repeat (apply elem_of_cons in Hin as [->|Hin]); [..|by apply elem_of_nil in Hin];
    unfold overrides; 
    repeat (match goal with |- context [decide (?x = ?y)] =>
               first [ rewrite (decide_True (P := x = y)) by reflexivity
                     | rewrite (decide_False (P := x = y)) by discriminate ] end);
    rewrite ?app_nil_r; cbn [app];
    split; intros Hov; unfold pick, miss;
    match type of Hov with ?b = _ =>
      match goal with |- context [if ?b' then _ else _] =>
        change b' with b; rewrite Hov end end;
    (split; reflexivity).
Qed.

Lemma perform_annotation_hand_override_witness :
  getattr
    (final_annotation
       (perform_annotation
          {| os_tax := {["linux" := []; "windows" := []]}; dev_tax := ∅ |}
          (mkIP (IPv4Address 1) blank
             [("a", mkAnnotation None None (Some "linux") None None);
              ("hand_annotator", mkAnnotation None None (Some "windows") None None)]
             [] [] [] []) 1))
    "os_family"
  = Some "windows".
Proof.
  destruct (perform_annotation_hand_override
              {| os_tax := {["linux" := []; "windows" := []]}; dev_tax := ∅ |}
              (mkIP (IPv4Address 1) blank
                 [("a", mkAnnotation None None (Some "linux") None None);
                  ("hand_annotator",
                   mkAnnotation None None (Some "windows") None None)]
                 [] [] [] []) 1
              (mkAnnotation None None (Some "windows") None None) eq_refl)
    as (appended & _ & Hfields).
  destruct (Hfields "os_family") as [Hov _].
  - unfold attr_names. do 2 right. left.
  - destruct Hov as [Hval _]; [reflexivity|]. exact Hval.
Defined.

(** ** The hand candidate and the vote *)

(** C1, the claim as stated fails: two annotators say linux, the hand
    annotator says windows; the vote over the non-hand candidates gives
    linux at threshold 2, the code's vote counts the hand value and gives
    absent. *)
Lemma hand_value_is_counted :
  let e := mkIP (IPv4Address 1) blank
             [("a", mkAnnotation None None (Some "linux") None None);
              ("b", mkAnnotation None None (Some "linux") None None);
              ("hand_annotator", mkAnnotation None None (Some "windows") None None)]
             [] [] [] [] in
  merged_value (non_hand_tags os_family e) 2 = "linux"
  ∧ merged_value (field_tags os_family e) 2 = ""
  ∧ os_family (final_annotation
                 (fuse {| os_tax := {["linux" := []; "windows" := []]}; dev_tax := ∅ |}
                       e 2)) = None
  ∧ ¬ (∀ e' m, merged_value (field_tags os_family e') m
               = merged_value (non_hand_tags os_family e') m).
Proof.
  intros e. split_and!; [reflexivity..|].
  intros H. specialize (H e 2%Z). vm_compute in H. discriminate.
Qed.

Lemma drop_absent_elem s (tags : list (option string)) :
  s ∈ drop_absent tags ↔ Some s ∈ tags ∧ s ≠ "".
Proof.
  unfold drop_absent. rewrite list_elem_of_omap. split.
  - intros ([x|] & Hin & Hx); simpl in Hx; [|done].
    destruct (bool_decide (x = "")) eqn:Hb; simplify_eq/=.
    apply bool_decide_eq_false in Hb. done.
  - intros [Hin Hne]. exists (Some s). split; [done|]. simpl.
    by rewrite bool_decide_eq_false_2.
Qed.

Lemma dict_lookup_values {V : Type} (d : list (string * V)) k x :
  dict_lookup k d = Some x → x ∈ dict_values d.
Proof.
  unfold dict_values. induction d as [|[k' x'] d IH]; simpl; [done|].
  case_decide; [intros [= ->]; left|intros ?; right; auto].
Qed.

(** A value that takes part in a merge holds the result to itself or to
    absent. *)
Lemma merged_value_counts tags m s :
  Some s ∈ tags → s ≠ "" →
  merged_value tags m = "" ∨ merged_value tags m = s.
Proof.
  intros Hin Hne. assert (Hs : s ∈ drop_absent tags) by (by apply drop_absent_elem).
  unfold merged_value, merge_annotation.
  pose proof (most_common_length (drop_absent tags)) as Hlen.
  repeat case_match; simpl; auto.
  right. match goal with H : (_ && _) = true |- _ => apply andb_true_iff in H as [Hone _] end.
  apply Nat.eqb_eq in Hone. rewrite Hone in Hlen.
  by rewrite (most_common_single _ s (eq_sym Hlen) Hs).
Qed.

(** C1, amended: the hand candidate is an input of the vote. The value
    list of every field is read off all candidates, the hand candidate's
    included, so where the hand value is present the merged value is
    either absent or that very value; the override runs after the fused
    record is built from the merged values. *)
Theorem hand_candidate_votes tc e m hand (proj : Annotation → option string) :
  dict_lookup "hand_annotator" (annotations e) = Some hand →
  proj hand ∈ field_tags proj e
  ∧ (truthy (proj hand) = true →
       merged_value (field_tags proj e) m = ""
       ∨ Some (merged_value (field_tags proj e) m) = proj hand)
  ∧ final_annotation (fuse tc e m)
    = set_annotation tc (final_annotation e)
        (PStr (merged_value (field_tags group e) m))
        (PStr (merged_value (field_tags _class e) m))
        (PStr (merged_value (field_tags os_family e) m))
        (PStr (merged_value (field_tags os_type e) m))
        (PStr (merged_value (field_tags os_version e) m))
  ∧ perform_annotation tc e m = hand_override (fuse tc e m)
  ∧ dict_lookup "hand_annotator" (annotations (fuse tc e m)) = Some hand.
Proof.
  intros Hhand.
  assert (Hin : proj hand ∈ field_tags proj e).
  { unfold field_tags. apply list_elem_of_fmap_2. by eapply dict_lookup_values. }
  split_and!; [done| |by rewrite fuse_frame|done|by rewrite fuse_annotations].
  destruct (proj hand) as [s|] eqn:Hp; [|done]. simpl.
  intros Hne%negb_true_iff%bool_decide_eq_false.
  destruct (merged_value_counts (field_tags proj e) m s Hin Hne) as [->| ->]; auto.
Qed.

Lemma hand_candidate_votes_witness :
  merged_value
    (field_tags os_family
       (mkIP (IPv4Address 1) blank
          [("a", mkAnnotation None None (Some "linux") None None);
           ("hand_annotator", mkAnnotation None None (Some "windows") None None)]
          [] [] [] [])) 1 = ""
  ∨ Some (merged_value
            (field_tags os_family
               (mkIP (IPv4Address 1) blank
                  [("a", mkAnnotation None None (Some "linux") None None);
                   ("hand_annotator",
                    mkAnnotation None None (Some "windows") None None)]
                  [] [] [] [])) 1)
    = Some "windows".
Proof.
  apply (hand_candidate_votes {| os_tax := ∅; dev_tax := ∅ |}
           (mkIP (IPv4Address 1) blank
              [("a", mkAnnotation None None (Some "linux") None None);
               ("hand_annotator", mkAnnotation None None (Some "windows") None None)]
              [] [] [] []) 1
           (mkAnnotation None None (Some "windows") None None) os_family eq_refl).
  reflexivity.
Defined.

(** ** The dependency invariant of classification records *)

Lemma lower_nonempty s : lower s = "" → s = "".
Proof. by destruct s. Qed.

Lemma validate_label_normal x : _validate_label x ≠ Some "".
Proof.
  unfold _validate_label. destruct x as [| |s|z]; simpl; try done.
  destruct s; simpl; done.
Qed.

Lemma pick_cases h x :
  (pick h x = h ∧ truthy h = true) ∨ (pick h x = x ∧ (truthy h = false ∨ h = x)).
Proof.
  unfold pick. destruct (truthy h) eqn:Ht; simpl; [|auto].
  destruct (bool_decide (h = x)) eqn:Hb; simpl; [|auto].
  apply bool_decide_eq_true in Hb. auto.
Qed.

Lemma truthy_is_Some h : truthy h = true → is_Some h.
Proof. destruct h; [eauto|done]. Qed.

Lemma truthy_false_normal h : truthy h = false → h ≠ Some "" → h = None.
Proof.
  destruct h as [s|]; [|done]. simpl. intros Hb%negb_false_iff%bool_decide_eq_true.
  by subst.
Qed.

Lemma pick_normal h x : h ≠ Some "" → x ≠ Some "" → pick h x ≠ Some "".
Proof. destruct (pick_cases h x) as [[-> _]|[-> _]]; auto. Qed.

(** If the dependent field is present after the override, so is the field
    it depends on. *)
Lemma pick_dependent h x h' x' :
  h ≠ Some "" → h' ≠ Some "" →
  (is_Some h' → is_Some h) → (is_Some x' → is_Some x) →
  is_Some (pick h' x') → is_Some (pick h x).
Proof.
  intros Hn Hn' Hh Hx Hp.
  assert (Hbase : is_Some h ∨ is_Some x → is_Some (pick h x)).
  { destruct (pick_cases h x) as [[-> Ht]|[-> [Ht| ->]]].
    - intros _. by apply truthy_is_Some.
    - apply truthy_false_normal in Ht as ->; [|done]. intros [[? ?]|?]; done.
    - tauto. }
  destruct (pick_cases h' x') as [[Hp' Ht]|[Hp' _]]; rewrite Hp' in Hp; auto.
Qed.

Lemma set_annotation_well_formed tc r gl cl fl tl vl :
  well_formed r → well_formed (set_annotation tc r gl cl fl tl vl).
Proof.
  intros [(Hg & Hc & Hf & Ht & Hv) [Hdev Hos]]. unfold set_annotation.
  pose proof (validate_label_normal gl). pose proof (validate_label_normal cl).
  pose proof (validate_label_normal fl). pose proof (validate_label_normal tl).
  pose proof (validate_label_normal vl).
  destruct (check_os tc _ _ _) eqn:Hcos;
    destruct (check_device tc _ _) eqn:Hcdev;
    try apply check_os_known, known_pair_present in Hcos;
    try apply check_device_known, known_pair_present in Hcdev;
    (split; [by split_and!|split; simpl; auto]).
Qed.

Lemma blank_well_formed : well_formed blank.
Proof.
  split; [by split_and!|]. split; simpl.
  - intros [? ?]; done.
  - intros [[? ?]|[? ?]]; done.
Qed.

Lemma hand_override_well_formed e :
  well_formed (final_annotation e) →
  (∀ hand, dict_lookup "hand_annotator" (annotations e) = Some hand → well_formed hand) →
  well_formed (final_annotation (hand_override e)).
Proof.
  intros Hfin Hhand.
  destruct (dict_lookup "hand_annotator" (annotations e)) as [hand|] eqn:Hl;
    [|unfold hand_override; by rewrite Hl].
  rewrite (hand_override_fields e hand Hl). simpl.
  destruct Hfin as [(Hg & Hc & Hf & Ht & Hv) [Hdev Hos]].
  destruct (Hhand hand eq_refl) as [(Hg' & Hc' & Hf' & Ht' & Hv') [Hdev' Hos']].
  split; [split_and!; by apply pick_normal|]. split; simpl.
  - by apply pick_dependent.
  - intros [Hp|Hp]; revert Hp; apply pick_dependent; auto.
Qed.

(** C9: the dependency invariant (a present class has a present group, a
    present os_type or os_version has a present os_family) holds for a
    record as constructed, is kept by every [set_annotation], hence by the
    fused record, and is kept by the hand override; and when group or
    os_family merges to absent the device pair, respectively the OS
    triple, is not written, so a class or os_type consensus is dropped. *)
Theorem dependency_invariant_kept tc e m r gl cl fl tl vl :
  well_formed (Annotation_init tc gl cl fl tl vl)
  ∧ (well_formed r → well_formed (set_annotation tc r gl cl fl tl vl))
  ∧ (well_formed (final_annotation e) →
       well_formed (final_annotation (fuse tc e m))
       ∧ ((∀ hand, dict_lookup "hand_annotator" (annotations e) = Some hand
                   → well_formed hand) →
          well_formed (final_annotation (perform_annotation tc e m))))
  ∧ (merged_value (field_tags group e) m = "" →
       group (final_annotation (fuse tc e m)) = group (final_annotation e)
       ∧ _class (final_annotation (fuse tc e m)) = _class (final_annotation e))
  ∧ (merged_value (field_tags os_family e) m = "" →
       os_family (final_annotation (fuse tc e m)) = os_family (final_annotation e)
       ∧ os_type (final_annotation (fuse tc e m)) = os_type (final_annotation e)
       ∧ os_version (final_annotation (fuse tc e m))
         = os_version (final_annotation e)).
Proof.
  split_and!.
  - apply set_annotation_well_formed, blank_well_formed.
  - apply set_annotation_well_formed.
  - intros Hfin.
    assert (Hfused : well_formed (final_annotation (fuse tc e m))).
    { rewrite fuse_frame. simpl. by apply set_annotation_well_formed. }
    split; [done|]. intros Hhand. unfold perform_annotation.
    apply hand_override_well_formed; [done|]. by rewrite fuse_annotations.
  - intros Hg. rewrite fuse_frame. simpl. rewrite Hg. unfold set_annotation.
    simpl. by destruct (check_os tc _ _ _).
  - intros Hf. rewrite fuse_frame. simpl. rewrite Hf. unfold set_annotation.
    simpl. by destruct (check_device tc _ _).
Qed.

Lemma dependency_invariant_kept_witness :
  well_formed
    (final_annotation
       (perform_annotation
          {| os_tax := {["linux" := ["ubuntu"]]}; dev_tax := {["server" := ["web"]]} |}
          (mkIP (IPv4Address 1) blank
             [("a", mkAnnotation (Some "server") (Some "web")
                                 (Some "linux") (Some "ubuntu") None)]
             [] [] [] []) 1)).
Proof.
  apply (dependency_invariant_kept
           {| os_tax := {["linux" := ["ubuntu"]]}; dev_tax := {["server" := ["web"]]} |}
           (mkIP (IPv4Address 1) blank
              [("a", mkAnnotation (Some "server") (Some "web")
                                  (Some "linux") (Some "ubuntu") None)]
              [] [] [] []) 1 blank PNone PNone PNone PNone PNone).
  - apply blank_well_formed.
  - intros hand Hhand. vm_compute in Hhand. discriminate.
Defined.

(** ** Running the fusion twice *)

Lemma set_annotation_fields tc r gl cl fl tl vl :
  set_annotation tc r gl cl fl tl vl
  = let dev := check_device tc (_validate_label gl) (_validate_label cl) in
    let os := check_os tc (_validate_label fl) (_validate_label tl)
                       (_validate_label vl) in
    mkAnnotation (if dev then _validate_label gl else group r)
                 (if dev then _validate_label cl else _class r)
                 (if os then _validate_label fl else os_family r)
                 (if os then _validate_label tl else os_type r)
                 (if os then _validate_label vl else os_version r).
Proof.
  unfold set_annotation. destruct r.
  destruct (check_os tc _ _ _), (check_device tc _ _); reflexivity.
Qed.

Lemma pick_idem h x : pick h (pick h x) = pick h x.
Proof.
  destruct (pick_cases h x) as [[-> Ht]|[Hp Hx]]; [|by rewrite !Hp].
  unfold pick. by rewrite bool_decide_eq_true_2, andb_false_r.
Qed.

Lemma miss_pick attr_name h x : miss attr_name h (pick h x) = [].
Proof.
  unfold miss, pick. destruct (truthy h) eqn:Ht; [|done].
  destruct (bool_decide (h = x)) eqn:Hb; simpl.
  - by rewrite Hb.
  - by rewrite bool_decide_eq_true_2.
Qed.


(** C5, the claim as stated fails: two annotators that disagree leave a
    [one_miss] entry at threshold 1, and a second run leaves it again. *)
Lemma second_run_repeats_audit :
  let tc := {| os_tax := {["linux" := []; "windows" := []]}; dev_tax := ∅ |} in
  let e := mkIP (IPv4Address 1) blank
             [("a", mkAnnotation None None (Some "linux") None None);
              ("b", mkAnnotation None None (Some "windows") None None)]
             [] [] [] [] in
  one_miss (perform_annotation tc e 1) = [[("linux", 1%nat); ("windows", 1%nat)]]
  ∧ one_miss (perform_annotation tc (perform_annotation tc e 1) 1)
    = [[("linux", 1%nat); ("windows", 1%nat)]; [("linux", 1%nat); ("windows", 1%nat)]]
  ∧ perform_annotation tc (perform_annotation tc e 1) 1 ≠ perform_annotation tc e 1.
Proof.
  intros tc e. split_and!; [reflexivity..|].
  intros H. apply (f_equal one_miss) in H. vm_compute in H. discriminate.
Qed.

(** C5, amended: a second run with the same threshold leaves the same
    final record and the same candidates, evidence and address; the audit
    lists are not kept: the [one_miss] and [multi_device] entries of the
    first run are appended once more, and [hand_miss] grows by some of the
    entries the first run appended. *)
Theorem perform_annotation_twice tc e m :
  let once := perform_annotation tc e m in
  let twice := perform_annotation tc once m in
  final_annotation twice = final_annotation once
  ∧ annotations twice = annotations once
  ∧ data twice = data once
  ∧ ip_addr twice = ip_addr once
  ∧ (∃ om, one_miss once = one_miss e ++ om ∧ one_miss twice = one_miss once ++ om)
  ∧ (∃ md, multi_device once = multi_device e ++ md
           ∧ multi_device twice = multi_device once ++ md)
  ∧ (∃ hm1 hm2, hand_miss once = hand_miss e ++ hm1
                ∧ hand_miss twice = hand_miss once ++ hm2
                ∧ hm2 `sublist_of` hm1).
Proof.
  intros once twice. subst twice once. unfold perform_annotation.
  destruct (dict_lookup "hand_annotator" (annotations e)) as [hand|] eqn:Hl.
  - assert (H1 : dict_lookup "hand_annotator" (annotations (fuse tc e m)) = Some hand)
      by (by rewrite fuse_annotations).
    rewrite (hand_override_fields _ hand H1).
    set (once := mkIP _ _ _ _ _ _ _).
    assert (Hann : annotations once = annotations e)
      by (subst once; simpl; by rewrite fuse_annotations).
    assert (H2 : dict_lookup "hand_annotator" (annotations (fuse tc once m)) = Some hand)
      by (by rewrite fuse_annotations, Hann).
    rewrite (hand_override_fields _ hand H2).
    rewrite (fuse_frame tc once). unfold field_tags. rewrite Hann.
    subst once. rewrite (fuse_frame tc e). unfold field_tags.
    cbn [final_annotation annotations data ip_addr one_miss multi_device hand_miss
         with_final add_audit].
    rewrite !set_annotation_fields. cbv zeta.
    cbn [group _class os_family os_type os_version].
    split_and!; try reflexivity.
    + destruct (check_device tc _ _), (check_os tc _ _ _);
        by rewrite ?pick_idem.
    + eexists. split; reflexivity.
    + eexists. split; reflexivity.
    + eexists _, _. split_and!; [reflexivity..|].
      destruct (check_device tc _ _), (check_os tc _ _ _);
        rewrite ?miss_pick; simpl;
        repeat (first [ apply sublist_nil_l | reflexivity
                      | apply sublist_app; [first [reflexivity|apply sublist_nil_l]|]
                      | apply sublist_inserts_l ]).
  - assert (Hno : ∀ x, dict_lookup "hand_annotator" (annotations x) = None →
                      hand_override x = x).
    { intros x Hx. unfold hand_override. by rewrite Hx. }
    rewrite (Hno (fuse tc e m)) by (by rewrite fuse_annotations).
    rewrite (Hno (fuse tc (fuse tc e m) m)) by (by rewrite !fuse_annotations).
    rewrite (fuse_frame tc (fuse tc e m)). unfold field_tags.
    rewrite fuse_annotations. rewrite (fuse_frame tc e). unfold field_tags.
    cbn [final_annotation annotations data ip_addr one_miss multi_device hand_miss
         with_final add_audit].
    rewrite !set_annotation_fields. cbv zeta.
    cbn [group _class os_family os_type os_version].
    split_and!; try reflexivity.
    + by destruct (check_device tc _ _), (check_os tc _ _ _).
    + eexists. split; reflexivity.
    + eexists. split; reflexivity.
    + exists [], []. by rewrite !app_nil_r.
Qed.

(** ** Export and load *)

Lemma lower_ascii_idem ch : lower_ascii (lower_ascii ch) = lower_ascii ch.
Proof. by destruct ch as [[] [] [] [] [] [] [] []]. Qed.

Lemma lower_idem s : lower (lower s) = lower s.
Proof. induction s as [|ch s IH]; simpl; [done|]. by rewrite lower_ascii_idem, IH. Qed.

Lemma validate_label_canonical x : canonical (_validate_label x).
Proof.
  unfold canonical, _validate_label. destruct x as [| |s|z]; simpl; try done.
  destruct s as [|ch s]; simpl; [done|]. by rewrite lower_ascii_idem, lower_idem.
Qed.

Lemma set_annotation_valid tc r gl cl fl tl vl :
  valid_record tc r → valid_record tc (set_annotation tc r gl cl fl tl vl).
Proof.
  intros [(Hg & Hc & Hf & Ht & Hv) [Hdev Hos]]. rewrite set_annotation_fields.
  cbv zeta. pose proof validate_label_canonical.
  destruct (check_device tc (_validate_label gl) _) eqn:Hcd,
    (check_os tc (_validate_label fl) _ _) eqn:Hco;
    (split; [simpl; split_and!; auto|split; simpl; auto]).
Qed.

Lemma blank_valid tc : valid_record tc blank.
Proof. split; [by split_and!|]. split; right; done. Qed.

Lemma Annotation_init_valid tc gl cl fl tl vl :
  valid_record tc (Annotation_init tc gl cl fl tl vl).
Proof. apply set_annotation_valid, blank_valid. Qed.

Lemma Annotation_export_get r :
  dict_get_default (Annotation_export r) "group" = py_of (group r)
  ∧ dict_get_default (Annotation_export r) "class" = py_of (_class r)
  ∧ dict_get_default (Annotation_export r) "os_family" = py_of (os_family r)
  ∧ dict_get_default (Annotation_export r) "os_type" = py_of (os_type r)
  ∧ dict_get_default (Annotation_export r) "os_version" = py_of (os_version r).
Proof.
  unfold dict_get_default, Annotation_export.
  split_and!; by rewrite ?lookup_insert_ne by done; rewrite lookup_insert_eq.
Qed.

Lemma check_os_None tc t v : check_os tc None t v = false.
Proof. done. Qed.

Lemma check_device_None tc c : check_device tc None c = false.
Proof. done. Qed.

Lemma Annotation_round_trip tc r :
  valid_record tc r → Annotation_load tc (Annotation_export r) = r.
Proof.
  intros [(Hg & Hc & Hf & Ht & Hv) [Hdev Hos]]. unfold Annotation_load.
  destruct (Annotation_export_get r) as (-> & -> & -> & -> & ->).
  unfold Annotation_init. rewrite set_annotation_fields. cbv zeta.
  rewrite Hg, Hc, Hf, Ht, Hv. destruct r as [g c f t v]. simpl in *.
  destruct Hdev as [->|[-> ->]], Hos as [->|(-> & -> & ->)];
    rewrite ?check_os_None, ?check_device_None; reflexivity.
Qed.

Lemma candidates_round_trip tc (cands : list (string * Annotation)) :
  Forall (λ kv, valid_record tc kv.2) cands →
  prod_map id (Annotation_load tc) <$> (prod_map id Annotation_export <$> cands)
  = cands.
Proof.
  induction 1 as [|[k r] cands Hr _ IH]; [done|].
  rewrite !fmap_cons, IH. f_equal. unfold prod_map. simpl.
  by rewrite (Annotation_round_trip tc r Hr).
Qed.

Lemma canonical_truthy x : canonical x → truthy x = false → x = None.
Proof.
  destruct x as [s|]; [|done]. unfold canonical. simpl.
  intros Hc Hb%negb_false_iff%bool_decide_eq_true. by subst.
Qed.

Lemma canonical_pick h x : canonical h → canonical x → canonical (pick h x).
Proof. destruct (pick_cases h x) as [[-> _]|[-> _]]; auto. Qed.

Lemma pick_None h : canonical h → pick h None = h.
Proof.
  intros Hc. destruct (pick_cases h None) as [[-> _]|[-> [Ht| ->]]]; [done| |done].
  symmetry. by apply canonical_truthy.
Qed.

Lemma pick_None_l x : pick None x = x.
Proof. done. Qed.

(** When the hand value of a key field is present and the merged key
    passes validation, the two agree. *)
Lemma validated_merge_is_hand tags m s :
  Some s ∈ tags → canonical (Some s) →
  is_Some (_validate_label (PStr (merged_value tags m))) →
  _validate_label (PStr (merged_value tags m)) = Some s.
Proof.
  intros Hin Hc Hsome.
  assert (Hne : s ≠ "") by (intros ->; by unfold canonical in Hc).
  destruct (merged_value_counts tags m s Hin Hne) as [Hm|Hm]; rewrite Hm in *.
  - by destruct Hsome.
  - exact Hc.
Qed.

Lemma pick_same h : pick h h = h.
Proof. by destruct (pick_cases h h) as [[-> _]|[-> _]]. Qed.

(** One half of a record under the override: the key field [pk] with a
    dependent field [px], against the hand values [hk] and [hx]. *)
Lemma pick_half d hk hx pk px :
  canonical hk → canonical hx →
  (known_pair d hk hx ∨ (hk = None ∧ hx = None)) →
  (known_pair d pk px ∨ (pk = None ∧ px = None)) →
  key_compatible hk pk →
  (known_pair d (pick hk pk) (pick hx px)
   ∨ (pick hk pk = None ∧ pick hx px = None))
  ∧ key_compatible hk (pick hk pk)
  ∧ (pick hk pk = None → hk = None ∧ pk = None).
Proof.
  intros Hck Hcx [Hh|[-> ->]] Hprev Hcompat.
  - destruct (known_pair_present _ _ _ Hh) as [s ->].
    destruct Hcompat as [?|[->| ->]]; [done| |].
    + destruct Hprev as [Hp|[_ ->]];
        [by destruct (known_pair_present _ _ _ Hp)|].
      rewrite !pick_None by done. split_and!; [by left|by right; right|done].
    + rewrite pick_same. destruct Hprev as [Hp|[? _]]; [|done].
      split_and!; [left|by right; right|done].
      by destruct (pick_cases hx px) as [[-> _]|[-> _]].
  - rewrite !pick_None_l. split_and!; [done|by left|done].
Qed.

(** Fusion keeps an entry coherent: its records stay valid, on the first
    run and on every later one over the same candidates. *)
Lemma perform_annotation_coherent tc e m :
  coherent tc e → coherent tc (perform_annotation tc e m).
Proof.
  intros [[Hfin Hcands] Hcompat]. unfold perform_annotation.
  assert (Hset : valid_record tc (final_annotation (fuse tc e m))).
  { rewrite fuse_frame. simpl. by apply set_annotation_valid. }
  destruct (dict_lookup "hand_annotator" (annotations e)) as [hand|] eqn:Hl.
  - assert (Hhv : valid_record tc hand).
    { apply dict_lookup_values in Hl. unfold dict_values in Hl.
      apply list_elem_of_fmap in Hl as ([k x] & -> & Hin).
      by apply (proj1 (Forall_forall _ _) Hcands _ Hin). }
    assert (Htags : ∀ proj, proj hand ∈ field_tags proj e).
    { intros proj. unfold field_tags. apply list_elem_of_fmap_2.
      by eapply dict_lookup_values. }
    destruct (Hcompat hand eq_refl) as [Hcg Hcf].
    assert (Hcg1 : key_compatible (group hand)
                     (group (final_annotation (fuse tc e m)))).
    { rewrite fuse_frame. cbn [final_annotation with_final].
      rewrite set_annotation_fields. cbv zeta. cbn [group].
      destruct (check_device tc _ _) eqn:Hcd; [|done].
      destruct (group hand) as [s|] eqn:Hg; [|by left]. right; right.
      destruct Hhv as [(Hg' & _) _]. rewrite Hg in Hg'.
      apply validated_merge_is_hand; [by rewrite <- Hg|done|].
      apply check_device_known in Hcd. by eapply known_pair_present. }
    assert (Hcf1 : key_compatible (os_family hand)
                     (os_family (final_annotation (fuse tc e m)))).
    { rewrite fuse_frame. cbn [final_annotation with_final].
      rewrite set_annotation_fields. cbv zeta. cbn [os_family].
      destruct (check_os tc _ _ _) eqn:Hco; [|done].
      destruct (os_family hand) as [s|] eqn:Hf; [|by left]. right; right.
      destruct Hhv as [(_ & _ & Hf' & _) _]. rewrite Hf in Hf'.
      apply validated_merge_is_hand; [by rewrite <- Hf|done|].
      apply check_os_known in Hco. by eapply known_pair_present. }
    assert (H1 : dict_lookup "hand_annotator" (annotations (fuse tc e m)) = Some hand)
      by (by rewrite fuse_annotations).
    rewrite (hand_override_fields _ hand H1).
    destruct Hhv as [(Hg & Hc & Hf & Ht & Hv) [Hdev Hos]].
    destruct Hset as [(Hg1 & Hc1 & Hf1 & Ht1 & Hv1) [Hdev1 Hos1]].
    destruct (pick_half (dev_tax tc) (group hand) (_class hand)
                (group (final_annotation (fuse tc e m)))
                (_class (final_annotation (fuse tc e m))))
      as (Hd2 & Hcg2 & _); [done..| | |done|].
    { destruct Hdev as [?%check_device_known|?]; auto. }
    { destruct Hdev1 as [?%check_device_known|?]; auto. }
    destruct (pick_half (os_tax tc) (os_family hand) (os_type hand)
                (os_family (final_annotation (fuse tc e m)))
                (os_type (final_annotation (fuse tc e m))))
      as (Ho2 & Hcf2 & Hnone); [done..| | |done|].
    { destruct Hos as [?%check_os_known|(? & ? & ?)]; auto. }
    { destruct Hos1 as [?%check_os_known|(? & ? & ?)]; auto. }
    split; [split|].
    + cbn [final_annotation]. split; [|split];
        cbn [group _class os_family os_type os_version].
      * split_and!; by apply canonical_pick.
      * destruct Hd2 as [?%check_device_known|?]; auto.
      * destruct Ho2 as [Hk|[Hk Hx]]; [left; by apply check_os_known|].
        right. split_and!; [done..|].
        destruct (Hnone Hk) as [Hh0 Hp0].
        destruct Hos as [Hh|(_ & _ & ->)];
          [apply check_os_known, known_pair_present in Hh;
           rewrite Hh0 in Hh; by destruct Hh|].
        destruct Hos1 as [Hp|(_ & _ & ->)]; [|done].
        apply check_os_known, known_pair_present in Hp.
        rewrite Hp0 in Hp. by destruct Hp.
    + cbn [annotations]. by rewrite fuse_annotations.
    + cbn [annotations final_annotation group os_family].
      rewrite fuse_annotations, Hl. by intros ? [= <-].
  - unfold hand_override. rewrite fuse_annotations, Hl.
    split; [split; [done|by rewrite fuse_annotations]|].
    rewrite fuse_annotations, Hl. done.
Qed.

Lemma fresh_entry_coherent tc e :
  final_annotation e = blank →
  Forall (λ kv, valid_record tc kv.2) (annotations e) →
  coherent tc e.
Proof.
  intros Hblank Hcands. split; [split; [rewrite Hblank; apply blank_valid|done]|].
  intros hand _. rewrite Hblank. split; right; by left.
Qed.

(** A freshly created entry with constructed candidates is valid after
    its fusion, and after any number of further runs: export and load
    apply to what the pipeline produces. *)
Lemma fused_entry_valid tc e m :
  final_annotation e = blank →
  Forall (λ kv, valid_record tc kv.2) (annotations e) →
  valid_entry tc (perform_annotation tc e m)
  ∧ valid_entry tc (perform_annotation tc (perform_annotation tc e m) m).
Proof.
  intros Hblank Hcands.
  pose proof (perform_annotation_coherent tc e m
                (fresh_entry_coherent tc e Hblank Hcands)) as Hone.
  split; [apply Hone|]. by apply perform_annotation_coherent.
Qed.

(** C7, the claim as stated fails: an entry is fused from the candidate
    (server, web), the hand candidate (printer) is added, and the entry
    is fused again. The second vote on the group is split, so
    [set_annotation] keeps the device pair of the first run, and the
    override then writes the group alone: the final record is
    (printer, web), a pair the taxonomy does not know. [Annotation.load]
    checks the pair and drops it, so neither the final record nor the
    entry comes back from export and load. *)
Lemma stale_pair_does_not_round_trip :
  let tc := {| os_tax := ∅; dev_tax := {["server" := ["web"]; "printer" := []]} |} in
  let ip_str := λ addr : ip_address,
                  if decide (addr = IPv4Address 16909060) then "1.2.3.4" else "" in
  let ip_parse := λ text : string,
                    if decide (text = "1.2.3.4") then Some (IPv4Address 16909060)
                    else None in
  let e0 := mkIP (IPv4Address 16909060) blank [] [] [] [] [] in
  let e1 := perform_annotation tc
              (add_annotation e0 "mac_annotator"
                 (Annotation_init tc (PStr "server") (PStr "web") PNone PNone PNone))
              1 in
  let e2 := perform_annotation tc
              (add_annotation e1 "hand_annotator"
                 (Annotation_init tc (PStr "printer") PNone PNone PNone PNone))
              1 in
  final_annotation e1 = mkAnnotation (Some "server") (Some "web") None None None
  ∧ final_annotation e2 = mkAnnotation (Some "printer") (Some "web") None None None
  ∧ Annotation_load tc (Annotation_export (final_annotation e2)) = blank
  ∧ Annotation_load tc (Annotation_export (final_annotation e2)) ≠ final_annotation e2
  ∧ ip_parse (ip_str (ip_addr e2)) = Some (ip_addr e2)
  ∧ l_final_annotation <$> IP_load tc ip_parse (IP_export ip_str e2) = Some blank
  ∧ IP_load tc ip_parse (IP_export ip_str e2) ≠ Some (loaded_of e2).
Proof.
  intros tc ip_str ip_parse e0 e1 e2.
  assert (H1 : final_annotation e1
               = mkAnnotation (Some "server") (Some "web") None None None)
    by (vm_compute; reflexivity).
  assert (H2 : final_annotation e2
               = mkAnnotation (Some "printer") (Some "web") None None None)
    by (vm_compute; reflexivity).
  assert (H3 : Annotation_load tc (Annotation_export (final_annotation e2)) = blank)
    by (rewrite H2; vm_compute; reflexivity).
  assert (H4 : l_final_annotation <$> IP_load tc ip_parse (IP_export ip_str e2)
               = Some blank)
    by (vm_compute; reflexivity).
  split_and!; [done|done|done| |vm_compute; reflexivity|done|].
  - rewrite H3, H2. intros [=].
  - intros Heq. apply (f_equal (fmap l_final_annotation)) in Heq.
    rewrite H4 in Heq. change (Some blank = Some (final_annotation e2)) in Heq.
    rewrite H2 in Heq. by injection Heq.
Qed.

(** C7, amended: export and load give back every record that meets the
    record invariant, which the records the constructor and
    [set_annotation] build do, and every entry whose final record and
    candidates meet it and whose address the ipaddress module prints and
    reads back: the loaded object has the same address, final record,
    candidates, evidence and audit lists, its [multi_device] a list. A
    fresh entry with constructed candidates is such an entry after its
    fusion, and after a second one. *)
Theorem export_load_round_trip tc (ip_str : ip_address → string)
    (ip_parse : string → option ip_address) e r gl cl fl tl vl m :
  Annotation_load tc (Annotation_export (Annotation_init tc gl cl fl tl vl))
  = Annotation_init tc gl cl fl tl vl
  ∧ (valid_record tc r →
     Annotation_load tc (Annotation_export r) = r
     ∧ Annotation_load tc (Annotation_export (set_annotation tc r gl cl fl tl vl))
       = set_annotation tc r gl cl fl tl vl)
  ∧ (valid_entry tc e →
     ip_parse (ip_str (ip_addr e)) = Some (ip_addr e) →
     IP_load tc ip_parse (IP_export ip_str e) = Some (loaded_of e)
     ∧ as_IP (loaded_of e) = Some e)
  ∧ (final_annotation e = blank →
     Forall (λ kv, valid_record tc kv.2) (annotations e) →
     valid_entry tc (perform_annotation tc e m)
     ∧ valid_entry tc (perform_annotation tc (perform_annotation tc e m) m)).
Proof.
  split_and!.
  - apply Annotation_round_trip, Annotation_init_valid.
  - intros Hr. split; [by apply Annotation_round_trip|].
    by apply Annotation_round_trip, set_annotation_valid.
  - intros [Hfin Hcands] Hip. split; [|by destruct e].
    unfold IP_load, IP_export, IP_init. simpl.
    rewrite Hip. simpl. rewrite (Annotation_round_trip tc _ Hfin).
    by rewrite (candidates_round_trip tc _ Hcands).
  - apply fused_entry_valid.
Qed.

Lemma export_load_round_trip_witness :
  let tc := {| os_tax := {["linux" := ["ubuntu"]]}; dev_tax := {["server" := ["web"]]} |} in
  let ip_str := λ addr : ip_address,
                  if decide (addr = IPv4Address 16909060) then "1.2.3.4" else "" in
  let ip_parse := λ text : string,
                    if decide (text = "1.2.3.4") then Some (IPv4Address 16909060)
                    else None in
  let r := mkAnnotation (Some "server") (Some "web") (Some "linux") None None in
  let e := mkIP (IPv4Address 16909060) r [("mac_annotator", r)]
                [("mac_annotator", PStr "00:11:22")] []
                [[("linux", 2%nat); ("windows", 1%nat)]] [] in
  IP_load tc ip_parse (IP_export ip_str e) = Some (loaded_of e)
  ∧ as_IP (loaded_of e) = Some e.
Proof.
  intros tc ip_str ip_parse r e.
  assert (Hr : valid_record tc r).
  { split; [by split_and!|]. split; left; reflexivity. }
  apply (export_load_round_trip tc ip_str ip_parse e r PNone PNone PNone PNone PNone 1).
  - split; [exact Hr|]. apply Forall_cons. split; [exact Hr|constructor].
  - reflexivity.
Defined.

(** ** The annotator loop *)



















(** With threads the claim fails as well when the annotator ends on
    [sys.exit]: [SystemExit] passes [except Exception], nothing is
    captured although the annotator did not finish, and every entry is
    fused; without threads the same exit ends the program. *)
Lemma system_exit_is_not_captured :
  let tc := {| os_tax := ∅; dev_tax := ∅ |} in
  let ip0 := mkIP (IPv4Address 1) blank [] [] [] [] [] in
  let exiting := mkModule "useragent_annotator" (SysExit 1) in
  let working :=
    mkModule "y_annotator"
      (Atomic (fmap (λ ip, add_annotation ip "y_annotator" blank)) (λ _, Return)) in
  process_in_memory tc true [0; 1; 1]%nat [exiting; working] [ip0] 1
  = Some (Fused [perform_annotation tc (add_annotation ip0 "y_annotator" blank) 1])
  ∧ thread_errors (run_schedule [0; 1; 1]%nat (start_threads [exiting; working] [ip0]))
    = []
  ∧ process_in_memory tc false [] [exiting; working] [ip0] 1
    = Some (SystemExited 1 [ip0]).
Proof. intros tc ip0 exiting working. by split_and!. Qed.



(** * Properties of the rest of the pipeline *)

(** ** Candidate and evidence maps *)

Lemma dict_set_lookup {V : Type} (d : list (string * V)) k x k' :
  dict_lookup k' (dict_set k x d)
  = if decide (k' = k) then Some x else dict_lookup k' d.
Proof.
  induction d as [|[k0 x0] d IH]; simpl.
  - by destruct (decide (k' = k)).
  - destruct (decide (k = k0)) as [->|Hne]; simpl.
    + by destruct (decide (k' = k0)).
    + rewrite IH. destruct (decide (k' = k0)) as [->|?]; [|done].
      by rewrite decide_False by done.
Qed.

Lemma dict_set_keys {V : Type} (d : list (string * V)) k x :
  (dict_set k x d).*1 = if decide (k ∈ d.*1) then d.*1 else d.*1 ++ [k].
Proof.
  induction d as [|[k0 x0] d IH]; csimpl.
  - destruct (decide (k ∈ [])) as [H|H]; [by apply elem_of_nil in H|done].
  - destruct (decide (k = k0)) as [->|Hne]; csimpl.
    + rewrite decide_True; [done|left].
    + rewrite IH. destruct (decide (k ∈ d.*1)) as [Hin|Hin].
      * rewrite decide_True; [done|by right].
      * rewrite decide_False; [done|]. intros [?|?]%elem_of_cons; done.
Qed.

Lemma dict_set_fresh {V : Type} (d : list (string * V)) k x :
  k ∉ d.*1 → dict_set k x d = d ++ [(k, x)].
Proof.
  induction d as [|[k0 x0] d IH]; csimpl; [done|]. intros Hk.
  apply not_elem_of_cons in Hk as [Hne Hk].
  rewrite decide_False by done. by rewrite IH.
Qed.

Lemma dict_lookup_None {V : Type} (d : list (string * V)) k :
  dict_lookup k d = None ↔ k ∉ d.*1.
Proof.
  induction d as [|[k0 x0] d IH]; csimpl.
  - split; [intros _; apply not_elem_of_nil|done].
  - rewrite not_elem_of_cons. destruct (decide (k = k0)) as [->|Hne].
    + split; [done|]. by intros [? _].
    + rewrite IH. tauto.
Qed.

(** X1: [add_annotation] and [add_data] are keyed writes: the name written
    reads back the new value and every other name reads as before; a name
    that was present keeps its place in the order and a new one goes last;
    neither touches the other map or the final record. *)
Theorem add_annotation_add_data_lookup e annotator_name a x k :
  dict_lookup k (annotations (add_annotation e annotator_name a))
  = (if decide (k = annotator_name) then Some a else dict_lookup k (annotations e))
  ∧ (annotations (add_annotation e annotator_name a)).*1
    = (if decide (annotator_name ∈ (annotations e).*1) then (annotations e).*1
       else (annotations e).*1 ++ [annotator_name])
  ∧ dict_lookup k (data (add_data e annotator_name x))
    = (if decide (k = annotator_name) then Some x else dict_lookup k (data e))
  ∧ (data (add_data e annotator_name x)).*1
    = (if decide (annotator_name ∈ (data e).*1) then (data e).*1
       else (data e).*1 ++ [annotator_name])
  ∧ data (add_annotation e annotator_name a) = data e
  ∧ annotations (add_data e annotator_name x) = annotations e
  ∧ final_annotation (add_annotation e annotator_name a) = final_annotation e
  ∧ final_annotation (add_data e annotator_name x) = final_annotation e.
Proof.
  split_and!; try done; simpl;
    [apply dict_set_lookup|apply dict_set_keys|apply dict_set_lookup|apply dict_set_keys].
Qed.

Lemma dict_update_snoc {V : Type} (d o : list (string * V)) k x :
  dict_update d (o ++ [(k, x)]) = dict_set k x (dict_update d o).
Proof. unfold dict_update. by rewrite foldl_snoc. Qed.

Lemma dict_lookup_app {V : Type} (d o : list (string * V)) k :
  dict_lookup k (d ++ o)
  = match dict_lookup k d with
    | Some x => Some x
    | None => dict_lookup k o
    end.
Proof.
  induction d as [|[k0 x0] d IH]; simpl; [done|].
  by destruct (decide (k = k0)).
Qed.

Lemma dict_update_lookup {V : Type} (d o : list (string * V)) k :
  NoDup o.*1 →
  dict_lookup k (dict_update d o)
  = match dict_lookup k o with
    | Some x => Some x
    | None => dict_lookup k d
    end.
Proof.
  induction o as [|[k0 x0] o IH] using rev_ind; [done|]. intros Hnd.
  rewrite fmap_app in Hnd. apply NoDup_app in Hnd as (Hnd & Hdisj & _).
  rewrite dict_update_snoc, dict_set_lookup, IH, dict_lookup_app by done. simpl.
  destruct (decide (k = k0)) as [->|Hne]; [|by destruct (dict_lookup k o)].
  assert (Hk : dict_lookup k0 o = None).
  { apply dict_lookup_None. intros Hin. apply (Hdisj _ Hin). simpl. left. }
  by rewrite Hk.
Qed.

Lemma dict_update_disjoint {V : Type} (d o : list (string * V)) :
  NoDup o.*1 → (∀ k, k ∈ o.*1 → k ∉ d.*1) → dict_update d o = d ++ o.
Proof.
  induction o as [|[k0 x0] o IH] using rev_ind; intros Hnd Hdisj.
  - by rewrite app_nil_r.
  - rewrite fmap_app in Hnd, Hdisj. apply NoDup_app in Hnd as (Hnd & Hno & _).
    rewrite dict_update_snoc, IH; [|done|].
    + rewrite dict_set_fresh; [by rewrite app_assoc|].
      rewrite fmap_app. intros [Hin|Hin]%elem_of_app.
      * apply (Hdisj k0); [|done]. apply elem_of_app. right. left.
      * apply (Hno _ Hin). left.
    + intros k Hk. apply Hdisj, elem_of_app. by left.
Qed.

(** X2: [__iadd__], the other entry holding each name once: a name reads the
    other entry's value when the other entry has one and its own value else,
    for candidates and for evidence alike; when no candidate name is shared
    the candidates are laid end to end; the three audit lists are laid end
    to end; the final record and the address stay. *)
Theorem IP_iadd_merges self other k :
  NoDup (annotations other).*1 → NoDup (data other).*1 →
  dict_lookup k (annotations (IP_iadd self other))
  = match dict_lookup k (annotations other) with
    | Some x => Some x
    | None => dict_lookup k (annotations self)
    end
  ∧ dict_lookup k (data (IP_iadd self other))
    = match dict_lookup k (data other) with
      | Some x => Some x
      | None => dict_lookup k (data self)
      end
  ∧ ((∀ n, n ∈ (annotations other).*1 → n ∉ (annotations self).*1) →
     annotations (IP_iadd self other) = annotations self ++ annotations other)
  ∧ hand_miss (IP_iadd self other) = hand_miss self ++ hand_miss other
  ∧ one_miss (IP_iadd self other) = one_miss self ++ one_miss other
  ∧ multi_device (IP_iadd self other) = multi_device self ++ multi_device other
  ∧ final_annotation (IP_iadd self other) = final_annotation self
  ∧ ip_addr (IP_iadd self other) = ip_addr self.
Proof.
  intros Ha Hd. split_and!; try done; simpl.
  - by apply dict_update_lookup.
  - by apply dict_update_lookup.
  - by apply dict_update_disjoint.
Qed.

Lemma IP_iadd_merges_witness :
  dict_lookup "mac_annotator"
    (annotations
       (IP_iadd
          (mkIP (IPv4Address 1) blank
             [("mac_annotator", mkAnnotation (Some "server") None None None None)]
             [] [] [] [])
          (mkIP (IPv4Address 1) blank
             [("mac_annotator", mkAnnotation (Some "mobile") None None None None)]
             [] [] [] [])))
  = Some (mkAnnotation (Some "mobile") None None None None).
Proof.
  apply (IP_iadd_merges
           (mkIP (IPv4Address 1) blank
              [("mac_annotator", mkAnnotation (Some "server") None None None None)]
              [] [] [] [])
           (mkIP (IPv4Address 1) blank
              [("mac_annotator", mkAnnotation (Some "mobile") None None None None)]
              [] [] [] [])
           "mac_annotator").
  - simpl. apply NoDup_singleton.
  - simpl. apply NoDup_nil_2.
Defined.

(** ** Records: emptiness, the full check, downgrade, normalisation *)

Ltac attr_in := unfold attr_names; repeat (first [by left | right]).

Lemma length_zero_empty s : (String.length s =? 0)%nat = bool_decide (s = "").
Proof. by destruct s. Qed.

Lemma is_empty_fields r :
  is_empty r = true
  ↔ truthy (group r) = false ∧ truthy (_class r) = false
    ∧ truthy (os_family r) = false ∧ truthy (os_type r) = false
    ∧ truthy (os_version r) = false.
Proof.
  assert (Hone : ∀ x : option string,
            match x with Some s => (String.length s =? 0)%nat | None => true end = true
            ↔ truthy x = false).
  { intros [s|]; simpl; [|done]. rewrite length_zero_empty.
    by destruct (bool_decide (s = "")). }
  unfold is_empty, ret_annotation. simpl.
  rewrite !andb_true_iff, !Hone. tauto.
Qed.

Lemma validate_label_truthy x :
  is_Some (_validate_label x) → truthy (_validate_label x) = true.
Proof.
  unfold _validate_label. destruct x as [| |s|z]; simpl; try by intros [? ?].
  destruct s as [|ch s]; simpl; [by intros [? ?]|done].
Qed.

(** X3: a record [is_empty] exactly when none of its five attributes holds a
    non-empty string; a constructed record is empty exactly when both halves
    fail their taxonomy check, which is exactly when it is the blank record;
    the record built from no labels is empty. *)
Theorem is_empty_constructed tc gl cl fl tl vl r :
  (is_empty r = true
   ↔ ∀ attr_name, attr_name ∈ attr_names → truthy (getattr r attr_name) = false)
  ∧ (is_empty (Annotation_init tc gl cl fl tl vl) = true
     ↔ check_device tc (_validate_label gl) (_validate_label cl) = false
       ∧ check_os tc (_validate_label fl) (_validate_label tl) (_validate_label vl)
         = false)
  ∧ (is_empty (Annotation_init tc gl cl fl tl vl) = true
     ↔ Annotation_init tc gl cl fl tl vl = blank)
  ∧ is_empty (Annotation_init tc PNone PNone PNone PNone PNone) = true.
Proof.
  assert (Hinit : is_empty (Annotation_init tc gl cl fl tl vl) = true
     ↔ check_device tc (_validate_label gl) (_validate_label cl) = false
       ∧ check_os tc (_validate_label fl) (_validate_label tl) (_validate_label vl)
         = false).
  { rewrite is_empty_fields. unfold Annotation_init.
    rewrite set_annotation_fields. cbv zeta. simpl.
    destruct (check_device tc _ _) eqn:Hcd, (check_os tc _ _ _) eqn:Hco;
      try apply check_device_known, known_pair_present, validate_label_truthy in Hcd;
      try apply check_os_known, known_pair_present, validate_label_truthy in Hco;
      split; try done; try (intros [? ?]; congruence);
      intros (? & ? & ? & ? & ?); congruence. }
  split_and!.
  - rewrite is_empty_fields. unfold attr_names. split.
    + intros (? & ? & ? & ? & ?) attr_name Hin.
      repeat (apply elem_of_cons in Hin as [->|Hin]); try done.
      by apply elem_of_nil in Hin.
    + intros H. split_and!.
      * apply (H "group"); attr_in.
      * apply (H "_class"); attr_in.
      * apply (H "os_family"); attr_in.
      * apply (H "os_type"); attr_in.
      * apply (H "os_version"); attr_in.
  - done.
  - split; [|by intros ->]. intros [Hcd Hco]%Hinit.
    unfold Annotation_init. rewrite set_annotation_fields. cbv zeta.
    by rewrite Hcd, Hco.
  - done.
Qed.

(** X4: [check_annotation] on a constructed record is the conjunction of the
    two checks on the validated labels; on a record that obeys the record
    invariant it holds exactly when both the group and the OS family are
    present, so a record with one half only never passes; the record built
    from no labels does not pass. *)
Theorem check_annotation_needs_both_halves tc gl cl fl tl vl r :
  check_annotation tc (Annotation_init tc gl cl fl tl vl)
  = check_os tc (_validate_label fl) (_validate_label tl) (_validate_label vl)
    && check_device tc (_validate_label gl) (_validate_label cl)
  ∧ (valid_record tc r →
     (check_annotation tc r = true ↔ is_Some (group r) ∧ is_Some (os_family r)))
  ∧ check_annotation tc (Annotation_init tc PNone PNone PNone PNone PNone) = false.
Proof.
  split_and!.
  - unfold check_annotation, Annotation_init. rewrite set_annotation_fields.
    cbv zeta. simpl.
    destruct (check_device tc (_validate_label gl) (_validate_label cl)) eqn:Hcd,
      (check_os tc (_validate_label fl) (_validate_label tl) (_validate_label vl))
        eqn:Hco;
      cbn [group _class os_family os_type os_version blank];
      rewrite ?Hcd, ?Hco; reflexivity.
  - intros (_ & Hdev & Hos). unfold check_annotation. simpl. split.
    + destruct (check_os tc _ _ _) eqn:Hco; [|done].
      destruct (check_device tc _ _) eqn:Hcd; [|done]. intros _.
      apply check_os_known, known_pair_present in Hco.
      apply check_device_known, known_pair_present in Hcd. done.
    + intros [Hg Hf].
      destruct Hdev as [->|[Hn _]]; [|rewrite Hn in Hg; by destruct Hg].
      destruct Hos as [->|[Hn _]]; [done|rewrite Hn in Hf; by destruct Hf].
  - done.
Qed.

(** X5: the two halves of [set_annotation] are independent: the device
    fields do not depend on the OS labels given, nor the OS fields on the
    device labels; an OS pair the taxonomy does not know leaves the three OS
    fields as they were, absent in a constructed record, and a known pair
    writes the three validated labels. *)
Theorem taxonomy_downgrade tc r gl cl fl tl vl :
  (∀ fl' tl' vl',
     group (set_annotation tc r gl cl fl tl vl)
     = group (set_annotation tc r gl cl fl' tl' vl')
     ∧ _class (set_annotation tc r gl cl fl tl vl)
       = _class (set_annotation tc r gl cl fl' tl' vl'))
  ∧ (∀ gl' cl',
       os_family (set_annotation tc r gl cl fl tl vl)
       = os_family (set_annotation tc r gl' cl' fl tl vl)
       ∧ os_type (set_annotation tc r gl cl fl tl vl)
         = os_type (set_annotation tc r gl' cl' fl tl vl)
       ∧ os_version (set_annotation tc r gl cl fl tl vl)
         = os_version (set_annotation tc r gl' cl' fl tl vl))
  ∧ (¬ known_pair (os_tax tc) (_validate_label fl) (_validate_label tl) →
     os_family (set_annotation tc r gl cl fl tl vl) = os_family r
     ∧ os_type (set_annotation tc r gl cl fl tl vl) = os_type r
     ∧ os_version (set_annotation tc r gl cl fl tl vl) = os_version r
     ∧ os_family (Annotation_init tc gl cl fl tl vl) = None
     ∧ os_type (Annotation_init tc gl cl fl tl vl) = None
     ∧ os_version (Annotation_init tc gl cl fl tl vl) = None)
  ∧ (known_pair (os_tax tc) (_validate_label fl) (_validate_label tl) →
     os_family (set_annotation tc r gl cl fl tl vl) = _validate_label fl
     ∧ os_type (set_annotation tc r gl cl fl tl vl) = _validate_label tl
     ∧ os_version (set_annotation tc r gl cl fl tl vl) = _validate_label vl).
Proof.
  split_and!.
  - intros fl' tl' vl'. by rewrite !set_annotation_fields.
  - intros gl' cl'. by rewrite !set_annotation_fields.
  - intros Hno. unfold Annotation_init. rewrite !set_annotation_fields. cbv zeta.
    destruct (check_os tc (_validate_label fl) (_validate_label tl)
                (_validate_label vl)) eqn:Hco; [|done].
    by apply check_os_known in Hco.
  - intros Hk. rewrite set_annotation_fields. cbv zeta.
    apply (check_os_known tc _ _ (_validate_label vl)) in Hk. by rewrite Hk.
Qed.

Lemma taxonomy_downgrade_witness :
  Annotation_init
    {| os_tax := {["linux" := ["ubuntu"]]}; dev_tax := {["server" := ["web"]]} |}
    (PStr "Server") (PStr "web") (PStr "BeOS") (PStr "ubuntu") (PStr "5")
  = mkAnnotation (Some "server") (Some "web") None None None.
Proof.
  pose proof (taxonomy_downgrade
    {| os_tax := {["linux" := ["ubuntu"]]}; dev_tax := {["server" := ["web"]]} |}
    blank (PStr "Server") (PStr "web") (PStr "BeOS") (PStr "ubuntu") (PStr "5"))
    as (_ & _ & Hdown & _).
  destruct Hdown as (_ & _ & _ & Hf & Ht & Hv).
  { intros (s & l & Hs & Hl & _). vm_compute in Hs. simplify_eq. }
  reflexivity.
Defined.

Lemma lower_ascii_text u : ascii_text u = true → ascii_text (lower u) = true.
Proof.
  induction u as [|ch u IH]; simpl; [done|].
  intros [Hch Hu]%andb_true_iff. rewrite (IH Hu), andb_true_r.
  revert Hch. by destruct ch as [[] [] [] [] [] [] [] []].
Qed.

Lemma validate_label_str u s :
  _validate_label (PStr u) = Some s → s = lower u ∧ u ≠ "".
Proof.
  unfold _validate_label. simpl. destruct u as [|ch u]; simpl; [done|].
  by intros [= <-].
Qed.

(** X6: construction normalises ASCII labels, on which [lower] is
    [str.lower]: the record built from five ASCII strings is the one
    built from their lower-case forms; validation yields no label exactly
    for None, NaN, the empty string and numbers; every field a record
    constructed from ASCII strings holds is the lower-case form of one of
    the five strings, non-empty, ASCII, and equal to its own lower-case
    form. *)
Theorem constructor_normalises tc gs cs fs ts vs x attr_name s :
  ascii_text gs = true → ascii_text cs = true → ascii_text fs = true →
  ascii_text ts = true → ascii_text vs = true →
  Annotation_init tc (PStr gs) (PStr cs) (PStr fs) (PStr ts) (PStr vs)
  = Annotation_init tc (PStr (lower gs)) (PStr (lower cs)) (PStr (lower fs))
                    (PStr (lower ts)) (PStr (lower vs))
  ∧ (_validate_label x = None
     ↔ x = PNone ∨ x = PNaN ∨ x = PStr "" ∨ ∃ z, x = PInt z)
  ∧ (getattr (Annotation_init tc (PStr gs) (PStr cs) (PStr fs) (PStr ts) (PStr vs))
             attr_name = Some s →
     s ≠ "" ∧ lower s = s ∧ ascii_text s = true
     ∧ s ∈ [lower gs; lower cs; lower fs; lower ts; lower vs]).
Proof.
  intros Hgs Hcs Hfs Hts Hvs.
  assert (Hlow : ∀ u, _validate_label (PStr (lower u)) = _validate_label (PStr u)).
  { intros [|ch u]; simpl; [done|]. unfold _validate_label. simpl.
    by rewrite lower_ascii_idem, lower_idem. }
  split_and!.
  - unfold Annotation_init. rewrite !set_annotation_fields. cbv zeta.
    by rewrite !Hlow.
  - unfold _validate_label. destruct x as [| |u|z]; simpl.
    + split; auto.
    + split; auto.
    + destruct u as [|ch u]; simpl; [split; auto|].
      split; [done|]. intros [?|[?|[?|[z ?]]]]; done.
    + split; eauto.
  - intros Hget.
    destruct (Annotation_init_valid tc (PStr gs) (PStr cs) (PStr fs) (PStr ts)
                (PStr vs)) as [(Hg & Hc & Hf & Ht & Hv) _].
    assert (Hcan : canonical (Some s)).
    { rewrite <- Hget. unfold getattr.
      repeat (case_decide; [done|]). done. }
    assert (Hfrom : s ∈ [lower gs; lower cs; lower fs; lower ts; lower vs]).
    { revert Hget. unfold Annotation_init. rewrite set_annotation_fields.
      cbv zeta. unfold getattr.
      destruct (check_device tc (_validate_label (PStr gs)) (_validate_label (PStr cs))),
        (check_os tc (_validate_label (PStr fs)) (_validate_label (PStr ts))
           (_validate_label (PStr vs)));
        repeat case_decide;
        cbn [group _class os_family os_type os_version blank]; try done;
        intros [-> _]%validate_label_str; set_solver. }
    unfold canonical in Hcan. simpl in Hcan. unfold _validate_label in Hcan.
    simpl in Hcan. destruct s as [|ch u]; [done|]. simpl in Hcan.
    split_and!; [done|simpl; congruence| |done].
    repeat (apply elem_of_cons in Hfrom as [->|Hfrom]);
      [by apply lower_ascii_text..|by apply elem_of_nil in Hfrom].
Qed.

Lemma constructor_normalises_witness :
  "ubuntu" ≠ "" ∧ lower "ubuntu" = "ubuntu" ∧ ascii_text "ubuntu" = true
  ∧ "ubuntu" ∈ [lower ""; lower ""; lower "Linux"; lower "UBUNTU"; lower ""].
Proof.
  apply (constructor_normalises
           {| os_tax := {["linux" := ["ubuntu"]]}; dev_tax := ∅ |}
           "" "" "Linux" "UBUNTU" "" PNone "os_type" "ubuntu");
    reflexivity.
Defined.

(** ** The merge as a vote *)

Lemma distinct_one_all l x y : distinct l = 1%nat → x ∈ l → y ∈ l → x = y.
Proof.
  unfold distinct. intros Hd Hx%elem_of_remove_dups Hy%elem_of_remove_dups.
  destruct (remove_dups l) as [|z [|? ?]]; simplify_eq/=.
  apply list_elem_of_singleton in Hx, Hy. congruence.
Qed.

Lemma occurrences_all l x : (∀ y, y ∈ l → y = x) → occurrences x l = length l.
Proof.
  unfold occurrences. induction l as [|z l IH]; intros Hall; [done|].
  rewrite filter_cons. rewrite decide_True by (apply Hall; left). simpl.
  f_equal. apply IH. intros y Hy. apply Hall. by right.
Qed.

Lemma merged_value_unanimous tags m x :
  distinct (drop_absent tags) = 1%nat → x ∈ drop_absent tags →
  (m ≤ Z.of_nat (occurrences x (drop_absent tags)))%Z →
  merged_value tags m = x.
Proof.
  intros Hd Hx Hm. unfold merged_value, merge_annotation.
  rewrite (most_common_single _ x Hd Hx). simpl.
  by rewrite (proj2 (Z.leb_le _ _) Hm).
Qed.

Lemma merged_value_nonempty tags m x :
  merged_value tags m = x → x ≠ "" →
  distinct (drop_absent tags) = 1%nat ∧ x ∈ drop_absent tags
  ∧ (m ≤ Z.of_nat (occurrences x (drop_absent tags)))%Z.
Proof.
  unfold merged_value, merge_annotation.
  pose proof (most_common_length (drop_absent tags)) as Hlen.
  destruct (length (most_common (Counter (drop_absent tags))) =? 0)%nat eqn:H0;
    [simpl; congruence|].
  destruct ((length (most_common (Counter (drop_absent tags))) =? 1)%nat
            && _) eqn:H1; [|repeat case_match; simpl; congruence].
  apply andb_true_iff in H1 as [H1 Hm]. apply Nat.eqb_eq in H1.
  apply Z.leb_le in Hm. rewrite H1 in Hlen. symmetry in Hlen.
  assert (Hne : drop_absent tags ≠ []).
  { intros Hnil. rewrite Hnil in Hlen. done. }
  destruct (first_entry_occurs _ Hne) as (y & Hy & Hfirst).
  rewrite Hfirst in *. simpl. intros <- _. done.
Qed.

(** X7: soundness of the merge: a non-empty result is a value of the list,
    every present value of the list equals it, the threshold is at most the
    number of present values, and nothing is recorded; in every case one
    call records at most one audit entry. *)
Theorem merge_annotation_sound self tags m nat_check :
  ((merge_annotation self tags m nat_check).1 ≠ "" →
   (merge_annotation self tags m nat_check).1 ∈ drop_absent tags
   ∧ (∀ y, y ∈ drop_absent tags → y = (merge_annotation self tags m nat_check).1)
   ∧ (m ≤ Z.of_nat (length (drop_absent tags)))%Z
   ∧ (merge_annotation self tags m nat_check).2 = self)
  ∧ ∃ om md,
      (merge_annotation self tags m nat_check).2 = add_audit self om md
      ∧ (length om + length md ≤ 1)%nat.
Proof.
  rewrite merge_annotation_frame. cbn [fst snd]. split.
  - intros Hne.
    destruct (merged_value_nonempty tags m _ eq_refl Hne) as (Hd & Hin & Hm).
    assert (Hall : ∀ y, y ∈ drop_absent tags → y = merged_value tags m).
    { intros y Hy. by apply (distinct_one_all (drop_absent tags)). }
    split_and!; [done..| |].
    + by rewrite <- (occurrences_all _ _ Hall).
    + revert Hne. unfold merged_value, one_miss_of, multi_device_of, merge_annotation.
      repeat case_match; simpl; intros ?; try done; by rewrite add_audit_nil.
  - eexists _, _. split; [done|].
    unfold one_miss_of, multi_device_of, merge_annotation.
    repeat case_match; simpl; lia.
Qed.

Lemma merge_annotation_sound_witness :
  "linux" ∈ drop_absent [Some "linux"; None; Some "linux"]
  ∧ (∀ y, y ∈ drop_absent [Some "linux"; None; Some "linux"] → y = "linux")
  ∧ (2 ≤ Z.of_nat (length (drop_absent [Some "linux"; None; Some "linux"])))%Z
  ∧ (merge_annotation probe [Some "linux"; None; Some "linux"] 2 true).2 = probe.
Proof.
  apply (proj1 (merge_annotation_sound probe [Some "linux"; None; Some "linux"] 2 true)).
  vm_compute. discriminate.
Defined.

(** X9: the threshold is monotone: a value that wins at a threshold wins at
    every lower one, a merge that fails at a threshold fails at every higher
    one, and any winner is the winner at threshold 1. *)
Theorem merged_value_threshold tags m m' :
  (m' ≤ m)%Z →
  (merged_value tags m ≠ "" → merged_value tags m' = merged_value tags m)
  ∧ (merged_value tags m' = "" → merged_value tags m = "")
  ∧ (merged_value tags m = "" ∨ merged_value tags m = merged_value tags 1).
Proof.
  intros Hle.
  assert (Hmono : ∀ hi lo : Z, (lo ≤ hi)%Z → merged_value tags hi ≠ "" →
                               merged_value tags lo = merged_value tags hi).
  { intros hi lo Hab Hne.
    destruct (merged_value_nonempty tags hi _ eq_refl Hne) as (Hd & Hin & Hm).
    apply merged_value_unanimous; [done..|lia]. }
  split_and!.
  - by apply Hmono.
  - intros Hm'. destruct (decide (merged_value tags m = "")) as [?|Hne]; [done|].
    rewrite <- (Hmono m m' Hle Hne). done.
  - destruct (decide (merged_value tags m = "")) as [?|Hne]; [by left|right].
    destruct (merged_value_nonempty tags m _ eq_refl Hne) as (Hd & Hin & Hm).
    symmetry. apply merged_value_unanimous; [done..|].
    apply occurrences_pos in Hin. lia.
Qed.

Lemma merged_value_threshold_witness :
  merged_value [Some "a"; Some "a"; Some "a"] 2
  = merged_value [Some "a"; Some "a"; Some "a"] 3.
Proof.
  apply (proj1 (merged_value_threshold [Some "a"; Some "a"; Some "a"] 3 2
                  ltac:(lia))).
  vm_compute. discriminate.
Defined.

Lemma occurrences_perm x l l' : l ≡ₚ l' → occurrences x l = occurrences x l'.
Proof. unfold occurrences. by intros ->. Qed.

Lemma most_common_table_perm l l' :
  l ≡ₚ l' → most_common (Counter l) ≡ₚ most_common (Counter l').
Proof.
  intros Hp.
  assert (Hnd : ∀ k, NoDup (most_common (Counter k))).
  { intros k. apply (NoDup_fmap_1 fst). rewrite most_common_perm.
    apply Counter_keys_NoDup. }
  apply NoDup_Permutation; [apply Hnd..|]. intros [x n].
  rewrite !most_common_entries, (occurrences_perm x l l' Hp). by rewrite Hp.
Qed.

Lemma counts_sorted l : StronglySorted (λ n1 n2 : nat, n2 ≤ n1)%nat (counts l).
Proof.
  unfold counts. eapply StronglySorted_fmap; [|apply most_common_sorted].
  by intros [? ?] [? ?].
Qed.

Lemma counts_perm l l' : l ≡ₚ l' → counts l = counts l'.
Proof.
  intros Hp. apply (StronglySorted_unique_strong (λ n1 n2 : nat, n2 ≤ n1)%nat);
    [intros; lia|apply counts_sorted..|].
  unfold counts. by rewrite (most_common_table_perm l l' Hp).
Qed.

Lemma last_entry_counts l :
  (last_entry (most_common (Counter l))).2 = List.last (counts l) 0%nat.
Proof.
  unfold last_entry, counts. generalize (most_common (Counter l)). intros tbl.
  induction tbl as [|p [|q tbl] IH]; [done..|]. exact IH.
Qed.

Lemma first_entry_counts l :
  (first_entry (most_common (Counter l))).2 = hd 0%nat (counts l).
Proof. unfold first_entry, counts. by destruct (most_common (Counter l)). Qed.

Lemma length_counts l : length (most_common (Counter l)) = length (counts l).
Proof. unfold counts. by rewrite length_fmap. Qed.

Lemma distinct_perm l l' : l ≡ₚ l' → distinct l = distinct l'.
Proof.
  intros Hp. by rewrite <- !most_common_length, !length_counts, (counts_perm l l').
Qed.

Lemma merged_value_perm tags tags' m :
  tags ≡ₚ tags' → merged_value tags m = merged_value tags' m.
Proof.
  intros Hp.
  assert (Hl : drop_absent tags ≡ₚ drop_absent tags')
    by (unfold drop_absent; by rewrite Hp).
  destruct (decide (merged_value tags m = "")) as [He|Hne].
  - destruct (decide (merged_value tags' m = "")) as [He'|Hne']; [congruence|].
    destruct (merged_value_nonempty tags' m _ eq_refl Hne') as (Hd & Hin & Hm).
    rewrite <- Hl in Hin. rewrite <- (occurrences_perm _ _ _ Hl) in Hm.
    apply merged_value_unanimous; [|done..].
    rewrite <- Hd. by apply distinct_perm.
  - destruct (merged_value_nonempty tags m _ eq_refl Hne) as (Hd & Hin & Hm).
    rewrite Hl in Hin. rewrite (occurrences_perm _ _ _ Hl) in Hm.
    symmetry. apply merged_value_unanimous; [|done..].
    rewrite <- Hd. by apply distinct_perm.
Qed.

(** X8: the merge does not depend on the order of the candidates: permuting
    the value list gives the same result, [one_miss] entries that hold the
    same counts up to order, and as many [multi_device] entries. *)
Theorem merge_annotation_order_irrelevant tags tags' m nat_check :
  tags ≡ₚ tags' →
  merged_value tags m = merged_value tags' m
  ∧ Forall2 (≡ₚ) (one_miss_of tags m) (one_miss_of tags' m)
  ∧ length (multi_device_of tags m nat_check)
    = length (multi_device_of tags' m nat_check).
Proof.
  intros Hp.
  assert (Hl : drop_absent tags ≡ₚ drop_absent tags')
    by (unfold drop_absent; by rewrite Hp).
  pose proof (counts_perm _ _ Hl) as Hc.
  pose proof (most_common_table_perm _ _ Hl) as Ht.
  split_and!.
  - by apply merged_value_perm.
  - unfold one_miss_of, merge_annotation.
    rewrite !first_entry_counts, !last_entry_counts, !length_counts, Hc.
    repeat case_match; simpl; try done. by repeat constructor.
  - unfold multi_device_of, merge_annotation.
    rewrite !first_entry_counts, !last_entry_counts, !length_counts, Hc.
    by repeat case_match.
Qed.

Lemma merge_annotation_order_irrelevant_witness :
  merged_value [Some "a"; Some "b"; Some "a"] 2
  = merged_value [Some "b"; Some "a"; Some "a"] 2.
Proof.
  apply (merge_annotation_order_irrelevant
           [Some "a"; Some "b"; Some "a"] [Some "b"; Some "a"; Some "a"] 2 true).
  apply Permutation_swap.
Defined.

Lemma dict_lookup_perm {V : Type} (d d' : list (string * V)) k :
  NoDup d.*1 → d ≡ₚ d' → dict_lookup k d = dict_lookup k d'.
Proof.
  intros Hnd Hp. assert (Hnd' : NoDup d'.*1) by (by rewrite <- Hp).
  apply option_eq. intros x.
  by rewrite <- !dict_lookup_elem, Hp by done.
Qed.

(** X10: fusion does not depend on the order in which the annotators stored
    their candidates: two entries with the same candidates in another order,
    names distinct, and the same previous final record get the same final
    record, and the same [hand_miss] entries are appended. *)
Theorem perform_annotation_order_irrelevant tc e e' m :
  annotations e ≡ₚ annotations e' → NoDup (annotations e).*1 →
  final_annotation e = final_annotation e' →
  final_annotation (perform_annotation tc e m)
  = final_annotation (perform_annotation tc e' m)
  ∧ ∃ hm, hand_miss (perform_annotation tc e m) = hand_miss e ++ hm
          ∧ hand_miss (perform_annotation tc e' m) = hand_miss e' ++ hm.
Proof.
  intros Hp Hnd Hfin.
  assert (Htags : ∀ proj, merged_value (field_tags proj e) m
                          = merged_value (field_tags proj e') m).
  { intros proj. apply merged_value_perm.
    unfold field_tags, dict_values. by rewrite Hp. }
  assert (Hfused : final_annotation (fuse tc e m) = final_annotation (fuse tc e' m)).
  { rewrite !fuse_frame. cbn [final_annotation with_final].
    by rewrite !Htags, Hfin. }
  pose proof (dict_lookup_perm _ _ "hand_annotator" Hnd Hp) as Hhand.
  unfold perform_annotation.
  destruct (dict_lookup "hand_annotator" (annotations e)) as [hand|] eqn:Hl.
  - rewrite (hand_override_fields (fuse tc e m) hand)
      by (by rewrite fuse_annotations).
    rewrite (hand_override_fields (fuse tc e' m) hand)
      by (by rewrite fuse_annotations).
    cbn [final_annotation hand_miss]. rewrite Hfused. split; [done|].
    rewrite !fuse_frame. cbn [hand_miss with_final add_audit final_annotation].
    eexists. split; reflexivity.
  - unfold hand_override. rewrite !fuse_annotations, <- Hhand, Hl.
    split; [done|]. exists []. rewrite !fuse_frame. simpl.
    by rewrite !app_nil_r.
Qed.

Lemma perform_annotation_order_irrelevant_witness :
  final_annotation
    (perform_annotation {| os_tax := {["linux" := []]}; dev_tax := ∅ |}
       (mkIP (IPv4Address 1) blank
          [("a", mkAnnotation None None (Some "linux") None None);
           ("b", mkAnnotation None None (Some "linux") None None)] [] [] [] []) 2)
  = final_annotation
      (perform_annotation {| os_tax := {["linux" := []]}; dev_tax := ∅ |}
         (mkIP (IPv4Address 1) blank
            [("b", mkAnnotation None None (Some "linux") None None);
             ("a", mkAnnotation None None (Some "linux") None None)] [] [] [] []) 2).
Proof.
  apply (perform_annotation_order_irrelevant
           {| os_tax := {["linux" := []]}; dev_tax := ∅ |}
           (mkIP (IPv4Address 1) blank
              [("a", mkAnnotation None None (Some "linux") None None);
               ("b", mkAnnotation None None (Some "linux") None None)] [] [] [] [])
           (mkIP (IPv4Address 1) blank
              [("b", mkAnnotation None None (Some "linux") None None);
               ("a", mkAnnotation None None (Some "linux") None None)] [] [] [] [])
           2).
  - apply Permutation_swap.
  - simpl. apply NoDup_cons. split; [|apply NoDup_singleton].
    intros Hin%list_elem_of_singleton. discriminate.
  - reflexivity.
Defined.

(** ** Fusion: empty input, hand precedence, provenance *)

Lemma drop_absent_nil (tags : list (option string)) :
  (∀ x, x ∈ tags → truthy x = false) → drop_absent tags = [].
Proof.
  unfold drop_absent. induction tags as [|x tags IH]; intros Hall; [done|].
  simpl. rewrite (Hall x) by left. apply IH. intros y Hy. apply Hall. by right.
Qed.

Lemma merge_nothing tags m nat_check :
  drop_absent tags = [] →
  merged_value tags m = "" ∧ one_miss_of tags m = []
  ∧ multi_device_of tags m nat_check = [].
Proof.
  intros Hnil. unfold merged_value, one_miss_of, multi_device_of, merge_annotation.
  by rewrite Hnil.
Qed.

Lemma set_annotation_absent tc r :
  set_annotation tc r (PStr "") (PStr "") (PStr "") (PStr "") (PStr "") = r.
Proof. by destruct r. Qed.

Lemma pick_falsy h x : truthy h = false → pick h x = x ∧ ∀ n, miss n h x = [].
Proof. intros Ht. unfold pick, miss. by rewrite Ht. Qed.

(** X11: without evidence fusion changes nothing: when every candidate of an
    entry is empty, [perform_annotation] returns the entry as it was, final
    record and audit lists included. *)
Theorem perform_annotation_without_evidence tc e m :
  Forall (λ kv, is_empty kv.2 = true) (annotations e) →
  perform_annotation tc e m = e.
Proof.
  intros Hempty.
  assert (Hfield : ∀ proj : Annotation → option string,
            (∀ r, is_empty r = true → truthy (proj r) = false) →
            drop_absent (field_tags proj e) = []).
  { intros proj Hproj. apply drop_absent_nil. intros x Hx.
    unfold field_tags, dict_values in Hx.
    apply list_elem_of_fmap in Hx as (r & -> & Hr).
    apply list_elem_of_fmap in Hr as ([k r'] & -> & Hin).
    apply Hproj. by apply (proj1 (Forall_forall _ _) Hempty _ Hin). }
  assert (Hg := Hfield group ltac:(by intros r (? & ? & ? & ? & ?)%is_empty_fields)).
  assert (Hc := Hfield _class ltac:(by intros r (? & ? & ? & ? & ?)%is_empty_fields)).
  assert (Hf := Hfield os_family ltac:(by intros r (? & ? & ? & ? & ?)%is_empty_fields)).
  assert (Ht := Hfield os_type ltac:(by intros r (? & ? & ? & ? & ?)%is_empty_fields)).
  assert (Hv := Hfield os_version ltac:(by intros r (? & ? & ? & ? & ?)%is_empty_fields)).
  assert (Hfuse : fuse tc e m = e).
  { rewrite fuse_frame.
    destruct (merge_nothing _ m true Hg) as (-> & -> & ->).
    destruct (merge_nothing _ m true Hc) as (-> & -> & _).
    destruct (merge_nothing _ m true Hf) as (-> & -> & ->).
    destruct (merge_nothing _ m true Ht) as (-> & -> & ->).
    destruct (merge_nothing _ m true Hv) as (-> & -> & _).
    rewrite set_annotation_absent. simpl. rewrite add_audit_nil. by destruct e. }
  unfold perform_annotation. rewrite Hfuse.
  destruct (dict_lookup "hand_annotator" (annotations e)) as [hand|] eqn:Hl;
    [|unfold hand_override; by rewrite Hl].
  rewrite (hand_override_fields e hand Hl).
  assert (Hh : is_empty hand = true).
  { apply dict_lookup_values in Hl. unfold dict_values in Hl.
    apply list_elem_of_fmap in Hl as ([k x] & -> & Hin).
    by apply (proj1 (Forall_forall _ _) Hempty _ Hin). }
  apply is_empty_fields in Hh as (H1 & H2 & H3 & H4 & H5).
  destruct (pick_falsy _ (group (final_annotation e)) H1) as [-> ->].
  destruct (pick_falsy _ (_class (final_annotation e)) H2) as [-> ->].
  destruct (pick_falsy _ (os_family (final_annotation e)) H3) as [-> ->].
  destruct (pick_falsy _ (os_type (final_annotation e)) H4) as [-> ->].
  destruct (pick_falsy _ (os_version (final_annotation e)) H5) as [-> ->].
  rewrite !app_nil_r. destruct e as [? [] ? ? ? ? ?]. done.
Qed.

Lemma perform_annotation_without_evidence_witness :
  perform_annotation {| os_tax := ∅; dev_tax := ∅ |}
    (mkIP (IPv4Address 1) blank [("mac_annotator", blank)] [] [] [] []) 2
  = mkIP (IPv4Address 1) blank [("mac_annotator", blank)] [] [] [] [].
Proof.
  apply (perform_annotation_without_evidence {| os_tax := ∅; dev_tax := ∅ |}).
  apply Forall_cons. split; [reflexivity|constructor].
Defined.

Lemma pick_truthy h x : truthy h = true → pick h x = h.
Proof.
  intros Ht. destruct (pick_cases h x) as [[-> _]|[Hp [Hf|Heq]]];
    [done|congruence|by rewrite Hp].
Qed.

Lemma miss_fresh tags m h attr_name (passed : bool) en :
  h ∈ tags → canonical h →
  en ∈ miss attr_name h
         (if passed then _validate_label (PStr (merged_value tags m)) else None) →
  en.2 = None.
Proof.
  intros Hin Hcan. unfold miss.
  destruct (truthy h && _) eqn:Hcond; [|by intros ?%elem_of_nil].
  intros ->%list_elem_of_singleton. simpl.
  destruct passed; [|done].
  apply andb_true_iff in Hcond as [Ht Hne].
  apply negb_true_iff, bool_decide_eq_false in Hne.
  destruct (_validate_label (PStr (merged_value tags m))) as [y|] eqn:Hv; [|done].
  destruct h as [s|]; [|done]. exfalso. apply Hne. rewrite <- Hv.
  symmetry. apply validated_merge_is_hand; [done..|]. rewrite Hv. eauto.
Qed.

Lemma hand_field_prevails tc e m hand attr_name :
  dict_lookup "hand_annotator" (annotations e) = Some hand →
  attr_name ∈ attr_names → truthy (getattr hand attr_name) = true →
  getattr (final_annotation (perform_annotation tc e m)) attr_name
  = getattr hand attr_name.
Proof.
  intros Hl Hin Ht. unfold perform_annotation.
  assert (H1 : dict_lookup "hand_annotator" (annotations (fuse tc e m)) = Some hand)
    by (by rewrite fuse_annotations).
  rewrite (hand_override_fields _ hand H1). cbn [final_annotation hand_miss].
  unfold attr_names in Hin.
  repeat (apply elem_of_cons in Hin as [->|Hin]); [..|by apply elem_of_nil in Hin];
    apply (pick_truthy _ _ Ht).
Qed.

Lemma miss_entry attr_name h x en :
  en ∈ miss attr_name h x → en.1.1 = attr_name ∧ h = Some en.1.2 ∧ en.2 = x.
Proof.
  unfold miss. destruct (truthy h && _) eqn:Hcond; [|by intros ?%elem_of_nil].
  intros ->%list_elem_of_singleton. apply andb_true_iff in Hcond as [Ht _].
  by destruct h.
Qed.

(** X12: what [hand_miss] records on a fresh entry: with a valid hand record
    and a blank previous final record, every entry [perform_annotation]
    appends names one of the five attributes, carries the hand value of that
    attribute and has no previous value, the hand record being one of the
    voters; at most five entries are appended. *)
Theorem hand_miss_records_absent_values tc e m hand :
  dict_lookup "hand_annotator" (annotations e) = Some hand →
  final_annotation e = blank → valid_record tc hand →
  ∃ appended,
    hand_miss (perform_annotation tc e m) = hand_miss e ++ appended
    ∧ (∀ en, en ∈ appended →
         en.2 = None ∧ en.1.1 ∈ attr_names
         ∧ getattr hand en.1.1 = Some en.1.2)
    ∧ (length appended ≤ 5)%nat.
Proof.
  intros Hl Hblank (Hcan & _). unfold perform_annotation.
  assert (H1 : dict_lookup "hand_annotator" (annotations (fuse tc e m)) = Some hand)
    by (by rewrite fuse_annotations).
  rewrite (hand_override_fields _ hand H1). cbn [final_annotation hand_miss].
  destruct Hcan as (Hg & Hc & Hf & Ht & Hv).
  assert (Htags : ∀ proj, proj hand ∈ field_tags proj e).
  { intros proj. unfold field_tags. apply list_elem_of_fmap_2.
    by eapply dict_lookup_values. }
  rewrite fuse_frame, Hblank. cbn [final_annotation hand_miss with_final add_audit].
  rewrite set_annotation_fields. cbv zeta.
  cbn [group _class os_family os_type os_version blank].
  eexists. split; [reflexivity|]. split.
  - intros en Hen.
    repeat (apply elem_of_app in Hen as [Hen|Hen]);
      (split; [eapply miss_fresh; try exact Hen; auto|]);
      apply miss_entry in Hen as (Hname & Hval & _); rewrite Hname;
      (split; [attr_in|rewrite <- Hval; reflexivity]).
  - rewrite !length_app. unfold miss. repeat case_match; simpl; lia.
Qed.

Lemma hand_miss_records_absent_values_witness :
  ∃ appended,
    hand_miss
      (perform_annotation
         {| os_tax := {["linux" := []; "windows" := []]}; dev_tax := ∅ |}
         (mkIP (IPv4Address 1) blank
            [("a", mkAnnotation None None (Some "linux") None None);
             ("b", mkAnnotation None None (Some "linux") None None);
             ("hand_annotator", mkAnnotation None None (Some "windows") None None)]
            [] [] [] []) 2)
    = [] ++ appended
    ∧ (∀ en, en ∈ appended →
         en.2 = None ∧ en.1.1 ∈ attr_names
         ∧ getattr (mkAnnotation None None (Some "windows") None None) en.1.1
           = Some en.1.2)
    ∧ (length appended ≤ 5)%nat.
Proof.
  apply (hand_miss_records_absent_values
           {| os_tax := {["linux" := []; "windows" := []]}; dev_tax := ∅ |}
           (mkIP (IPv4Address 1) blank
              [("a", mkAnnotation None None (Some "linux") None None);
               ("b", mkAnnotation None None (Some "linux") None None);
               ("hand_annotator", mkAnnotation None None (Some "windows") None None)]
              [] [] [] []) 2
           (mkAnnotation None None (Some "windows") None None)).
  - reflexivity.
  - reflexivity.
  - vm_compute. tauto.
Defined.

Lemma dict_lookup_In {V : Type} (d : list (string * V)) k x :
  dict_lookup k d = Some x → (k, x) ∈ d.
Proof.
  induction d as [|[k0 x0] d IH]; simpl; [done|].
  destruct (decide (k = k0)) as [->|?]; [intros [= ->]; left|intros ?; right; auto].
Qed.

(** A field of the fused record, before or after the override, is the
    old field, or the lower-cased value of some candidate. *)
Lemma field_source e m (proj : Annotation → option string) (passed : bool) x :
  match dict_lookup "hand_annotator" (annotations e) with
  | Some hand =>
      pick (proj hand)
           (if passed
            then _validate_label (PStr (merged_value (field_tags proj e) m))
            else proj (final_annotation e))
  | None =>
      if passed
      then _validate_label (PStr (merged_value (field_tags proj e) m))
      else proj (final_annotation e)
  end = Some x →
  proj (final_annotation e) = Some x
  ∨ ∃ name cand y, (name, cand) ∈ annotations e ∧ proj cand = Some y
                   ∧ (x = y ∨ x = lower y).
Proof.
  assert (Hfused : (if passed
            then _validate_label (PStr (merged_value (field_tags proj e) m))
            else proj (final_annotation e)) = Some x →
    proj (final_annotation e) = Some x
    ∨ ∃ name cand y, (name, cand) ∈ annotations e ∧ proj cand = Some y
                     ∧ (x = y ∨ x = lower y)).
  { destruct passed; [|by left]. intros Hv. right.
    unfold _validate_label in Hv. simpl in Hv.
    destruct (String.length _ =? 0)%nat eqn:Hlen; [done|]. simplify_eq.
    assert (Hne : merged_value (field_tags proj e) m ≠ "").
    { intros Heq. by rewrite Heq in Hlen. }
    destruct (merged_value_nonempty _ m _ eq_refl Hne) as (_ & Hin & _).
    apply drop_absent_elem in Hin as [Hin _]. unfold field_tags, dict_values in Hin.
    apply list_elem_of_fmap in Hin as (cand & Hc & Hin).
    apply list_elem_of_fmap in Hin as ([name cand'] & -> & Hin).
    exists name, cand', (merged_value (field_tags proj e) m). auto. }
  destruct (dict_lookup "hand_annotator" (annotations e)) as [hand|] eqn:Hl; [|done].
  destruct (pick_cases (proj hand)
              (if passed
               then _validate_label (PStr (merged_value (field_tags proj e) m))
               else proj (final_annotation e))) as [[-> _]|[-> _]]; [|done].
  intros Hh. right. exists "hand_annotator", hand, x.
  split_and!; [by apply dict_lookup_In|done|by left].
Qed.

Lemma perform_annotation_final tc e m :
  ∃ dev os : bool,
    final_annotation (perform_annotation tc e m)
    = let over (proj : Annotation → option string) (passed : bool) :=
        match dict_lookup "hand_annotator" (annotations e) with
        | Some hand =>
            pick (proj hand)
                 (if passed
                  then _validate_label (PStr (merged_value (field_tags proj e) m))
                  else proj (final_annotation e))
        | None =>
            if passed
            then _validate_label (PStr (merged_value (field_tags proj e) m))
            else proj (final_annotation e)
        end in
      mkAnnotation (over group dev) (over _class dev) (over os_family os)
                   (over os_type os) (over os_version os).
Proof.
  unfold perform_annotation.
  destruct (dict_lookup "hand_annotator" (annotations e)) as [hand|] eqn:Hl.
  - rewrite (hand_override_fields _ hand) by (by rewrite fuse_annotations).
    cbn [final_annotation]. rewrite fuse_frame. cbn [final_annotation with_final].
    rewrite set_annotation_fields. cbv zeta.
    cbn [group _class os_family os_type os_version]. by eexists _, _.
  - unfold hand_override. rewrite fuse_annotations, Hl, fuse_frame.
    cbn [final_annotation with_final]. rewrite set_annotation_fields. cbv zeta.
    by eexists _, _.
Qed.

(** X13: fusion invents no label: a value of the final record after
    [perform_annotation] was in the previous final record under that
    attribute, or is the value, or the lower-case form of the value, that
    some candidate holds under that attribute. *)
Theorem final_values_come_from_candidates tc e m attr_name x :
  attr_name ∈ attr_names →
  getattr (final_annotation (perform_annotation tc e m)) attr_name = Some x →
  getattr (final_annotation e) attr_name = Some x
  ∨ ∃ name cand y, (name, cand) ∈ annotations e
                   ∧ getattr cand attr_name = Some y
                   ∧ (x = y ∨ x = lower y).
Proof.
  intros Hin. destruct (perform_annotation_final tc e m) as (dev & os & ->).
  cbv zeta. unfold attr_names in Hin.
  repeat (apply elem_of_cons in Hin as [->|Hin]); [..|by apply elem_of_nil in Hin].
  - exact (field_source e m group dev x).
  - exact (field_source e m _class dev x).
  - exact (field_source e m os_family os x).
  - exact (field_source e m os_type os x).
  - exact (field_source e m os_version os x).
Qed.

Lemma final_values_come_from_candidates_witness :
  getattr (final_annotation (mkIP (IPv4Address 1) blank
             [("a", mkAnnotation None None (Some "linux") None None)] [] [] [] []))
          "os_family" = Some "linux"
  ∨ ∃ name cand y,
      (name, cand) ∈ [("a", mkAnnotation None None (Some "linux") None None)]
      ∧ getattr cand "os_family" = Some y ∧ ("linux" = y ∨ "linux" = lower y).
Proof.
  apply (final_values_come_from_candidates
           {| os_tax := {["linux" := []]}; dev_tax := ∅ |}
           (mkIP (IPv4Address 1) blank
              [("a", mkAnnotation None None (Some "linux") None None)] [] [] [] [])
           1 "os_family" "linux").
  - unfold attr_names. do 2 right. left.
  - reflexivity.
Defined.

(** ** Loading *)

(** X14: [IP.load] sanitises: a loaded object holds valid records only,
    final record and candidates; its address is the parsed address text;
    evidence, [hand_miss] and [one_miss] are taken as given, empty when
    missing; the candidate names are kept in order; [multi_device] is the
    list given, or an empty dict when the key is missing, and only then is
    the object no entry with a list of [multi_device] entries; an object
    that is one is a valid entry, and exporting and loading it again gives
    the same object when the address prints to text that parses back to
    it. *)
Theorem IP_load_sanitises tc (ip_str : ip_address → string)
    (ip_parse : string → option ip_address) d l :
  IP_load tc ip_parse d = Some l →
  valid_record tc (l_final_annotation l)
  ∧ Forall (λ kv, valid_record tc kv.2) (l_annotations l)
  ∧ (∃ text, d_ip_addr d = Some text ∧ ip_parse text = Some (l_ip_addr l))
  ∧ l_data l = default [] (d_data d)
  ∧ l_hand_miss l = default [] (d_hand_miss d)
  ∧ l_one_miss l = default [] (d_one_miss d)
  ∧ l_multi_device l = match d_multi_device d with
                       | Some entries => MultiDeviceList entries
                       | None => MultiDeviceEmptyDict
                       end
  ∧ (l_annotations l).*1 = (default [] (d_annotations d)).*1
  ∧ (as_IP l = None ↔ d_multi_device d = None)
  ∧ (∀ e, as_IP l = Some e →
       valid_entry tc e
       ∧ (ip_parse (ip_str (ip_addr e)) = Some (ip_addr e) →
          IP_load tc ip_parse (IP_export ip_str e) = Some l)).
Proof.
  unfold IP_load, IP_init. intros Hload.
  destruct (d_ip_addr d) as [text|] eqn:Htext; [|done]. simpl in Hload.
  destruct (ip_parse text) as [addr|] eqn:Haddr; [|done]. simpl in Hload.
  destruct (d_final_annotation d) as [fin|] eqn:Hfin; [|done]. simpl in Hload.
  injection Hload as <-.
  cbn [l_ip_addr l_data l_hand_miss l_one_miss l_multi_device l_annotations
       l_final_annotation].
  assert (Hfinal : valid_record tc (Annotation_load tc fin))
    by apply Annotation_init_valid.
  assert (Hcands : Forall (λ kv, valid_record tc kv.2)
            (prod_map id (Annotation_load tc) <$> default [] (d_annotations d))).
  { apply Forall_fmap, Forall_forall. intros [k x] _. simpl.
    apply Annotation_init_valid. }
  split_and!; try done.
  - by exists text.
  - rewrite <- list_fmap_compose. by apply list_fmap_ext; intros ? [? ?].
  - unfold as_IP. simpl. by destruct (d_multi_device d).
  - intros e He. unfold as_IP in He. simpl in He.
    destruct (d_multi_device d) as [entries|]; [|done]. injection He as <-.
    split; [by split|]. simpl. intros Hip.
    unfold IP_export. simpl. rewrite Hip. simpl.
    rewrite (Annotation_round_trip tc _ Hfinal).
    by rewrite (candidates_round_trip tc _ Hcands).
Qed.

Lemma IP_load_sanitises_witness :
  let tc := {| os_tax := {["linux" := ["ubuntu"]]}; dev_tax := ∅ |} in
  let ip_parse := λ text : string,
                    if decide (text = "1.2.3.4") then Some (IPv4Address 16909060)
                    else None in
  let d := mkIP_dict (Some "1.2.3.4")
             (Some {["os_family" := PStr "BeOS"; "os_type" := PStr "ubuntu"]})
             (Some [("x", {["group" := PStr "Server"]})]) None None None None in
  let l := mkLoadedIP (IPv4Address 16909060) blank [("x", blank)] [] [] []
                      MultiDeviceEmptyDict in
  IP_load tc ip_parse d = Some l
  ∧ valid_record tc (l_final_annotation l)
  ∧ l_multi_device l = MultiDeviceEmptyDict
  ∧ (as_IP l = None ↔ d_multi_device d = None).
Proof.
  intros tc ip_parse d l.
  assert (Hload : IP_load tc ip_parse d = Some l) by (vm_compute; reflexivity).
  destruct (IP_load_sanitises tc (λ _, "1.2.3.4") ip_parse d l Hload)
    as (Hfinal & _ & _ & _ & _ & _ & Hmd & _ & Hiff & _).
  split; [exact Hload|]. split; [exact Hfinal|]. split; [exact Hmd|exact Hiff].
Defined.

(** ** The most common value *)

Lemma Counter_keys_app l k : ∃ more, (Counter (l ++ k)).*1 = (Counter l).*1 ++ more.
Proof.
  induction k as [|y k IH] using rev_ind.
  - exists []. by rewrite !app_nil_r.
  - destruct IH as [more IH]. rewrite app_assoc, Counter_snoc, counter_add_keys, IH.
    destruct (decide _); [by exists more|]. exists (more ++ [y]).
    by rewrite app_assoc.
Qed.

(** The table of [Counter] lists the values in the order of their first
    occurrence. *)
Lemma Counter_first_occurrence l1 x l2 :
  x ∉ l1 →
  ∃ before n after, Counter (l1 ++ x :: l2) = before ++ (x, n) :: after
             ∧ ∀ p, p ∈ before → p.1 ∈ l1.
Proof.
  intros Hx.
  destruct (Counter_keys_app (l1 ++ [x]) l2) as [more Hk].
  rewrite <- app_assoc in Hk. simpl in Hk.
  rewrite Counter_snoc, counter_add_keys in Hk.
  rewrite decide_False in Hk by (by rewrite Counter_keys).
  rewrite <- app_assoc in Hk. simpl in Hk.
  apply fmap_app_inv in Hk as (before & after' & Hbef & Haft & Hc).
  symmetry in Haft. apply fmap_cons_inv in Haft as ([x' n] & after & Hx' & _ & ->).
  simpl in Hx'. subst x'. exists before, n, after. split; [done|].
  intros p Hp. apply (Counter_keys l1). rewrite Hbef. by apply list_elem_of_fmap_2.
Qed.

(** A stable descending sort puts first the first entry of greatest
    count. *)
Lemma most_common_head before p after :
  (∀ q, q ∈ before → (q.2 < p.2)%nat) → (∀ q, q ∈ after → (q.2 ≤ p.2)%nat) →
  first_entry (most_common (before ++ p :: after)) = p.
Proof.
  intros H1 H2. induction before as [|q before IH]; simpl.
  - destruct (most_common after) as [|q' k] eqn:Hmc; [done|]. simpl.
    assert (Hq' : q' ∈ after).
    { apply (elem_of_Permutation_proper _ _ _ (most_common_perm after)).
      rewrite Hmc. left. }
    apply H2 in Hq'. by rewrite (proj2 (Nat.ltb_ge _ _)) by lia.
  - assert (IHc : first_entry (most_common (before ++ p :: after)) = p).
    { apply IH. intros q' Hq'. apply H1. by right. }
    destruct (most_common (before ++ p :: after)) as [|q' k] eqn:Hmc.
    + pose proof (most_common_perm (before ++ p :: after)) as Hp. rewrite Hmc in Hp.
      apply Permutation_nil in Hp. by destruct before.
    + unfold first_entry in IHc. simpl in IHc. subst q'. simpl.
      by rewrite (proj2 (Nat.ltb_lt _ _)) by (apply H1; left).
Qed.

(** X15: [get_most_common]: None on the empty list; on a non-empty list a
    value of the list that no other value outnumbers; and among the values
    with the highest count the one that occurs first in the list. *)
Theorem get_most_common_picks lst :
  get_most_common [] = None
  ∧ (lst ≠ [] →
     ∃ x, get_most_common lst = Some x ∧ x ∈ lst
          ∧ ∀ y, (occurrences y lst ≤ occurrences x lst)%nat)
  ∧ (∀ l1 x l2,
       lst = l1 ++ x :: l2 → x ∉ l1 →
       (∀ y, y ∈ l1 → (occurrences y lst < occurrences x lst)%nat) →
       (∀ y, (occurrences y lst ≤ occurrences x lst)%nat) →
       get_most_common lst = Some x).
Proof.
  split_and!; [done| |].
  - intros Hne. unfold get_most_common.
    destruct lst as [|z lst]; [done|]. simpl length. simpl Nat.eqb. cbv iota.
    destruct (first_entry_occurs (z :: lst) Hne) as (x & Hx & Hfirst).
    exists x. rewrite Hfirst. split_and!; [done..|]. intros y.
    destruct (decide (y ∈ z :: lst)) as [Hy|Hy];
      [|apply (not_iff_compat (occurrences_pos y (z :: lst))) in Hy; lia].
    pose proof (most_common_sorted (Counter (z :: lst))) as Hs.
    assert (Hin : (y, occurrences y (z :: lst)) ∈ most_common (Counter (z :: lst)))
      by (by apply most_common_entries).
    destruct (most_common (Counter (z :: lst))) as [|p k]; [by apply elem_of_nil in Hin|].
    unfold first_entry in Hfirst. simpl in Hfirst. subst p.
    apply elem_of_cons in Hin as [[= -> _]|Hin]; [done|].
    apply StronglySorted_inv in Hs as [_ Hall].
    by apply (proj1 (Forall_forall _ _) Hall) in Hin.
  - intros l1 x l2 -> Hx Hbefore Hmax. unfold get_most_common.
    rewrite length_app. simpl.
    replace (length l1 + S (length l2) =? 0)%nat with false
      by (symmetry; apply Nat.eqb_neq; lia).
    destruct (Counter_first_occurrence l1 x l2 Hx) as (before & n & after & Hc & Hbef).
    assert (Hent : ∀ p, p ∈ Counter (l1 ++ x :: l2) →
                        p.2 = occurrences p.1 (l1 ++ x :: l2)).
    { intros [y k] Hp. by apply Counter_entries in Hp as [_ ->]. }
    assert (Hn : n = occurrences x (l1 ++ x :: l2)).
    { apply (Hent (x, n)). rewrite Hc. apply elem_of_app. right. left. }
    rewrite Hc, most_common_head; [done| |].
    + intros q Hq. simpl. rewrite Hn, (Hent q).
      * apply Hbefore. by apply Hbef.
      * rewrite Hc. apply elem_of_app. by left.
    + intros q Hq. simpl. rewrite Hn, (Hent q); [apply Hmax|].
      rewrite Hc. apply elem_of_app. right. by right.
Qed.

Lemma get_most_common_picks_witness :
  get_most_common ["b"; "a"; "a"; "b"; "c"] = Some "b".
Proof.
  apply (proj2 (proj2 (get_most_common_picks ["b"; "a"; "a"; "b"; "c"]))
           [] "b" ["a"; "a"; "b"; "c"] eq_refl).
  - apply not_elem_of_nil.
  - intros y Hy. by apply elem_of_nil in Hy.
  - intros y. destruct (decide (y = "b")) as [->|Hb]; [done|].
    destruct (decide (y = "a")) as [->|Ha]; [vm_compute; lia|].
    destruct (decide (y = "c")) as [->|Hc]; [vm_compute; lia|].
    unfold occurrences. rewrite !filter_cons, filter_nil.
    rewrite !decide_False by done. simpl. lia.
Defined.

(** ** Statistics *)

Lemma stats_counters ip_str ips : ∀ st,
  let st' := foldl (stats_step ip_str) st ips in
  (success_annotation st' + failed_annotation st' + no_annotation st'
   = success_annotation st + failed_annotation st + no_annotation st + length ips)%nat
  ∧ success_annotation st'
    = (success_annotation st
       + length (filter (λ ip, is_empty (final_annotation ip) = false) ips))%nat
  ∧ no_annotation st'
    = (no_annotation st
       + length (filter (λ ip, is_empty (final_annotation ip) = true
                               ∧ annotations ip = []) ips))%nat
  ∧ total_one_miss st'
    = (total_one_miss st + length (filter (λ ip, one_miss ip ≠ []) ips))%nat
  ∧ total_hand_miss st'
    = (total_hand_miss st + length (filter (λ ip, hand_miss ip ≠ []) ips))%nat
  ∧ multi_device_count st'
    = (multi_device_count st + length (filter (λ ip, multi_device ip ≠ []) ips))%nat
  ∧ length (one_miss_list st') = (length (one_miss_list st)
       + length (filter (λ ip, one_miss ip ≠ []) ips))%nat.
Proof.
  induction ips as [|ip ips IH]; intros st; [simpl; split_and!; lia|].
  cbn [foldl]. cbv zeta. specialize (IH (stats_step ip_str st ip)).
  cbv zeta in IH. destruct IH as (H1 & H2 & H3 & H4 & H5 & H6 & H7).
  rewrite H1, H2, H3, H4, H5, H6, H7. rewrite !filter_cons. unfold stats_step.
  cbn [success_annotation failed_annotation no_annotation total_one_miss
       total_hand_miss multi_device_count one_miss_list].
  destruct (is_empty (final_annotation ip)) eqn:He;
    destruct (annotations ip) as [|kv cands] eqn:Ha;
    destruct (one_miss ip) as [|om oms] eqn:Ho;
    destruct (hand_miss ip) as [|hm hms] eqn:Hh;
    destruct (multi_device ip) as [|md mds] eqn:Hm;
    simpl; repeat case_decide; try done; try (exfalso; tauto);
    rewrite ?length_app; simpl; split_and!; lia.
Qed.

(** X16: the counters of [print_annotation_stats] partition the entries:
    success, failed and no annotation add up to the number of entries;
    success counts the entries with a non-empty final record, no annotation
    those with an empty final record and no candidate; the one-miss, hand-
    miss and multi-device counters count the entries with a non-empty list
    of that kind; the one-miss list has one item per entry counted. *)
Theorem annotation_stats_partition ip_str annotators_dict0 ips :
  let st := annotation_stats_of ip_str annotators_dict0 ips in
  (success_annotation st + failed_annotation st + no_annotation st = length ips)%nat
  ∧ success_annotation st
    = length (filter (λ ip, is_empty (final_annotation ip) = false) ips)
  ∧ no_annotation st
    = length (filter (λ ip, is_empty (final_annotation ip) = true
                            ∧ annotations ip = []) ips)
  ∧ total_one_miss st = length (filter (λ ip, one_miss ip ≠ []) ips)
  ∧ total_hand_miss st = length (filter (λ ip, hand_miss ip ≠ []) ips)
  ∧ multi_device_count st = length (filter (λ ip, multi_device ip ≠ []) ips)
  ∧ length (one_miss_list st) = total_one_miss st.
Proof.
  intros st. subst st. unfold annotation_stats_of.
  destruct (stats_counters ip_str ips (mkStats 0 0 0 0 0 0 annotators_dict0 [] [] []))
    as (H1 & H2 & H3 & H4 & H5 & H6 & H7).
  cbv zeta in *. simpl in *. split_and!; try done. by rewrite H7, H4.
Qed.

Lemma count_annotator_hits_lookup k ip : ∀ count,
  default 0%nat (dict_lookup k (count_annotator_hits ip count))
  = (default 0%nat (dict_lookup k count) + hits k ip)%nat.
Proof.
  unfold count_annotator_hits, hits.
  induction (annotations ip) as [|[n r] cands IH]; intros count; [simpl; lia|].
  cbn [foldl]. rewrite IH, filter_cons. simpl.
  destruct (is_empty r) eqn:He.
  - rewrite decide_False by (intros [_ ?]; done). done.
  - rewrite dict_set_lookup. destruct (decide (k = n)) as [->|Hne].
    + rewrite decide_True by done. simpl. lia.
    + rewrite decide_False by (intros [? _]; done). done.
Qed.

Lemma annotators_dict_lookup_sum ip_str annotators_dict0 ips k :
  default 0%nat
    (dict_lookup k (annotators_dict (annotation_stats_of ip_str annotators_dict0 ips)))
  = (default 0%nat (dict_lookup k annotators_dict0) + sum_list (hits k <$> ips))%nat.
Proof.
  unfold annotation_stats_of.
  assert (Hgen : ∀ st,
    default 0%nat (dict_lookup k (annotators_dict (foldl (stats_step ip_str) st ips)))
    = (default 0%nat (dict_lookup k (annotators_dict st))
       + sum_list (hits k <$> ips))%nat).
  { induction ips as [|ip ips IH]; intros st; [simpl; lia|].
    cbn [foldl]. rewrite IH. csimpl. rewrite count_annotator_hits_lookup. lia. }
  by rewrite Hgen.
Qed.

(** X17: the table of [count_annotator_hits]: after the loop the count under
    a name is its initial count plus the number of non-empty candidates
    stored under that name over all entries; an entry with distinct
    candidate names adds 1 when it holds a non-empty candidate under the
    name and 0 otherwise. *)
Theorem annotators_dict_counts_hits ip_str annotators_dict0 ips k :
  default 0%nat
    (dict_lookup k (annotators_dict (annotation_stats_of ip_str annotators_dict0 ips)))
  = (default 0%nat (dict_lookup k annotators_dict0) + sum_list (hits k <$> ips))%nat
  ∧ (∀ ip, NoDup (annotations ip).*1 →
       hits k ip = match dict_lookup k (annotations ip) with
                   | Some r => if is_empty r then 0%nat else 1%nat
                   | None => 0%nat
                   end).
Proof.
  split.
  - apply annotators_dict_lookup_sum.
  - intros ip. unfold hits. induction (annotations ip) as [|[n r] cands IH];
      intros Hnd; [done|].
    csimpl in Hnd. apply NoDup_cons in Hnd as [Hn Hnd]. rewrite filter_cons. simpl.
    destruct (decide (k = n)) as [->|Hne].
    + assert (Hrest : length (filter (λ kv : string * Annotation,
                         kv.1 = n ∧ is_empty kv.2 = false) cands) = 0%nat).
      { rewrite (IH Hnd). by apply dict_lookup_None in Hn as ->. }
      destruct (is_empty r) eqn:He.
      * by rewrite decide_False by (intros [_ ?]; done).
      * rewrite decide_True by done. simpl. by rewrite Hrest.
    + rewrite decide_False by (intros [? _]; done). by apply IH.
Qed.

(** ** The hand annotator *)

Lemma str_in_address_keys_false text device :
  str_in_address_keys text device = false.
Proof. unfold str_in_address_keys. by induction device as [|[k lab] device IH]. Qed.

(** X18: the device rules of the hand annotator never apply: [annotate]
    looks the text of the address up in a table keyed by address objects, so
    a run is the run with an empty device table; it never raises; an entry
    in no listed network comes back unchanged; and for every entry the
    address, the evidence, the final record and the candidates of every
    other annotator stay. *)
Theorem hand_annotate_skips_device_rules {N : Type} (in_network : ip_address → N → bool)
    ip_str tc device network ips :
  hand_annotate N in_network ip_str tc device network ips
  = hand_annotate N in_network ip_str tc [] network ips
  ∧ is_Some (hand_annotate N in_network ip_str tc device network ips)
  ∧ ∀ ips', hand_annotate N in_network ip_str tc device network ips = Some ips' →
      Forall2 (λ ip ip',
                 (Forall (λ kv, in_network (ip_addr ip) kv.1 = false) network →
                  ip' = ip)
                 ∧ ip_addr ip' = ip_addr ip
                 ∧ data ip' = data ip
                 ∧ final_annotation ip' = final_annotation ip
                 ∧ ∀ k, k ≠ "hand_annotator" →
                        dict_lookup k (annotations ip') = dict_lookup k (annotations ip))
              ips ips'.
Proof.
  assert (Hstep : ∀ ip,
    hand_annotate_ip N in_network ip_str tc device network ip
    = hand_annotate_ip N in_network ip_str tc [] network ip).
  { intros ip. unfold hand_annotate_ip. by rewrite !str_in_address_keys_false. }
  split_and!.
  - unfold hand_annotate. apply mapM_ext. intros ip. apply Hstep.
  - unfold hand_annotate. apply mapM_is_Some, Forall_forall. intros ip _. simpl.
    rewrite Hstep. unfold hand_annotate_ip. simpl. by destruct (find _ network).
  - intros ips' Hrun. unfold hand_annotate in Hrun. apply mapM_Some in Hrun.
    eapply Forall2_impl; [exact Hrun|]. intros ip ip' Hip. simpl in Hip.
    unfold hand_annotate_ip in Hip. rewrite str_in_address_keys_false in Hip.
    injection Hip as <-.
    destruct (find _ network) as [[net lab]|] eqn:Hfind.
    + split_and!; try done.
      * intros Hnone. apply find_some in Hfind as [Hin Hhit].
        rewrite Forall_forall in Hnone.
        apply list_elem_of_In, Hnone in Hin. simpl in *. congruence.
      * intros k Hk. simpl. rewrite dict_set_lookup. by rewrite decide_False.
    + by split_and!.
Qed.

Lemma find_first_match {A : Type} (P : A → bool) (before after : list A) x :
  Forall (λ y, P y = false) before → P x = true →
  find P (before ++ x :: after) = Some x.
Proof.
  intros Hb Hx. induction Hb as [|y before Hy Hb IH]; simpl.
  - by rewrite Hx.
  - by rewrite Hy.
Qed.

(** X19: the first network rule that contains the address decides: the entry
    gets the record built from the labels of that rule under the name
    hand_annotator, the record is valid, and after fusion every attribute it
    holds is the final value. *)
Theorem hand_rule_first_match_prevails {N : Type}
    (in_network : ip_address → N → bool) ip_str tc device before net labels after
    ip m :
  Forall (λ kv, in_network (ip_addr ip) kv.1 = false) before →
  in_network (ip_addr ip) net = true →
  ∃ ip',
    hand_annotate_ip N in_network ip_str tc device
                     (before ++ (net, labels) :: after) ip = Some ip'
    ∧ dict_lookup "hand_annotator" (annotations ip')
      = Some (Annotation_of_labels tc labels)
    ∧ valid_record tc (Annotation_of_labels tc labels)
    ∧ ∀ attr_name, attr_name ∈ attr_names →
        truthy (getattr (Annotation_of_labels tc labels) attr_name) = true →
        getattr (final_annotation (perform_annotation tc ip' m)) attr_name
        = getattr (Annotation_of_labels tc labels) attr_name.
Proof.
  intros Hbefore Hnet. unfold hand_annotate_ip.
  rewrite str_in_address_keys_false.
  rewrite (find_first_match (λ kv : N * rule_labels, in_network (ip_addr ip) kv.1)
             before after (net, labels) Hbefore Hnet).
  eexists. split; [reflexivity|].
  assert (Hl : dict_lookup "hand_annotator"
                 (annotations (add_annotation ip "hand_annotator"
                                 (Annotation_of_labels tc labels)))
               = Some (Annotation_of_labels tc labels)).
  { simpl. rewrite dict_set_lookup. by rewrite decide_True. }
  split_and!; [done| |].
  - destruct labels as [[[[gl cl] fl] tl] vl]. apply Annotation_init_valid.
  - intros attr_name Hin Ht. by apply hand_field_prevails.
Qed.

Lemma hand_rule_first_match_prevails_witness :
  ∃ ip',
    hand_annotate_ip bool (λ _ net, net) (λ _, "10.0.0.1")
      {| os_tax := {["linux" := ["ubuntu"]]}; dev_tax := ∅ |}
      [(IPv4Address 167772161, ("server", "", "", "", ""))]
      ([(false, ("", "", "windows", "", ""))]
       ++ (true, ("", "", "Linux", "Ubuntu", "")) :: [(true, ("", "", "", "", ""))])
      (mkIP (IPv4Address 167772161) blank [] [] [] [] []) = Some ip'
    ∧ dict_lookup "hand_annotator" (annotations ip')
      = Some (Annotation_of_labels
                {| os_tax := {["linux" := ["ubuntu"]]}; dev_tax := ∅ |}
                ("", "", "Linux", "Ubuntu", ""))
    ∧ valid_record {| os_tax := {["linux" := ["ubuntu"]]}; dev_tax := ∅ |}
        (Annotation_of_labels
           {| os_tax := {["linux" := ["ubuntu"]]}; dev_tax := ∅ |}
           ("", "", "Linux", "Ubuntu", ""))
    ∧ ∀ attr_name, attr_name ∈ attr_names →
        truthy (getattr (Annotation_of_labels
                           {| os_tax := {["linux" := ["ubuntu"]]}; dev_tax := ∅ |}
                           ("", "", "Linux", "Ubuntu", "")) attr_name) = true →
        getattr (final_annotation
                   (perform_annotation
                      {| os_tax := {["linux" := ["ubuntu"]]}; dev_tax := ∅ |} ip' 2))
                attr_name
        = getattr (Annotation_of_labels
                     {| os_tax := {["linux" := ["ubuntu"]]}; dev_tax := ∅ |}
                     ("", "", "Linux", "Ubuntu", "")) attr_name.
Proof.
  apply (hand_rule_first_match_prevails (λ _ (net : bool), net)).
  - apply Forall_cons. split; [reflexivity|constructor].
  - reflexivity.
Defined.

(** ** Protected ranges and the selection of addresses *)

Lemma foldl_bind_None {A B : Type} (step : A → B → option A) (l : list B) :
  foldl (λ acc x, acc ≫= λ acc, step acc x) None l = None.
Proof. by induction l. Qed.

Lemma foldl_bind_cons {A B : Type} (step : A → B → option A) acc x (l : list B) :
  foldl (λ acc x, acc ≫= λ acc, step acc x) (Some acc) (x :: l)
  = foldl (λ acc x, acc ≫= λ acc, step acc x) (step acc x) l.
Proof. done. Qed.

Lemma network_rows_cons row rows :
  network_rows (row :: rows)
  = match row with
    | row0 :: row1 :: _ =>
        if decide (row0 ≠ "ip" ∧ row1 = "network")
        then row0 :: network_rows rows else network_rows rows
    | _ => network_rows rows
    end.
Proof.
  unfold network_rows. destruct row as [|row0 [|row1 ?]]; [done..|].
  change (omap ?f (?x :: ?l)) with (from_option (λ y, y :: omap f l) (omap f l) (f x)).
  cbv beta iota. by destruct (decide _).
Qed.

Lemma addr_rows_cons row rows :
  addr_rows (row :: rows)
  = match row with
    | row0 :: row1 :: _ =>
        if decide (row0 ≠ "ip" ∧ row1 = "addr")
        then row0 :: addr_rows rows else addr_rows rows
    | _ => addr_rows rows
    end.
Proof.
  unfold addr_rows. destruct row as [|row0 [|row1 ?]]; [done..|].
  change (omap ?f (?x :: ?l)) with (from_option (λ y, y :: omap f l) (omap f l) (f x)).
  cbv beta iota. by destruct (decide _).
Qed.

Lemma load_ip_ranges_rows_spec {N : Type} (ip_network : string → option N) rows :
  ∀ acc res,
    foldl (λ acc row, acc ≫= λ acc, load_ip_ranges_row N ip_network acc row)
          (Some acc) rows = Some res →
    Forall (λ row, row ≠ [] ∧ (row !! 0%nat = Some "ip" ∨ (1 < length row)%nat)) rows
    ∧ mapM ip_network (network_rows rows) = Some (drop (length acc.1) res.1)
    ∧ take (length acc.1) res.1 = acc.1
    ∧ res.2 = acc.2 ++ addr_rows rows.
Proof.
  induction rows as [|row rows IH]; intros [nets addrs] res Hrun.
  - simpl in Hrun. injection Hrun as <-. simpl.
    rewrite drop_all, firstn_all, app_nil_r. by split_and!.
  - rewrite foldl_bind_cons in Hrun.
    destruct (load_ip_ranges_row N ip_network (nets, addrs) row) as [acc'|] eqn:Hrow;
      [|by rewrite foldl_bind_None in Hrun].
    apply IH in Hrun as (Hshape & Hnets & Htake & Haddrs).
    rewrite network_rows_cons, addr_rows_cons. cbn [fst snd].
    unfold load_ip_ranges_row in Hrow.
    destruct row as [|row0 row']; [done|]. cbn [lookup list_lookup mbind option_bind] in Hrow.
    destruct (decide (row0 = "ip")) as [->|Hip].
    { injection Hrow as <-. cbn [fst snd] in *. split_and!.
      - apply Forall_cons. split; [|done]. split; [done|by left].
      - destruct row' as [|row1 ?]; [done|].
        by rewrite decide_False by (intros [? _]; done).
      - done.
      - rewrite Haddrs. f_equal. destruct row' as [|row1 ?]; [done|].
        by rewrite decide_False by (intros [? _]; done). }
    destruct row' as [|row1 row'']; [done|].
    cbn [lookup list_lookup mbind option_bind] in Hrow.
    assert (Hlen : row0 :: row1 :: row'' ≠ []
                   ∧ ((row0 :: row1 :: row'') !! 0%nat = Some "ip"
                      ∨ (1 < length (row0 :: row1 :: row''))%nat)).
    { split; [done|]. right. simpl. lia. }
    destruct (decide (row1 = "addr")) as [->|Haddr].
    { injection Hrow as <-. cbn [fst snd] in *. split_and!.
      - by apply Forall_cons.
      - by rewrite decide_False by (intros [_ ?]; done).
      - done.
      - rewrite Haddrs, <- app_assoc. f_equal.
        by rewrite decide_True by done. }
    destruct (decide (row1 = "network")) as [->|Hnet].
    { destruct (ip_network row0) as [net|] eqn:Hparse; [|done].
      cbn [mbind option_bind] in Hrow. injection Hrow as <-. cbn [fst snd] in *.
      rewrite length_app in Hnets, Htake. cbn [length] in Hnets, Htake.
      assert (Hres : res.1 = nets ++ net :: drop (length nets + 1) res.1).
      { rewrite <- (take_drop (length nets + 1) res.1) at 1.
        by rewrite Htake, <- app_assoc. }
      split_and!.
      - by apply Forall_cons.
      - rewrite decide_True by done. change (mapM ip_network (row0 :: network_rows rows))
          with (y ← ip_network row0; k ← mapM ip_network (network_rows rows); mret (y :: k)).
        rewrite Hparse, Hnets. cbn [mbind option_bind mret option_ret].
        f_equal. rewrite Hres at 2. by rewrite drop_app_length.
      - rewrite Hres. by rewrite take_app_length.
      - rewrite Haddrs. f_equal.
        by rewrite decide_False by (intros [_ ?]; done). }
    injection Hrow as <-. cbn [fst snd] in *. split_and!.
    + by apply Forall_cons.
    + by rewrite decide_False by (intros [_ ?]; done).
    + done.
    + rewrite Haddrs. f_equal.
      by rewrite decide_False by (intros [_ ?]; done).
Qed.

(** X20: [load_ip_ranges]: ALL gives the pair of Nones and a file never
    does; a file with an empty row raises; when the load succeeds the
    addresses are the first cells of the rows of type addr, in order, the
    networks are the parsed first cells of the rows of type network, in
    order, so header rows and rows of another type add nothing, and every
    row has a first cell and, unless that is the header word, a second one. *)
Theorem load_ip_ranges_reads_rows {N : Type} (ip_network : string → option N) rows :
  load_ip_ranges N ip_network ALL = Some None
  ∧ load_ip_ranges N ip_network (RangesFile rows) ≠ Some None
  ∧ ([] ∈ rows → load_ip_ranges N ip_network (RangesFile rows) = None)
  ∧ (∀ nets addrs,
       load_ip_ranges N ip_network (RangesFile rows) = Some (Some (nets, addrs)) →
       addrs = addr_rows rows
       ∧ mapM ip_network (network_rows rows) = Some nets
       ∧ Forall (λ row, row ≠ []
                        ∧ (row !! 0%nat = Some "ip" ∨ (1 < length row)%nat)) rows).
Proof.
  split_and!.
  - done.
  - unfold load_ip_ranges. by destruct (foldl _ _ rows).
  - intros Hin. unfold load_ip_ranges.
    destruct (foldl _ _ rows) as [res|] eqn:Hrun; [|done].
    apply load_ip_ranges_rows_spec in Hrun as (Hshape & _).
    rewrite Forall_forall in Hshape. by destruct (Hshape _ Hin).
  - intros nets addrs Hload. unfold load_ip_ranges in Hload.
    destruct (foldl _ _ rows) as [res|] eqn:Hrun; [|done].
    simpl in Hload. injection Hload as ->.
    apply load_ip_ranges_rows_spec in Hrun as (Hshape & Hnets & _ & Haddrs).
    simpl in *. by rewrite drop_0 in Hnets.
Qed.

Lemma select_step_spec {N : Type} (in_network : ip_address → N → bool)
    ip_parse tc ranges acc ip :
  select_step N in_network ip_parse tc ranges acc ip
  = addr ← ip_parse ip;
    Some (acc ++ replicate (selected_times in_network ranges ip addr)
                           (fresh_IP tc addr)).
Proof.
  unfold select_step, selected_times, IP_init, fresh_IP.
  destruct ranges as [[nets addrs]|].
  - destruct (ip_parse ip) as [addr|] eqn:Hparse; simpl.
    + destruct (decide (ip ∈ addrs)); simpl;
        destruct (existsb (in_network addr) nets); simpl;
        by rewrite <- ?app_assoc, ?app_nil_r.
    + by destruct (decide (ip ∈ addrs)).
  - by destruct (ip_parse ip).
Qed.

Lemma select_fold_spec {N : Type} (in_network : ip_address → N → bool)
    ip_parse tc ranges ips :
  ∀ acc result,
    foldl (λ acc ip, acc ≫= λ acc, select_step N in_network ip_parse tc ranges acc ip)
          (Some acc) ips = Some result →
    Forall (λ ip, is_Some (ip_parse ip)) ips
    ∧ result
      = acc ++ (ips ≫= λ ip,
                  match ip_parse ip with
                  | Some addr => replicate (selected_times in_network ranges ip addr)
                                           (fresh_IP tc addr)
                  | None => []
                  end).
Proof.
  induction ips as [|ip ips IH]; intros acc result Hrun.
  - simpl in Hrun. injection Hrun as <-. by rewrite app_nil_r.
  - rewrite foldl_bind_cons, select_step_spec in Hrun.
    destruct (ip_parse ip) as [addr|] eqn:Hparse; cbn [mbind option_bind] in Hrun;
      [|by rewrite foldl_bind_None in Hrun].
    apply IH in Hrun as [Hall ->]. split.
    + apply Forall_cons. split; [by rewrite Hparse|done].
    + rewrite bind_cons, Hparse. by rewrite <- app_assoc.
Qed.

(** X21: how often [select_protected_ips] selects an address: when it
    returns, every distinct source value and every distinct destination
    value parsed, and the result lists, in that order, one fresh entry per
    value under ALL, and under ranges one fresh entry for being listed plus
    one for lying in a listed network; so a value that is listed and lies in
    a network is selected twice, and under ALL a value met in both columns
    is. *)
Theorem select_protected_ips_multiplicity {N : Type}
    (ip_network : string → option N) (in_network : ip_address → N → bool)
    ip_parse tc src_ip_field dst_ip_field ip_ranges flows result :
  select_protected_ips N ip_network in_network ip_parse tc src_ip_field dst_ip_field
                       ip_ranges flows = Some result →
  ∃ src dst ranges,
    dict_lookup src_ip_field flows = Some src
    ∧ match dst_ip_field with
      | None => dst = []
      | Some field => ∃ column, dict_lookup field flows = Some column
                                ∧ dst = unique column
      end
    ∧ load_ip_ranges N ip_network ip_ranges = Some ranges
    ∧ Forall (λ ip, is_Some (ip_parse ip)) (unique src ++ dst)
    ∧ result
      = (unique src ++ dst) ≫= (λ ip,
          match ip_parse ip with
          | Some addr => replicate (selected_times in_network ranges ip addr)
                                   (fresh_IP tc addr)
          | None => []
          end)
    ∧ (ip_ranges = ALL → length result = (length (unique src) + length dst)%nat).
Proof.
  unfold select_protected_ips. intros Hrun.
  destruct (dict_lookup src_ip_field flows) as [src|] eqn:Hsrc; [|done].
  cbn [mbind option_bind] in Hrun.
  destruct (match dst_ip_field with
            | Some field => unique <$> dict_lookup field flows
            | None => Some []
            end) as [dst|] eqn:Hdst; [|done].
  cbn [mbind option_bind] in Hrun.
  destruct (load_ip_ranges N ip_network ip_ranges) as [ranges|] eqn:Hranges; [|done].
  cbn [mbind option_bind] in Hrun.
  apply select_fold_spec in Hrun as [Hall Hres]. rewrite app_nil_l in Hres.
  exists src, dst, ranges. split_and!; try done.
  - destruct dst_ip_field as [field|]; [|by injection Hdst as <-].
    destruct (dict_lookup field flows) as [column|]; [|done].
    injection Hdst as <-. by exists column.
  - intros ->. injection Hranges as <-. rewrite Hres. clear Hres.
    rewrite <- length_app. induction Hall as [|ip ips [addr Hparse] Hall IH]; [done|].
    by rewrite bind_cons, Hparse, length_app, length_replicate, IH.
Qed.

Lemma select_protected_ips_multiplicity_witness :
  ∃ src dst ranges,
    dict_lookup "SRC_IP" [("SRC_IP", ["10.0.0.1"; "10.0.0.1"])] = Some src
    ∧ dst = []
    ∧ load_ip_ranges bool (λ _, Some true)
        (RangesFile [["ip"; "type"]; ["10.0.0.1"; "addr"]; ["10.0.0.0/8"; "network"]])
      = Some ranges
    ∧ Forall (λ ip, is_Some (if decide (ip = "10.0.0.1")
                             then Some (IPv4Address 167772161) else None))
             (unique src ++ dst)
    ∧ [fresh_IP {| os_tax := ∅; dev_tax := ∅ |} (IPv4Address 167772161);
       fresh_IP {| os_tax := ∅; dev_tax := ∅ |} (IPv4Address 167772161)]
      = (unique src ++ dst) ≫= (λ ip,
          match (if decide (ip = "10.0.0.1")
                 then Some (IPv4Address 167772161) else None) with
          | Some addr => replicate (selected_times (λ _ (net : bool), net) ranges ip addr)
                                   (fresh_IP {| os_tax := ∅; dev_tax := ∅ |} addr)
          | None => []
          end)
    ∧ (RangesFile [["ip"; "type"]; ["10.0.0.1"; "addr"]; ["10.0.0.0/8"; "network"]]
       = ALL →
       length [fresh_IP {| os_tax := ∅; dev_tax := ∅ |} (IPv4Address 167772161);
               fresh_IP {| os_tax := ∅; dev_tax := ∅ |} (IPv4Address 167772161)]
       = (length (unique src) + length dst)%nat).
Proof.
  apply (select_protected_ips_multiplicity (λ _, Some true) (λ _ (net : bool), net)
    (λ text, if decide (text = "10.0.0.1") then Some (IPv4Address 167772161) else None)
    {| os_tax := ∅; dev_tax := ∅ |} "SRC_IP" None
    (RangesFile [["ip"; "type"]; ["10.0.0.1"; "addr"]; ["10.0.0.0/8"; "network"]])
    [("SRC_IP", ["10.0.0.1"; "10.0.0.1"])]).
  vm_compute. reflexivity.
Defined.

(** ** Reannotation: the search for unseen addresses *)

Lemma address_in_spec addr ips : address_in addr ips = true ↔ addr ∈ ip_addr <$> ips.
Proof.
  unfold address_in. rewrite existsb_exists, list_elem_of_fmap. split.
  - intros (x & Hx & Heq). simpl in Heq. apply bool_decide_eq_true in Heq.
    apply list_elem_of_In in Hx. eauto.
  - intros (x & -> & Hx). exists x. split; [by apply list_elem_of_In|].
    simpl. by apply bool_decide_eq_true.
Qed.

(** X22: the search for unseen addresses in [process_reannotation], the text
    of an [IP] object being no address: without dataset, or when every
    dataset address is among the loaded entries, [new_ips] stays None; when
    some dataset address is not among them the call of [IP] on the entry
    raises; the search never yields a list of new entries. *)
Theorem reannotation_finds_no_new_ips tc ip_parse (IP_str : IP → string)
    ip_addresses_loaded dataset :
  (∀ x, ip_parse (IP_str x) = None) →
  find_new_ips ip_parse IP_str tc ip_addresses_loaded None = Some None
  ∧ (Forall (λ ip, ip_addr ip ∈ ip_addr <$> ip_addresses_loaded) dataset →
     find_new_ips ip_parse IP_str tc ip_addresses_loaded (Some dataset) = Some None)
  ∧ (¬ Forall (λ ip, ip_addr ip ∈ ip_addr <$> ip_addresses_loaded) dataset →
     find_new_ips ip_parse IP_str tc ip_addresses_loaded (Some dataset) = None)
  ∧ ∀ new_ips,
      find_new_ips ip_parse IP_str tc ip_addresses_loaded (Some dataset)
      ≠ Some (Some new_ips).
Proof.
  intros Hstr.
  assert (Hseen : Forall (λ ip, ip_addr ip ∈ ip_addr <$> ip_addresses_loaded) dataset →
     find_new_ips ip_parse IP_str tc ip_addresses_loaded (Some dataset) = Some None).
  { unfold find_new_ips. induction 1 as [|ip dataset Hip Hall IH]; [done|].
    rewrite foldl_bind_cons. unfold new_ips_step at 2.
    apply address_in_spec in Hip. by rewrite Hip. }
  assert (Hunseen :
     ¬ Forall (λ ip, ip_addr ip ∈ ip_addr <$> ip_addresses_loaded) dataset →
     find_new_ips ip_parse IP_str tc ip_addresses_loaded (Some dataset) = None).
  { clear Hseen. unfold find_new_ips.
    induction dataset as [|ip dataset IH]; intros Hnot.
    - destruct Hnot. constructor.
    - rewrite foldl_bind_cons. unfold new_ips_step at 2.
      destruct (address_in (ip_addr ip) ip_addresses_loaded) eqn:Hip; simpl.
      + apply IH. intros Hall. apply Hnot. apply Forall_cons. split; [|done].
        by apply address_in_spec.
      + unfold IP_init_of_object, IP_init. rewrite Hstr. simpl.
        apply foldl_bind_None. }
  split_and!; [done|done|done|].
  intros new_ips Hrun.
  destruct (decide (Forall (λ ip, ip_addr ip ∈ ip_addr <$> ip_addresses_loaded)
                      dataset)) as [Hall|Hnot].
  - rewrite (Hseen Hall) in Hrun. done.
  - rewrite (Hunseen Hnot) in Hrun. done.
Qed.

Lemma reannotation_finds_no_new_ips_witness :
  find_new_ips (λ text, if decide (text = "10.0.0.1")
                        then Some (IPv4Address 167772161) else None)
    (λ _, "<ip.IP object>") {| os_tax := ∅; dev_tax := ∅ |}
    [fresh_IP {| os_tax := ∅; dev_tax := ∅ |} (IPv4Address 167772161)]
    (Some [fresh_IP {| os_tax := ∅; dev_tax := ∅ |} (IPv4Address 167772162)])
  = None.
Proof.
  apply (reannotation_finds_no_new_ips {| os_tax := ∅; dev_tax := ∅ |}
           (λ text, if decide (text = "10.0.0.1")
                    then Some (IPv4Address 167772161) else None)
           (λ _, "<ip.IP object>")).
  - intros x. reflexivity.
  - intros Hall. apply Forall_cons in Hall as [Hin _]. simpl in Hin.
    apply list_elem_of_singleton in Hin. discriminate.
Defined.

(** ** The exported table and the annotated dataset *)

Lemma export_header_length_from header tmp :
  length (foldl (λ header x,
                   header ++ [x +:+ "_group"; x +:+ "_class"; x +:+ "_os_family";
                              x +:+ "_os_type"; x +:+ "_os_version"])
                header tmp)
  = (length header + 5 * length tmp)%nat.
Proof.
  revert header. induction tmp as [|x tmp IH]; intros header; simpl; [lia|].
  rewrite IH, length_app. simpl. lia.
Qed.

(** The candidate columns of one row. *)
Lemma export_row_blocks ip (tmp : list string) : ∀ row : list csv_cell,
  foldl (λ row annotator,
           if decide (annotator = "final_annotation") then row
           else match dict_lookup annotator (annotations ip) with
                | Some candidate => row ++ (label_cell <$> ret_annotation candidate)
                | None => row ++ [CellNone; CellNone; CellNone; CellNone; CellNone]
                end)
        row tmp
  = row ++ (filter (λ x, x ≠ "final_annotation") tmp ≫= λ annotator,
              match dict_lookup annotator (annotations ip) with
              | Some candidate => label_cell <$> ret_annotation candidate
              | None => [CellNone; CellNone; CellNone; CellNone; CellNone]
              end).
Proof.
  induction tmp as [|x tmp IH]; intros row; [by rewrite app_nil_r|].
  cbn [foldl]. rewrite IH, filter_cons.
  destruct (decide (x = "final_annotation")) as [->|Hne].
  - by rewrite decide_False by (intros ?; done).
  - rewrite decide_True by done. rewrite bind_cons.
    destruct (dict_lookup x (annotations ip)); by rewrite <- app_assoc.
Qed.

Lemma blocks_length ip (names : list string) :
  length (names ≫= λ annotator,
            match dict_lookup annotator (annotations ip) with
            | Some candidate => label_cell <$> ret_annotation candidate
            | None => [CellNone; CellNone; CellNone; CellNone; CellNone]
            end)
  = (5 * length names)%nat.
Proof.
  induction names as [|x names IH]; [done|].
  rewrite bind_cons, length_app, IH.
  destruct (dict_lookup x (annotations ip)); simpl; lia.
Qed.

Lemma export_columns_from (config : list (string * annotator_config)) :
  ∀ acc tmp,
    foldl (λ acc kv,
             acc ≫= λ tmp,
               if decide (kv.1 = "daf") then Some tmp
               else if is_False (enabled kv.2) then Some tmp
               else if decide (kv.1 = "sni_annotator") then
                 columns ← mapM sni_column (fields kv.2); Some (tmp ++ columns)
               else Some (tmp ++ [kv.1]))
          (Some acc) config = Some tmp →
    ∃ rest, tmp = acc ++ rest
            ∧ ∀ x, x ∈ rest →
                (∃ cfg, (x, cfg) ∈ config ∧ x ≠ "daf" ∧ x ≠ "sni_annotator"
                        ∧ is_False (enabled cfg) = false)
                ∨ ∃ s, x = "sni_annotator_" +:+ s.
Proof.
  induction config as [|[k cfg] config IH]; intros acc tmp Hrun.
  - simpl in Hrun. injection Hrun as <-. exists []. rewrite app_nil_r.
    split; [done|]. by intros x ?%elem_of_nil.
  - rewrite foldl_bind_cons in Hrun. cbn [fst snd] in Hrun.
    assert (Hskip : (∃ rest, tmp = acc ++ rest ∧ ∀ x, x ∈ rest →
                (∃ cfg, (x, cfg) ∈ config ∧ x ≠ "daf" ∧ x ≠ "sni_annotator"
                        ∧ is_False (enabled cfg) = false)
                ∨ ∃ s, x = "sni_annotator_" +:+ s) →
              ∃ rest, tmp = acc ++ rest ∧ ∀ x, x ∈ rest →
                (∃ cfg', (x, cfg') ∈ (k, cfg) :: config ∧ x ≠ "daf"
                         ∧ x ≠ "sni_annotator" ∧ is_False (enabled cfg') = false)
                ∨ ∃ s, x = "sni_annotator_" +:+ s).
    { intros (rest & -> & Hrest). exists rest. split; [done|].
      intros x [(cfg' & Hin & ?)|?]%Hrest; [left|by right].
      exists cfg'. split; [by right|done]. }
    destruct (decide (k = "daf")) as [->|Hdaf]; [by apply Hskip, IH|].
    destruct (is_False (enabled cfg)) eqn:Hen; [by apply Hskip, IH|].
    destruct (decide (k = "sni_annotator")) as [->|Hsni].
    + destruct (mapM sni_column (fields cfg)) as [columns|] eqn:Hcols;
        cbn [mbind option_bind] in Hrun; [|by rewrite foldl_bind_None in Hrun].
      apply IH in Hrun as (rest & -> & Hrest). exists (columns ++ rest).
      split; [by rewrite app_assoc|].
      intros x [Hx|Hx]%elem_of_app.
      * right. apply mapM_Some in Hcols.
        apply list_elem_of_lookup in Hx as [i Hi].
        destruct (Forall2_lookup_r _ _ _ _ _ Hcols Hi) as (fld & _ & Hcol).
        unfold sni_column in Hcol. destruct fld as [s|l].
        -- injection Hcol as <-. eauto.
        -- destruct (l !! 0%nat) as [x0|]; [|done]. injection Hcol as <-. eauto.
      * destruct (Hrest x Hx) as [(cfg' & Hin & ?)|?]; [left|by right].
        exists cfg'. split; [by right|done].
    + apply IH in Hrun as (rest & -> & Hrest). exists (k :: rest).
      split; [by rewrite <- app_assoc|].
      intros x [->|Hx]%elem_of_cons.
      * left. exists cfg. split; [left|done].
      * destruct (Hrest x Hx) as [(cfg' & Hin & ?)|?]; [left|by right].
        exists cfg'. split; [by right|done].
Qed.

Lemma filter_all {A : Type} (P : A → Prop) `{!∀ x, Decision (P x)} (l : list A) :
  Forall P l → filter P l = l.
Proof.
  induction 1 as [|x l Hx Hl IH]; [done|].
  by rewrite filter_cons, decide_True, IH.
Qed.

(** X23: rows fit the header in [export_ip_annotation_list]: when no enabled
    section of the configuration is called final_annotation, the header has
    2 + 5 * |tmp| cells and so has every row; a row begins with the address,
    the NAT flag and the five final labels; without the full export the only
    column group is final_annotation. *)
Theorem export_rows_fit_header ip_str export_full_annotation config tmp ip :
  export_columns export_full_annotation config = Some tmp →
  (∀ cfg, ("final_annotation", cfg) ∈ config → enabled cfg = EnabledFalse) →
  length (export_header tmp) = (2 + 5 * length tmp)%nat
  ∧ length (export_row ip_str export_full_annotation tmp ip)
    = length (export_header tmp)
  ∧ take 7 (export_row ip_str export_full_annotation tmp ip)
    = [CellStr (ip_str (ip_addr ip)); CellBool (bool_decide (multi_device ip ≠ []))]
      ++ (label_cell <$> ret_annotation (final_annotation ip))
  ∧ (export_full_annotation = false → tmp = ["final_annotation"]).
Proof.
  intros Hcols Hname.
  assert (Hnat : (0 <? length (multi_device ip))%nat
                 = bool_decide (multi_device ip ≠ [])).
  { by destruct (multi_device ip). }
  assert (Hhead : length (export_header tmp) = (2 + 5 * length tmp)%nat).
  { unfold export_header. by rewrite export_header_length_from. }
  unfold export_columns in Hcols. unfold export_row. rewrite Hnat, Hhead.
  destruct export_full_annotation.
  - apply export_columns_from in Hcols as (rest & -> & Hrest).
    assert (Hfilter : filter (λ x, x ≠ "final_annotation")
                        (["final_annotation"] ++ rest) = rest).
    { cbn [app]. rewrite filter_cons, decide_False by (intros ?; done).
      apply filter_all, Forall_forall. intros x Hx ->.
      destruct (Hrest _ Hx) as [(cfg & Hin & _ & _ & Hen)|[s Hs]]; [|done].
      by rewrite (Hname cfg Hin) in Hen. }
    rewrite export_row_blocks, Hfilter. split_and!; [done| |done|done].
    rewrite !length_app, blocks_length. simpl. lia.
  - injection Hcols as <-. by split_and!.
Qed.

Lemma export_rows_fit_header_witness :
  length (export_row (λ _, "10.0.0.1") true
            ["final_annotation"; "mac_annotator"; "sni_annotator_TLS_SNI"]
            (mkIP (IPv4Address 167772161) blank
               [("mac_annotator", mkAnnotation (Some "server") None None None None)]
               [] [] [] []))
  = length (export_header
              ["final_annotation"; "mac_annotator"; "sni_annotator_TLS_SNI"]).
Proof.
  apply (export_rows_fit_header (λ _, "10.0.0.1") true
           [("daf", mkAnnotatorConfig EnabledOther []);
            ("mac_annotator", mkAnnotatorConfig EnabledTrue []);
            ("hostname_annotator", mkAnnotatorConfig EnabledFalse []);
            ("sni_annotator",
             mkAnnotatorConfig EnabledTrue [FieldList ["string TLS_SNI"; "x"]])]).
  - reflexivity.
  - intros cfg Hin. repeat (apply elem_of_cons in Hin as [Hin|Hin]; [discriminate|]).
    by apply elem_of_nil in Hin.
Defined.

Lemma annotation_map_lookup ip_str (text : string) (ips : list IP) :
  dict_lookup text (annotation_map ip_str ips)
  = (λ ip, {["group" := group (final_annotation ip);
             "_class" := _class (final_annotation ip);
             "os_family" := os_family (final_annotation ip);
             "os_type" := os_type (final_annotation ip);
             "os_version" := os_version (final_annotation ip)]})
    <$> last (filter (λ ip, ip_str (ip_addr ip) = text) ips).
Proof.
  unfold annotation_map. induction ips as [|ip ips IH] using rev_ind; [done|].
  rewrite foldl_snoc, filter_app, filter_cons, filter_nil. cbn [ret_annotation].
  rewrite dict_set_lookup.
  destruct (decide (text = ip_str (ip_addr ip))) as [->|Hne].
  - rewrite decide_True by done. by rewrite last_snoc.
  - rewrite decide_False by done. by rewrite app_nil_r.
Qed.

Lemma flow_label_last ip_str ips column text :
  flow_label (annotation_map ip_str ips) column text
  = match last (filter (λ ip, ip_str (ip_addr ip) = text) ips) with
    | Some ip => getattr (final_annotation ip) column
    | None => None
    end.
Proof.
  unfold flow_label. rewrite annotation_map_lookup.
  destruct (last _) as [ip|]; [|done]. cbn [fmap option_fmap option_map default].
  unfold getattr.
  repeat (case_decide;
          [subst;
           by repeat first [rewrite lookup_insert_eq
                           |rewrite lookup_insert_ne by done
                           |rewrite lookup_singleton_eq]|]).
  unfold id. repeat (rewrite lookup_insert_ne by done).
  first [by rewrite lookup_singleton_ne|by rewrite lookup_empty].
Qed.

Lemma NoDup_fmap_elem_inj {A K : Type} (key : A → K) (l : list A) x y :
  NoDup (key <$> l) → x ∈ l → y ∈ l → key x = key y → x = y.
Proof.
  induction l as [|z l IH]; intros Hnd Hx Hy Heq; [by apply elem_of_nil in Hx|].
  rewrite fmap_cons in Hnd. apply NoDup_cons in Hnd as [Hz Hnd].
  apply elem_of_cons in Hx as [->|Hx]; apply elem_of_cons in Hy as [->|Hy].
  - done.
  - destruct Hz. rewrite Heq. by apply list_elem_of_fmap_2.
  - destruct Hz. rewrite <- Heq. by apply list_elem_of_fmap_2.
  - by apply IH.
Qed.

(** X24: [annotate_dataset]: a flow gets, in a label column, the label of
    the final record of the last entry whose address text is the source of
    the flow; no label when no entry has that text; and with distinct
    address texts the label of the entry itself. *)
Theorem annotate_dataset_last_entry_wins ip_str ips column text :
  flow_label (annotation_map ip_str ips) column text
  = match last (filter (λ ip, ip_str (ip_addr ip) = text) ips) with
    | Some ip => getattr (final_annotation ip) column
    | None => None
    end
  ∧ (text ∉ (ip_str ∘ ip_addr) <$> ips →
     flow_label (annotation_map ip_str ips) column text = None)
  ∧ (NoDup ((ip_str ∘ ip_addr) <$> ips) →
     ∀ ip, ip ∈ ips →
       flow_label (annotation_map ip_str ips) column (ip_str (ip_addr ip))
       = getattr (final_annotation ip) column).
Proof.
  split_and!.
  - apply flow_label_last.
  - intros Hnot. rewrite flow_label_last.
    destruct (last _) as [ip|] eqn:Hlast; [|done].
    apply last_Some in Hlast as [pre Hpre].
    assert (Hin : ip ∈ filter (λ ip, ip_str (ip_addr ip) = text) ips).
    { rewrite Hpre. apply elem_of_app. right. left. }
    apply list_elem_of_filter in Hin as [Heq Hin]. destruct Hnot.
    rewrite <- Heq. by apply (list_elem_of_fmap_2 (ip_str ∘ ip_addr)).
  - intros Hnd ip Hin. rewrite flow_label_last.
    destruct (last _) as [ip'|] eqn:Hlast.
    + apply last_Some in Hlast as [pre Hpre].
      assert (Hin' : ip' ∈ filter (λ x, ip_str (ip_addr x) = ip_str (ip_addr ip)) ips).
      { rewrite Hpre. apply elem_of_app. right. left. }
      apply list_elem_of_filter in Hin' as [Heq Hin'].
      by rewrite (NoDup_fmap_elem_inj (ip_str ∘ ip_addr) ips ip' ip Hnd Hin' Hin Heq).
    + apply last_None in Hlast.
      assert (Hin' : ip ∈ filter (λ x, ip_str (ip_addr x) = ip_str (ip_addr ip)) ips)
        by (by apply list_elem_of_filter).
      rewrite Hlast in Hin'. by apply elem_of_nil in Hin'.
Qed.

(** ** The NAT detector *)

Lemma remove_dups_length_le {A : Type} `{EqDecision A} (l : list A) :
  (length (remove_dups l) ≤ length l)%nat.
Proof.
  induction l as [|x l IH]; simpl; [done|].
  destruct (decide_rel _ x l); simpl; lia.
Qed.

Lemma remove_dups_sum_le (l : list nat) : (sum_list (remove_dups l) ≤ sum_list l)%nat.
Proof.
  induction l as [|x l IH]; simpl; [done|].
  destruct (decide_rel _ x l); simpl; lia.
Qed.

(** Distinct positive numbers add up to at least 1 + 2 + ... *)
Lemma distinct_positive_sum (k : nat) : ∀ l : list nat,
  NoDup l → Forall (λ x, 0 < x)%nat l → length l = k →
  (k * (k + 1) ≤ 2 * sum_list l)%nat.
Proof.
  induction k as [|k IH]; intros l Hnd Hpos Hlen; [lia|].
  assert (Hbig : Exists (λ x, k < x)%nat l).
  { destruct (decide (Exists (λ x, k < x)%nat l)) as [?|Hno]; [done|].
    apply not_Exists_Forall in Hno; [|apply _].
    assert (Hsub : l ⊆+ seq 1 k).
    { apply NoDup_submseteq; [done|]. intros x Hx. apply elem_of_seq.
      rewrite Forall_forall in Hno, Hpos.
      specialize (Hno x Hx). specialize (Hpos x Hx). simpl in Hno. lia. }
    apply submseteq_length in Hsub. rewrite length_seq in Hsub. lia. }
  apply Exists_exists in Hbig as (x & Hx & Hk).
  apply elem_of_Permutation in Hx as [l' Hl'].
  rewrite Hl' in Hnd, Hpos, Hlen. rewrite Hl'.
  apply NoDup_cons in Hnd as [_ Hnd]. apply Forall_cons in Hpos as [_ Hpos].
  simpl in Hlen. specialize (IH l' Hnd Hpos ltac:(lia)). simpl. nia.
Qed.

(** The counts of a table add up to the number of values counted. *)
Lemma counts_sum_from (d l : list Z) :
  NoDup d → (∀ x, x ∈ l → x ∈ d) →
  sum_list ((λ x, length (filter (λ y, y = x) l)) <$> d) = length l.
Proof.
  intros Hnd. induction l as [|a l IH]; intros Hsub.
  - rewrite (sum_list_fmap_same 0); [simpl; lia|]. by apply Forall_true.
  - assert (Ha : a ∈ d) by (apply Hsub; left).
    assert (Hstep : ∀ d', NoDup d' →
      sum_list ((λ x, length (filter (λ y, y = x) (a :: l))) <$> d')
      = (sum_list ((λ x, length (filter (λ y, y = x) l)) <$> d')
         + (if decide (a ∈ d') then 1 else 0))%nat).
    { clear. induction d' as [|x d' IHd']; intros Hnd'; [done|].
      apply NoDup_cons in Hnd' as [Hx Hnd']. csimpl. rewrite IHd' by done.
      rewrite filter_cons. cbv beta.
      destruct (decide (a = x)) as [->|Hne];
        destruct (decide (_ ∈ d')) as [Hin|Hin];
        destruct (decide (_ ∈ x :: d')) as [Hin'|Hin']; simpl; try lia;
        exfalso; set_solver. }
    rewrite (Hstep d Hnd), decide_True by done.
    rewrite IH by (intros x Hx; apply Hsub; by right). simpl. lia.
Qed.

Lemma filter_omap_id (s : series) x :
  length (filter (λ y, y = Some x) s) = length (filter (λ y, y = x) (omap id s)).
Proof.
  induction s as [|[y|] s IH]; [done|..].
  - change (omap id (Some y :: s)) with (y :: omap id s).
    rewrite (filter_cons (λ y : Z, y = x)).
    rewrite (filter_cons (λ y : option Z, y = Some x)).
    destruct (decide (y = x)) as [->|Hne].
    + rewrite decide_True by done. cbn [length]. f_equal. exact IH.
    + rewrite decide_False by congruence. exact IH.
  - change (omap id (None :: s)) with (omap id s).
    rewrite (filter_cons (λ y : option Z, y = Some x)), decide_False by done.
    exact IH.
Qed.

Lemma value_counts_sum (s : series) :
  sum_list (value_counts s).*2 = length (omap id s).
Proof.
  unfold value_counts. rewrite <- list_fmap_compose.
  rewrite <- (counts_sum_from (remove_dups (omap id s)) (omap id s)).
  - f_equal. apply list_fmap_ext. intros _ x _. simpl. apply filter_omap_id.
  - apply NoDup_remove_dups.
  - intros x Hx. by apply elem_of_remove_dups.
Qed.

Lemma value_counts_positive (s : series) :
  Forall (λ n, 0 < n)%nat (value_counts s).*2.
Proof.
  unfold value_counts. rewrite <- list_fmap_compose. apply Forall_fmap, Forall_forall.
  intros x Hx. apply (proj1 (elem_of_remove_dups _ _)) in Hx. simpl.
  apply list_elem_of_omap in Hx as (y & Hy & Hid). simpl in Hid. subst y.
  assert (Hin : Some x ∈ filter (λ y, y = Some x) s) by (by apply list_elem_of_filter).
  destruct (filter _ s); [by apply elem_of_nil in Hin|simpl; lia].
Qed.

Lemma omap_length_le {A B : Type} (f : A → option B) (l : list A) :
  (length (omap f l) ≤ length l)%nat.
Proof. induction l as [|x l IH]; csimpl; [done|]. destruct (f x); simpl; lia. Qed.

(** X25: what the NAT detector counts: it flags an address exactly when the
    occurrence counts of the non-zero TTL values take at least 5 distinct
    values and there are at least 500 distinct non-zero source ports; a
    flagged address has at least 5 distinct non-zero TTL values and at least
    15 flows with a non-zero TTL; an address whose non-zero TTL values all
    occur equally often is never flagged. *)
Theorem nat_detector_counts_frequencies ttl src_port :
  (nat_suspected ttl src_port = true →
   (5 ≤ nunique (nonzero ttl))%nat ∧ (500 ≤ nunique (nonzero src_port))%nat
   ∧ (15 ≤ length (nonzero ttl))%nat)
  ∧ ((∀ p q, p ∈ value_counts (nonzero ttl) → q ∈ value_counts (nonzero ttl) →
             p.2 = q.2) →
     nat_suspected ttl src_port = false)
  ∧ (nat_suspected ttl src_port = true
     ↔ (5 ≤ length (remove_dups (value_counts (nonzero ttl)).*2))%nat
       ∧ (500 ≤ nunique (nonzero src_port))%nat).
Proof.
  assert (Hiff : nat_suspected ttl src_port = true
     ↔ (5 ≤ length (remove_dups (value_counts (nonzero ttl)).*2))%nat
       ∧ (500 ≤ nunique (nonzero src_port))%nat).
  { unfold nat_suspected, nunique_counts. cbv zeta.
    destruct (Nat.ltb_spec (length (remove_dups (value_counts (nonzero ttl)).*2)) 5);
      [split; [done|lia]|].
    destruct (Nat.ltb_spec (nunique (nonzero src_port)) 500); [split; [done|lia]|].
    split; [lia|done]. }
  split_and!; [|..|done].
  - intros [Hfreq Hports]%Hiff. split_and!; [|done|].
    + etrans; [exact Hfreq|]. etrans; [apply remove_dups_length_le|].
      unfold value_counts, nunique. by rewrite !length_fmap.
    + pose proof (distinct_positive_sum
                    (length (remove_dups (value_counts (nonzero ttl)).*2))
                    (remove_dups (value_counts (nonzero ttl)).*2)
                    (NoDup_remove_dups _)) as Hsum.
      assert (Hpos : Forall (λ n, 0 < n)%nat
                       (remove_dups (value_counts (nonzero ttl)).*2)).
      { apply Forall_forall. intros n Hn.
        apply (proj1 (elem_of_remove_dups _ _)) in Hn. revert n Hn.
        apply Forall_forall, value_counts_positive. }
      specialize (Hsum Hpos eq_refl).
      pose proof (remove_dups_sum_le (value_counts (nonzero ttl)).*2) as Hle.
      rewrite value_counts_sum in Hle.
      pose proof (omap_length_le id (nonzero ttl)) as Hlen. nia.
  - intros Hsame. apply not_true_iff_false. intros Hs.
    apply Hiff in Hs as [Hfreq _].
    assert (Hone : (length (remove_dups (value_counts (nonzero ttl)).*2) ≤ 1)%nat).
    { destruct (remove_dups _) as [|n1 [|n2 rest]] eqn:Hd; simpl; [lia..|].
      pose proof (NoDup_remove_dups (value_counts (nonzero ttl)).*2) as Hnd.
      rewrite Hd in Hnd.
      assert (H1 : n1 ∈ (value_counts (nonzero ttl)).*2).
      { apply elem_of_remove_dups. rewrite Hd. left. }
      assert (H2 : n2 ∈ (value_counts (nonzero ttl)).*2).
      { apply elem_of_remove_dups. rewrite Hd. right. left. }
      apply list_elem_of_fmap in H1 as (p & -> & Hp).
      apply list_elem_of_fmap in H2 as (q & -> & Hq).
      apply NoDup_cons in Hnd as [Hnot _]. destruct Hnot.
      rewrite (Hsame p q Hp Hq). left. }
    lia.
Qed.

(** ** The table of annotators, from the configuration to the counts *)

Lemma dict_set_Forall {V : Type} (P : string * V → Prop) (d : list (string * V)) k x :
  Forall P d → P (k, x) → Forall P (dict_set k x d).
Proof.
  intros Hd Hx. induction Hd as [|[k0 x0] d H0 Hd IH]; simpl.
  - by apply Forall_singleton.
  - destruct (decide (k = k0)); apply Forall_cons; auto.
Qed.

Lemma dict_set_keys_mono {V : Type} (d : list (string * V)) k x k' :
  k' ∈ d.*1 → k' ∈ (dict_set k x d).*1.
Proof.
  intros Hin. rewrite dict_set_keys. destruct (decide (k ∈ d.*1)); [done|].
  apply elem_of_app. by left.
Qed.

Lemma dict_set_keys_new {V : Type} (d : list (string * V)) k x :
  k ∈ (dict_set k x d).*1.
Proof.
  rewrite dict_set_keys. destruct (decide (k ∈ d.*1)); [done|].
  apply elem_of_app. right. left.
Qed.

Lemma sni_table_from (flds : list sni_field) : ∀ acc res,
  foldl (λ acc x,
           acc ≫= λ annotators_dict,
             column ← sni_column x; Some (dict_set column 0%nat annotators_dict))
        (Some acc) flds = Some res →
  (Forall (λ kv, kv.2 = 0%nat) acc → Forall (λ kv, kv.2 = 0%nat) res)
  ∧ ∀ k, k ∈ acc.*1 → k ∈ res.*1.
Proof.
  induction flds as [|x flds IH]; intros acc res Hrun.
  - simpl in Hrun. by injection Hrun as <-.
  - rewrite foldl_bind_cons in Hrun.
    destruct (sni_column x) as [column|]; cbn [mbind option_bind] in Hrun;
      [|by rewrite foldl_bind_None in Hrun].
    apply IH in Hrun as [Hzero Hkeys]. split.
    + intros Hacc. apply Hzero. by apply dict_set_Forall.
    + intros k Hk. by apply Hkeys, dict_set_keys_mono.
Qed.

Lemma annotators_dict_init_from (config : list (string * annotator_config)) :
  ∀ acc res,
    foldl (λ acc kv,
             acc ≫= λ annotators_dict,
               if decide (kv.1 = "daf") then Some annotators_dict
               else if is_True (enabled kv.2) then
                 if decide (kv.1 = "sni_annotator") then
                   foldl (λ acc x,
                            acc ≫= λ annotators_dict,
                              column ← sni_column x;
                              Some (dict_set column 0%nat annotators_dict))
                         (Some annotators_dict) (fields kv.2)
                 else Some (dict_set kv.1 0%nat annotators_dict)
               else Some annotators_dict)
          (Some acc) config = Some res →
    (Forall (λ kv, kv.2 = 0%nat) acc → Forall (λ kv, kv.2 = 0%nat) res)
    ∧ (∀ k, k ∈ acc.*1 → k ∈ res.*1)
    ∧ ∀ k cfg, (k, cfg) ∈ config → k ≠ "daf" → k ≠ "sni_annotator" →
               enabled cfg = EnabledTrue → k ∈ res.*1.
Proof.
  induction config as [|[k0 cfg0] config IH]; intros acc res Hrun.
  - simpl in Hrun. injection Hrun as <-. split_and!; [done..|].
    by intros k cfg ?%elem_of_nil.
  - rewrite foldl_bind_cons in Hrun. cbn [fst snd] in Hrun.
    destruct (decide (k0 = "daf")) as [->|Hdaf].
    { apply IH in Hrun as (Hzero & Hkeys & Hen). split_and!; [done..|].
      intros k cfg [[= -> ->]|Hin]%elem_of_cons; [done|]. by apply Hen. }
    destruct (is_True (enabled cfg0)) eqn:Hflag; cycle 1.
    { apply IH in Hrun as (Hzero & Hkeys & Hen). split_and!; [done..|].
      intros k cfg [[= -> ->]|Hin]%elem_of_cons; [|by apply Hen].
      intros _ _ Htrue. by rewrite Htrue in Hflag. }
    destruct (decide (k0 = "sni_annotator")) as [->|Hsni].
    + destruct (foldl _ (Some acc) (fields cfg0)) as [acc'|] eqn:Hsni;
        [|by rewrite foldl_bind_None in Hrun].
      apply sni_table_from in Hsni as [Hzero' Hkeys'].
      apply IH in Hrun as (Hzero & Hkeys & Hen). split_and!; [auto|auto|].
      intros k cfg [[= -> ->]|Hin]%elem_of_cons; [done|]. by apply Hen.
    + apply IH in Hrun as (Hzero & Hkeys & Hen). split_and!.
      * intros Hacc. apply Hzero. by apply dict_set_Forall.
      * intros k Hk. by apply Hkeys, dict_set_keys_mono.
      * intros k cfg [[= -> ->]|Hin]%elem_of_cons; [|by apply Hen].
        intros _ _ _. apply Hkeys, dict_set_keys_new.
Qed.

Lemma count_annotator_hits_keys k ip : ∀ count,
  k ∈ count.*1 → k ∈ (count_annotator_hits ip count).*1.
Proof.
  unfold count_annotator_hits.
  induction (annotations ip) as [|[n r] cands IH]; intros count Hk; [done|].
  cbn [foldl]. apply IH. cbn [fst snd]. destruct (is_empty r); [done|].
  by apply dict_set_keys_mono.
Qed.

Lemma annotators_dict_keys ip_str k ips : ∀ st,
  k ∈ (annotators_dict st).*1 →
  k ∈ (annotators_dict (foldl (stats_step ip_str) st ips)).*1.
Proof.
  induction ips as [|ip ips IH]; intros st Hk; [done|].
  cbn [foldl]. apply IH. cbn [annotators_dict stats_step].
  by apply count_annotator_hits_keys.
Qed.

(** X26: the table of annotators from the configuration to the counts: the
    table [print_annotation_stats] builds before the loop holds zeros only
    and has a row for every enabled section other than daf and
    sni_annotator; after the loop the count under a name is the number of
    non-empty candidates stored under that name over all entries, and every
    row of the initial table is still there, with 0 when the annotator never
    hit. *)
Theorem stats_table_counts_candidates config annotators_dict0 :
  annotators_dict_init config = Some annotators_dict0 →
  Forall (λ kv, kv.2 = 0%nat) annotators_dict0
  ∧ (∀ k cfg, (k, cfg) ∈ config → k ≠ "daf" → k ≠ "sni_annotator" →
              enabled cfg = EnabledTrue → k ∈ annotators_dict0.*1)
  ∧ ∀ ip_str ips k,
      default 0%nat
        (dict_lookup k
           (annotators_dict (annotation_stats_of ip_str annotators_dict0 ips)))
      = sum_list (hits k <$> ips)
      ∧ (k ∈ annotators_dict0.*1 →
         is_Some (dict_lookup k
                    (annotators_dict
                       (annotation_stats_of ip_str annotators_dict0 ips)))).
Proof.
  intros Hinit. unfold annotators_dict_init in Hinit.
  apply annotators_dict_init_from in Hinit as (Hzero & _ & Hen).
  specialize (Hzero (Forall_nil_2 _)). split_and!; [done|done|].
  intros ip_str ips k. split.
  - rewrite annotators_dict_lookup_sum.
    destruct (dict_lookup k annotators_dict0) as [n|] eqn:Hk; [|done].
    apply dict_lookup_In in Hk. rewrite Forall_forall in Hzero.
    specialize (Hzero _ Hk). simpl in Hzero. by rewrite Hzero.
  - intros Hk. unfold annotation_stats_of.
    apply (annotators_dict_keys ip_str k ips
             (mkStats 0 0 0 0 0 0 annotators_dict0 [] [] [])) in Hk.
    destruct (dict_lookup k _) as [n|] eqn:Hl; [eauto|].
    by apply dict_lookup_None in Hl.
Qed.

Lemma stats_table_counts_candidates_witness :
  Forall (λ kv : string * nat, kv.2 = 0%nat)
         [("mac_annotator", 0%nat); ("sni_annotator_TLS_SNI", 0%nat)].
Proof.
  apply (stats_table_counts_candidates
           [("daf", mkAnnotatorConfig EnabledOther []);
            ("mac_annotator", mkAnnotatorConfig EnabledTrue []);
            ("hostname_annotator", mkAnnotatorConfig EnabledFalse []);
            ("sni_annotator",
             mkAnnotatorConfig EnabledTrue [FieldList ["string TLS_SNI"; "x"]])]).
  reflexivity.
Defined.
